(** * libup: the filesystem layer of [src/up_fs.cpp]

    A shallow embedding of the pure and the state-passing parts of
    [up_fs.cpp], and the properties of its behaviour.

    Conventions.
    - A [std::string] and a [char] buffer are a [list ascii]; a pointer
      into a buffer is its index, a pair of pointers is a pair of
      indices.
    - A [UP_RAISE] is a value of [outcome] carrying the exception.
    - Operating-system calls are answered by the variables of the
      enclosing Section; the constants of the system headers have their
      Linux values. *)

From Stdlib Require Import ZArith Lia Ascii String.
From stdpp Require Import base list sorting strings.

Local Open Scope Z_scope.
Local Open Scope nat_scope.

(** ** Characters, strings and exceptions *)

Abbreviation bytes := (list ascii).

(** A string literal as a [std::string]. *)
Definition lit (s : string) : bytes := list_ascii_of_string s.

(** The value of a [char] in an expression: [char] is signed on the
    platforms the library targets. *)
Definition char_val (c : ascii) : Z :=
  let n := Z.of_N (N_of_ascii c) in
  if (n <? 128)%Z then n else (n - 256)%Z.

(** [std::string(first, last)] over a buffer. *)
Definition substring (data : bytes) (first last : nat) : bytes :=
  take (last - first) (drop first data).

(** [std::find(first, last, c)]: the first index in [[first, last)] that
    holds [c], or [last]. *)
Fixpoint find_loop (n : nat) (data : bytes) (first : nat) (c : ascii) : nat :=
  match n with
  | O => first
  | S n' =>
      match data !! first with
      | Some x => if decide (x = c) then first else find_loop n' data (S first) c
      | None => first
      end
  end.

Definition find (data : bytes) (first last : nat) (c : ascii) : nat :=
  find_loop (last - first) data first c.

(** The exceptions of the file: [runtime] with its tag, and
    [up_fs::fs::locked_file]. *)
Inductive exception : Type :=
  | runtime (tag : string)
  | locked_file (tag : string).

Inductive outcome (A : Type) : Type :=
  | Returned (a : A)
  | Raised (e : exception).
Arguments Returned {A} a.
Arguments Raised {A} e.

(** ** Pathname normalization ([pathname_split], [pathname_normalize]) *)

Module Pathname.

Section Split.
Context {St : Type}.
Variable callable : St -> bytes -> St.

(** The lambda [invoke] of [pathname_split]. *)
Definition invoke (data : bytes) (first last : nat) (st : St) : St :=
  if negb (first =? last)
     && (negb (first + 1 =? last)
         || negb (bool_decide (data !! first = Some "."%char)))
  then callable st (substring data first last)
  else st.

(** The [while] loop of [pathname_split]; every iteration moves [p]
    past one separator, [None] when the fuel does not reach the end. *)
Fixpoint split_loop (fuel : nat) (data : bytes) (p q : nat) (st : St)
  : option St :=
  match fuel with
  | O => None
  | S fuel' =>
      let r := find data p q "/"%char in
      if negb (r =? q)
      then split_loop fuel' data (r + 1) q (invoke data p r st)
      else Some (invoke data p q st)
  end.

Definition pathname_split (data : bytes) (size : nat) (st : St) : option St :=
  split_loop (size + 1) data 0 size st.
End Split.

(** The state the lambda of [pathname_normalize] captures by
    reference. *)
Record norm_state := NormState { separator : bool; result : bytes }.

Definition norm_callable (st : norm_state) (name : bytes) : norm_state :=
  let result1 := result st ++ replicate (if separator st then 1 else 0) "/"%char in
  NormState true (result1 ++ name).

(** [pathname.compare(0, 1, "/") == 0]. *)
Definition starts_with_slash (pathname : bytes) : bool :=
  bool_decide (take 1 (drop 0 pathname) = lit "/").

Definition pathname_normalize (pathname : bytes) : option bytes :=
  let absolute := starts_with_slash pathname in
  match pathname_split norm_callable pathname (length pathname)
          (NormState absolute []) with
  | None => None
  | Some st =>
      let result := result st in
      Some (result ++ replicate (if bool_decide (result = []) then 1 else 0)
                        (if absolute then "/"%char else "."%char))
  end.

(** *** The description of normalization, in the words of the
    specification *)

(** Splitting on a separator. *)
Fixpoint split_on (c : ascii) (s : bytes) : list bytes :=
  match s with
  | [] => [[]]
  | x :: s' =>
      if decide (x = c) then [] :: split_on c s'
      else match split_on c s' with
           | seg :: segs => (x :: seg) :: segs
           | [] => [[x]]
           end
  end.

(** A segment is kept unless it is empty or a single dot. *)
Definition kept (seg : bytes) : bool :=
  negb (bool_decide (seg = [])) && negb (bool_decide (seg = lit ".")).

(** Joining with a separator. *)
Fixpoint join (c : ascii) (segs : list bytes) : bytes :=
  match segs with
  | [] => []
  | [seg] => seg
  | seg :: segs' => seg ++ c :: join c segs'
  end.

Definition normalize_spec (s : bytes) : bytes :=
  let segs := filter (fun seg => kept seg = true) (split_on "/"%char s) in
  let absolute := match s with c :: _ => bool_decide (c = "/"%char) | [] => false end in
  match segs with
  | [] => if absolute then lit "/" else lit "."
  | _ => (if absolute then lit "/" else []) ++ join "/"%char segs
  end.

(** The offset of the first [c] in a range, its length when there is
    none. *)
Fixpoint index_of (c : ascii) (s : bytes) : nat :=
  match s with
  | [] => 0
  | x :: s' => if decide (x = c) then 0 else S (index_of c s')
  end.

(** *** Properties *)

Lemma index_of_le c s : index_of c s <= length s.
Proof. induction s as [|x s IH]; simpl; [lia|]. destruct (decide (x = c)); lia. Qed.

Lemma find_loop_index c rest : forall data p,
  drop p data = rest ->
  find_loop (length rest) data p c = p + index_of c rest.
Proof.
  induction rest as [|x rest IH]; intros data p Hd; simpl.
  - lia.
  - assert (Hx : data !! p = Some x).
    { rewrite <- (Nat.add_0_r p), <- lookup_drop, Hd. reflexivity. }
    rewrite Hx. destruct (decide (x = c)); [lia|].
    rewrite (IH data (S p)); [lia|].
    rewrite (drop_S _ _ _ Hx) in Hd. congruence.
Qed.

Lemma find_index c data p :
  p <= length data ->
  find data p (length data) c = p + index_of c (drop p data).
Proof.
  intros Hp. unfold find.
  replace (length data - p) with (length (drop p data)) by (rewrite length_drop; lia).
  apply find_loop_index. reflexivity.
Qed.

Lemma split_on_index c s :
  split_on c s =
    if decide (index_of c s = length s) then [s]
    else take (index_of c s) s :: split_on c (drop (S (index_of c s)) s).
Proof.
  induction s as [|x s IH]; simpl; [reflexivity|].
  destruct (decide (x = c)) as [->|Hne]; simpl.
  - rewrite drop_0. reflexivity.
  - rewrite IH. destruct (decide (index_of c s = length s)) as [He|He].
    + rewrite decide_True by lia. reflexivity.
    + rewrite decide_False by lia. reflexivity.
Qed.

Lemma invoke_kept {St} (callable : St -> bytes -> St) data p r st :
  p <= r <= length data ->
  invoke callable data p r st =
    if kept (substring data p r) then callable st (substring data p r) else st.
Proof.
  intros Hr. unfold invoke, kept, substring.
  destruct (Nat.eqb_spec p r) as [->|Hpr]; simpl.
  { rewrite Nat.sub_diag. reflexivity. }
  destruct (drop p data) as [|x rest] eqn:Hd.
  { apply (f_equal length) in Hd. rewrite length_drop in Hd. simpl in Hd. lia. }
  assert (Hx : data !! p = Some x).
  { rewrite <- (Nat.add_0_r p), <- lookup_drop, Hd. reflexivity. }
  rewrite Hx. destruct (r - p) as [|k] eqn:Hk; [lia|]. simpl.
  destruct (Nat.eqb_spec (p + 1) r) as [He|He]; simpl.
  - assert (k = 0) as -> by lia. rewrite take_0.
    destruct (decide (x = "."%char)) as [->|Hx'].
    + rewrite !bool_decide_eq_true_2 by reflexivity. reflexivity.
    + rewrite !bool_decide_eq_false_2; [reflexivity| |]; unfold lit; simpl; congruence.
  - destruct k as [|k]; [lia|]. destruct rest as [|y rest].
    { apply (f_equal length) in Hd. rewrite length_drop in Hd. simpl in Hd. lia. }
    simpl. rewrite bool_decide_eq_false_2 by (unfold lit; simpl; congruence).
    reflexivity.
Qed.

(** What [pathname_split] computes: the callable folded over the kept
    segments, in order. *)
Lemma split_loop_fold {St} (callable : St -> bytes -> St) data :
  forall fuel p st,
    p <= length data -> length data - p < fuel ->
    split_loop callable fuel data p (length data) st =
      Some (fold_left callable
              (filter (fun seg => kept seg = true) (split_on "/"%char (drop p data))) st).
Proof.
  induction fuel as [|fuel IH]; intros p st Hp Hf; [lia|]. simpl.
  rewrite find_index by exact Hp.
  rewrite (split_on_index "/"%char (drop p data)).
  pose proof (index_of_le "/"%char (drop p data)) as Hi.
  rewrite length_drop in *.
  set (i := index_of "/"%char (drop p data)) in *.
  destruct (decide (i = length data - p)) as [He|He].
  - replace (p + i) with (length data) by lia. rewrite Nat.eqb_refl. simpl.
    rewrite invoke_kept by lia. unfold substring.
    rewrite take_ge by (rewrite length_drop; lia).
    rewrite filter_cons, filter_nil.
    destruct (kept (drop p data)); reflexivity.
  - destruct (Nat.eqb_spec (p + i) (length data)) as [Hx|_]; [lia|]. simpl.
    rewrite IH by lia. rewrite invoke_kept by lia. unfold substring.
    replace (p + i - p) with i by lia.
    rewrite drop_drop. replace (p + S i) with (p + i + 1) by lia.
    rewrite filter_cons.
    destruct (kept (take i (drop p data))); reflexivity.
Qed.

Lemma pathname_split_fold {St} (callable : St -> bytes -> St) data st :
  pathname_split callable data (length data) st =
    Some (fold_left callable
            (filter (fun seg => kept seg = true) (split_on "/"%char data)) st).
Proof.
  unfold pathname_split. rewrite split_loop_fold by lia. rewrite drop_0. reflexivity.
Qed.

(** The effect of the lambda of [pathname_normalize] on a run of
    segments once a separator is due. *)
Lemma fold_norm_separated segs : forall res,
  fold_left norm_callable segs (NormState true res) =
    NormState true (res ++ concat (map (cons "/"%char) segs)).
Proof.
  induction segs as [|seg segs IH]; intros res; simpl.
  - rewrite app_nil_r. reflexivity.
  - change (norm_callable (NormState true res) seg)
      with (NormState true ((res ++ ["/"%char]) ++ seg)).
    rewrite IH. f_equal. rewrite <- !app_assoc. reflexivity.
Qed.

Lemma join_cons c seg segs :
  join c (seg :: segs) = seg ++ concat (map (cons c) segs).
Proof.
  revert seg. induction segs as [|s segs IH]; intros seg.
  - simpl. rewrite app_nil_r. reflexivity.
  - change (join c (seg :: s :: segs)) with (seg ++ c :: join c (s :: segs)).
    rewrite IH. reflexivity.
Qed.

Lemma fold_norm sep seg segs :
  result (fold_left norm_callable (seg :: segs) (NormState sep [])) =
    (if sep then lit "/" else []) ++ join "/"%char (seg :: segs).
Proof.
  rewrite join_cons. cbn [fold_left].
  change (norm_callable (NormState sep []) seg)
    with (NormState true (([] ++ replicate (if sep then 1 else 0) "/"%char) ++ seg)).
  rewrite fold_norm_separated. cbn [result].
  destruct sep; simpl; rewrite <- ?app_assoc; reflexivity.
Qed.

Lemma starts_with_slash_head s :
  starts_with_slash s =
    match s with c :: _ => bool_decide (c = "/"%char) | [] => false end.
Proof.
  unfold starts_with_slash, lit. rewrite drop_0. destruct s as [|c s]; simpl.
  - reflexivity.
  - rewrite take_0. apply bool_decide_ext. split; congruence.
Qed.

Lemma split_on_no_sep c s : forall seg, seg ∈ split_on c s -> c ∉ seg.
Proof.
  induction s as [|x s IH]; simpl; intros seg Hin.
  - apply list_elem_of_singleton in Hin as ->. apply not_elem_of_nil.
  - destruct (decide (x = c)) as [->|Hne].
    + apply elem_of_cons in Hin as [->|Hin]; [apply not_elem_of_nil|auto].
    + destruct (split_on c s) as [|seg0 segs]; simpl in *.
      * apply list_elem_of_singleton in Hin as ->.
        intros H. apply list_elem_of_singleton in H. congruence.
      * apply elem_of_cons in Hin as [->|Hin].
        -- intros H. apply elem_of_cons in H as [H|H]; [congruence|].
           revert H. apply IH. left.
        -- apply IH. right. exact Hin.
Qed.

Lemma kept_nonempty seg : kept seg = true -> seg <> [].
Proof. unfold kept. intros H ->. discriminate. Qed.

(** Normalization returns for every input, and what it returns is the
    description. *)
Lemma pathname_normalize_spec s : pathname_normalize s = Some (normalize_spec s).
Proof.
  unfold pathname_normalize, normalize_spec.
  rewrite pathname_split_fold, starts_with_slash_head.
  set (absolute := match s with c :: _ => bool_decide (c = "/"%char) | [] => false end).
  destruct (filter (fun seg => kept seg = true) (split_on "/"%char s))
    as [|seg segs] eqn:Hsegs.
  - simpl. destruct absolute; reflexivity.
  - rewrite fold_norm. f_equal.
    assert (Hk : kept seg = true).
    { assert (Hin : seg ∈ filter (fun seg => kept seg = true) (split_on "/"%char s))
        by (rewrite Hsegs; left).
      apply list_elem_of_filter in Hin. tauto. }
    apply kept_nonempty in Hk.
    rewrite bool_decide_eq_false_2.
    + simpl. rewrite app_nil_r. reflexivity.
    + rewrite join_cons. destruct absolute; simpl; [discriminate|].
      destruct seg; [congruence|discriminate].
Qed.

(** C1. For every input string, [pathname_normalize] returns, and its
    result is the input split on the separator, with the empty and
    the single-dot segments dropped and every other segment (the
    double dot among them) kept as it is, joined with the separator
    again, behind a leading separator exactly when the input starts
    with one; with no segment left the result is a dot for a relative
    and a separator for an absolute input. The four sample inputs
    of the specification give the results written there. *)
Theorem pathname_normalize_correct :
  (forall s : bytes,
      pathname_normalize s = Some (normalize_spec s)
      /\ (head (normalize_spec s) = Some "/"%char <-> head s = Some "/"%char))
  /\ kept (lit "..") = true /\ kept (lit "") = false /\ kept (lit ".") = false
  /\ pathname_normalize (lit "a/../b") = Some (lit "a/../b")
  /\ pathname_normalize (lit "a//b/./c") = Some (lit "a/b/c")
  /\ pathname_normalize (lit "/a/./b") = Some (lit "/a/b")
  /\ pathname_normalize (lit "") = Some (lit ".")
  /\ pathname_normalize (lit "/") = Some (lit "/").
Proof.
  split; [|repeat split; reflexivity].
  intros s. split; [apply pathname_normalize_spec|].
  unfold normalize_spec.
  destruct (filter (fun seg => kept seg = true) (split_on "/"%char s))
    as [|seg segs] eqn:Hsegs.
  - destruct s as [|c s]; simpl; [split; discriminate|].
    destruct (bool_decide_reflect (c = "/"%char)) as [->|Hc]; simpl;
      [tauto|split; intros [= ?]; congruence].
  - assert (Hin : seg ∈ filter (fun seg => kept seg = true) (split_on "/"%char s))
      by (rewrite Hsegs; left).
    apply list_elem_of_filter in Hin as [Hk Hin].
    apply kept_nonempty in Hk. apply split_on_no_sep in Hin.
    rewrite join_cons.
    destruct seg as [|x seg]; [congruence|].
    assert (Hx : x <> "/"%char) by (intros ->; apply Hin; left).
    destruct s as [|c s]; simpl; [split; [intros [= ?]; congruence|discriminate]|].
    destruct (bool_decide_reflect (c = "/"%char)) as [->|Hc]; simpl;
      [tauto|split; intros [= ?]; congruence].
Qed.

End Pathname.

(** ** The mount table ([unmangle_pathname_from_proc], [parse_mountinfo]) *)

Module Mountinfo.

Definition backslash : ascii := "\"%char.
Definition LF : ascii := "010"%char.
Definition NUL : ascii := "000"%char.
Definition SP : ascii := " "%char.

Definition unmangle_error : exception := runtime "fs-unmangle-path".
Definition mountinfo_error : exception := runtime "fs-mountinfo-error".

(** [static_cast<unsigned char>(value)] of an [unsigned]. *)
Definition to_uchar (value : Z) : ascii :=
  ascii_of_N (Z.to_N (value mod 256)).

(** The [for] loop of [unmangle_pathname_from_proc] over the range
    [[p, last)] that is left, with the [result] built so far. *)
Fixpoint unmangle_loop (range : bytes) (result : bytes) : outcome bytes :=
  match range with
  | [] => Returned result
  | c :: rest =>
      if negb (bool_decide (c = backslash)) then unmangle_loop rest (result ++ [c])
      else if length range <? 4 then Raised unmangle_error
      else
        match rest with
        | d1 :: d2 :: d3 :: rest' =>
            if ((char_val d1 <? 48) || (char_val d1 >? 51))%Z
            then Raised unmangle_error
            else
              let value := (char_val d1 - 48)%Z in
              if ((char_val d2 <? 48) || (char_val d2 >? 55))%Z
              then Raised unmangle_error
              else
                let value := (Z.shiftl value 3 + (char_val d2 - 48))%Z in
                if ((char_val d3 <? 48) || (char_val d3 >? 55))%Z
                then Raised unmangle_error
                else
                  let value := (Z.shiftl value 3 + (char_val d3 - 48))%Z in
                  unmangle_loop rest' (result ++ [to_uchar value])
        | _ => Raised unmangle_error
        end
  end.

Definition unmangle_pathname_from_proc (data : bytes) (first last : nat)
  : outcome bytes :=
  unmangle_loop (substring data first last) [].

(** *** [parse_mountinfo] *)

Record mount := Mount { device : Z; path : bytes }.

(** [makedev] of glibc's [<sys/sysmacros.h>]. *)
Definition makedev (major minor : Z) : Z :=
  Z.lor (Z.lor (Z.shiftl (Z.land major 0xfff) 8)
               (Z.shiftl (Z.land major 0xfffff000) 32))
        (Z.lor (Z.land minor 0xff)
               (Z.shiftl (Z.land minor 0xffffff00) 12)).

Definition isspace (c : ascii) : bool :=
  let n := N_of_ascii c in ((n =? 32) || ((9 <=? n) && (n <=? 13)))%N.

Definition isdigit (c : ascii) : bool :=
  let n := N_of_ascii c in ((48 <=? n) && (n <=? 57))%N.

(** White space in a [scanf] format, and before a numeric conversion. *)
Fixpoint skip_space (s : bytes) : bytes :=
  match s with
  | c :: s' => if isspace c then skip_space s' else s
  | [] => []
  end.

Fixpoint scan_digits (s : bytes) (acc : Z) : Z * bytes :=
  match s with
  | c :: s' =>
      if isdigit c
      then scan_digits s' (10 * acc + (Z.of_N (N_of_ascii c) - 48))%Z
      else (acc, s)
  | [] => (acc, [])
  end.

Inductive scan : Type :=
  | ScanOk (negative : bool) (digits : Z) (rest : bytes)
  | ScanMismatch
  | ScanEof.

(** The characters of a [%d] or [%u] conversion: white space, an
    optional sign, and at least one decimal digit; the sign and the
    value of the digits. *)
Definition scan_integer (s : bytes) : scan :=
  match skip_space s with
  | [] => ScanEof
  | c :: s1 =>
      let '(neg, s2) :=
        if bool_decide (c = "-"%char) then (true, s1)
        else if bool_decide (c = "+"%char) then (false, s1)
        else (false, c :: s1) in
      match s2 with
      | d :: _ =>
          if isdigit d
          then let '(v, rest) := scan_digits s2 0 in
               ScanOk neg v rest
          else ScanMismatch
      | [] => ScanMismatch
      end
  end.

Definition EOF : Z := (-1)%Z.

Definition ULONG_MAX : Z := 0xffffffffffffffff.

(** [strtoul] of glibc with its 64-bit [unsigned long], with which
    [sscanf] converts the characters of a [%u]: [ULONG_MAX] when the
    digits exceed it, with or without a sign, and otherwise the
    value, negated modulo [2^64] behind a minus sign. *)
Definition strtoul (negative : bool) (digits : Z) : Z :=
  if (ULONG_MAX <? digits)%Z then ULONG_MAX
  else if negative then ((- digits) mod 2 ^ 64)%Z
  else digits.

(** What a [%u] stores: the [unsigned long] cast to [unsigned]. *)
Definition store_unsigned (negative : bool) (digits : Z) : Z :=
  (strtoul negative digits mod 2 ^ 32)%Z.

(** [sscanf(str, "%*d %*d %u:%u%n", &major, &minor, &pos)] on the
    characters of [str] before its terminator: the return value, and
    what was stored. The end of the string where a number starts is
    an input failure, which gives [EOF] as long as nothing is stored;
    other characters than a number are a matching failure, which
    gives the number of the values stored. *)
Definition sscanf_mountinfo (str : bytes) : Z * Z * Z * nat :=
  match scan_integer str with
  | ScanEof => (EOF, 0%Z, 0%Z, 0)
  | ScanMismatch => (0%Z, 0%Z, 0%Z, 0)
  | ScanOk _ _ s1 =>
      match scan_integer (skip_space s1) with
      | ScanEof => (EOF, 0%Z, 0%Z, 0)
      | ScanMismatch => (0%Z, 0%Z, 0%Z, 0)
      | ScanOk _ _ s2 =>
          match scan_integer (skip_space s2) with
          | ScanEof => (EOF, 0%Z, 0%Z, 0)
          | ScanMismatch => (0%Z, 0%Z, 0%Z, 0)
          | ScanOk negative digits s3 =>
              let major := store_unsigned negative digits in
              match s3 with
              | c :: s4 =>
                  if bool_decide (c = ":"%char) then
                    match scan_integer s4 with
                    | ScanOk negative digits s5 =>
                        (2%Z, major, store_unsigned negative digits,
                         length str - length s5)
                    | _ => (1%Z, major, 0%Z, 0)
                    end
                  else (1%Z, major, 0%Z, 0)
              | [] => (1%Z, major, 0%Z, 0)
              end
          end
      end
  end.

(** The C string that starts at [first]: the characters before the
    first terminator. *)
Fixpoint until_nul (s : bytes) : bytes :=
  match s with
  | c :: s' => if bool_decide (c = NUL) then [] else c :: until_nul s'
  | [] => []
  end.

Definition c_str (data : bytes) (first : nat) : bytes :=
  until_nul (drop first data).

(** The [while] loop of [parse_mountinfo]; the buffer is written to
    ([*p = 0]) and is part of the state. [None] when the fuel does
    not reach the end of the buffer. *)
Fixpoint parse_loop (fuel : nat) (data : bytes) (first last : nat)
    (result : list mount) : option (outcome (list mount)) :=
  match fuel with
  | O => None
  | S fuel' =>
      let p := find data first last LF in
      if negb (p =? last) then
        let data := <[p := NUL]> data in
        let '(rv, major, minor, pos) := sscanf_mountinfo (c_str data first) in
        if (negb (rv =? 2) && negb (rv =? 3))%Z
        then Some (Raised mountinfo_error)
        else
          let r := find data (first + pos + 1) last SP in
          if r =? last then Some (Raised mountinfo_error)
          else
            let r := r + 1 in
            let s := find data r last SP in
            if s =? last then Some (Raised mountinfo_error)
            else
              match unmangle_pathname_from_proc data r s with
              | Raised e => Some (Raised e)
              | Returned path =>
                  parse_loop fuel' data (p + 1) last
                    (result ++ [Mount (makedev major minor) path])
              end
      else Some (Returned result)
  end.

Definition parse_mountinfo (data : bytes) : option (outcome (list mount)) :=
  parse_loop (length data + 1) data 0 (length data) [].

(** *** The escape convention, in the words of the specification *)

(** The value of an octal digit no larger than [hi]. *)
Definition octal_digit (hi : N) (c : ascii) : option N :=
  let n := N_of_ascii c in
  if ((48 <=? n) && (n <=? 48 + hi))%N then Some (n - 48)%N else None.

Fixpoint decode_spec (s : bytes) : option bytes :=
  match s with
  | [] => Some []
  | c :: rest =>
      if bool_decide (c = backslash) then
        match rest with
        | d1 :: d2 :: d3 :: rest' =>
            match octal_digit 3 d1, octal_digit 7 d2, octal_digit 7 d3 with
            | Some a, Some b, Some d =>
                cons (ascii_of_N (64 * a + 8 * b + d)) <$> decode_spec rest'
            | _, _, _ => None
            end
        | _ => None
        end
      else cons c <$> decode_spec rest
  end.

(** A line without a mount point, and a complete line. *)
Definition short_line : bytes := lit "1 2 3:4".
Definition full_line : bytes := lit "5 6 7:8 / /mnt rest".

(** *** Properties of the decoder *)

Lemma digit_check (hi : N) (top : Z) (d : ascii) :
  (hi < 80)%N -> top = (48 + Z.of_N hi)%Z ->
  ((char_val d <? 48) || (char_val d >? top))%Z =
    match octal_digit hi d with Some _ => false | None => true end
  /\ (forall a, octal_digit hi d = Some a ->
        (char_val d - 48)%Z = Z.of_N a /\ (a <= hi)%N).
Proof.
  intros Hhi ->. unfold char_val, octal_digit.
  pose proof (N_ascii_bounded d) as Hb.
  set (n := N_of_ascii d) in *.
  destruct (N.leb_spec 48 n), (N.leb_spec n (48 + hi)); simpl;
    destruct (Z.ltb_spec (Z.of_N n) 128); split;
    try (intros a [= <-]; lia); try discriminate;
    repeat match goal with
           | |- context [(?a <? ?b)%Z] => destruct (Z.ltb_spec a b)
           | |- context [(?a >? ?b)%Z] =>
               rewrite (Z.gtb_ltb a b); destruct (Z.ltb_spec b a)
           end; simpl; try reflexivity; lia.
Qed.

Lemma to_uchar_octal (a b d : N) :
  (a <= 3)%N -> (b <= 7)%N -> (d <= 7)%N ->
  to_uchar (Z.shiftl (Z.shiftl (Z.of_N a) 3 + Z.of_N b) 3 + Z.of_N d)
  = ascii_of_N (64 * a + 8 * b + d).
Proof.
  intros Ha Hb Hd. unfold to_uchar. rewrite !Z.shiftl_mul_pow2 by lia.
  f_equal. change (2 ^ 3)%Z with 8%Z. rewrite Z.mod_small by lia. lia.
Qed.

(** The loop computes the description, appended to what was built
    before. *)
Lemma unmangle_loop_spec : forall n s res,
  length s <= n ->
  unmangle_loop s res =
    match decode_spec s with
    | Some r => Returned (res ++ r)
    | None => Raised unmangle_error
    end.
Proof.
  induction n as [|n IH]; intros s res Hn.
  { destruct s; [|simpl in Hn; lia]. simpl. rewrite app_nil_r. reflexivity. }
  destruct s as [|c rest]; [simpl; rewrite app_nil_r; reflexivity|].
  cbn [unmangle_loop decode_spec]. simpl in Hn.
  destruct (bool_decide (c = backslash)); cbn [negb].
  - destruct rest as [|d1 [|d2 [|d3 rest']]]; try reflexivity.
    replace (length (c :: d1 :: d2 :: d3 :: rest') <? 4) with false
      by (symmetry; apply Nat.ltb_ge; simpl; lia).
    destruct (digit_check 3 51 d1) as [-> H1]; [lia|reflexivity|].
    destruct (octal_digit 3 d1) as [a|]; [|reflexivity].
    destruct (H1 a eq_refl) as [-> Ha].
    destruct (digit_check 7 55 d2) as [-> H2]; [lia|reflexivity|].
    destruct (octal_digit 7 d2) as [b|]; [|reflexivity].
    destruct (H2 b eq_refl) as [-> Hb].
    destruct (digit_check 7 55 d3) as [-> H3]; [lia|reflexivity|].
    destruct (octal_digit 7 d3) as [d|]; [|reflexivity].
    destruct (H3 d eq_refl) as [-> Hd].
    rewrite to_uchar_octal by assumption.
    rewrite IH by (simpl in *; lia).
    destruct (decode_spec rest'); simpl; [|reflexivity].
    rewrite <- app_assoc. reflexivity.
  - rewrite IH by lia. destruct (decode_spec rest); simpl; [|reflexivity].
    rewrite <- app_assoc. reflexivity.
Qed.

Lemma unmangle_spec (s : bytes) :
  unmangle_pathname_from_proc s 0 (length s) =
    match decode_spec s with
    | Some r => Returned r
    | None => Raised unmangle_error
    end.
Proof.
  unfold unmangle_pathname_from_proc, substring.
  rewrite drop_0, Nat.sub_0_r, firstn_all.
  apply (unmangle_loop_spec (length s)). lia.
Qed.

(** C2. The decoder copies every byte other than a backslash; a
    backslash must be followed by three octal digits, the first at
    most 3 and the other two at most 7, and the four characters are
    replaced by the byte of that octal value; a backslash followed
    by fewer than three characters, or by a digit out of range,
    raises the decode error. The mount point with an escaped space
    decodes to the one with the space; the truncated and the
    non-octal escape raise. *)
Theorem unmangle_pathname_from_proc_correct :
  (forall s : bytes,
      unmangle_pathname_from_proc s 0 (length s) =
        match decode_spec s with
        | Some r => Returned r
        | None => Raised unmangle_error
        end)
  /\ (forall (c : ascii) (s res : bytes),
        c <> backslash -> unmangle_loop (c :: s) res = unmangle_loop s (res ++ [c]))
  /\ (forall (d1 d2 d3 : ascii) (s res : bytes),
        unmangle_loop (backslash :: d1 :: d2 :: d3 :: s) res =
          match octal_digit 3 d1, octal_digit 7 d2, octal_digit 7 d3 with
          | Some a, Some b, Some d =>
              unmangle_loop s (res ++ [ascii_of_N (64 * a + 8 * b + d)])
          | _, _, _ => Raised unmangle_error
          end)
  /\ (forall s res : bytes,
        length s < 3 -> unmangle_loop (backslash :: s) res = Raised unmangle_error)
  /\ unmangle_pathname_from_proc (lit "/mnt/my\040disk") 0 15
      = Returned (lit "/mnt/my disk")
  /\ unmangle_pathname_from_proc (lit "/mnt\04") 0 7 = Raised unmangle_error
  /\ unmangle_pathname_from_proc (lit "\089") 0 4 = Raised unmangle_error.
Proof.
  split; [exact unmangle_spec|].
  split.
  { intros c s res Hc. simpl. rewrite bool_decide_eq_false_2 by exact Hc. reflexivity. }
  split.
  { intros d1 d2 d3 s res. cbn [unmangle_loop].
    rewrite bool_decide_eq_true_2 by reflexivity. cbn [negb].
    replace (length (backslash :: d1 :: d2 :: d3 :: s) <? 4) with false
      by (symmetry; apply Nat.ltb_ge; simpl; lia).
    destruct (digit_check 3 51 d1) as [-> H1]; [lia|reflexivity|].
    destruct (octal_digit 3 d1) as [a|]; [|reflexivity].
    destruct (H1 a eq_refl) as [-> Ha].
    destruct (digit_check 7 55 d2) as [-> H2]; [lia|reflexivity|].
    destruct (octal_digit 7 d2) as [b|]; [|reflexivity].
    destruct (H2 b eq_refl) as [-> Hb].
    destruct (digit_check 7 55 d3) as [-> H3]; [lia|reflexivity|].
    destruct (octal_digit 7 d3) as [d|]; [|reflexivity].
    destruct (H3 d eq_refl) as [-> Hd].
    rewrite to_uchar_octal by assumption. reflexivity. }
  split; [|repeat split; reflexivity].
  intros [|d1 [|d2 [|d3 s]]] res Hs; try reflexivity. simpl in Hs. lia.
Qed.

(** The decoder at a truncated escape. *)
Lemma unmangle_pathname_from_proc_witness :
  unmangle_loop (backslash :: lit "04") [] = Raised unmangle_error
  /\ unmangle_loop ("a"%char :: lit "b") [] = unmangle_loop (lit "b") ([] ++ ["a"%char]).
Proof.
  split.
  - apply (proj1 (proj2 (proj2 (proj2 unmangle_pathname_from_proc_correct)))).
    simpl. lia.
  - apply (proj1 (proj2 unmangle_pathname_from_proc_correct)). discriminate.
Defined.

(** *** Properties of the parser *)

Lemma find_loop_range c data : forall n first,
  first <= find_loop n data first c <= first + n.
Proof.
  induction n as [|n IH]; intros first; simpl; [lia|].
  destruct (data !! first) as [x|]; [|lia].
  destruct (decide (x = c)); [lia|]. specialize (IH (S first)). lia.
Qed.

Lemma find_range c data first last :
  first <= last -> first <= find data first last c <= last.
Proof.
  intros H. unfold find. pose proof (find_loop_range c data (last - first) first). lia.
Qed.

(** The parser returns or raises on every buffer: each iteration
    moves [first] past one line terminator. *)
Lemma parse_loop_total last : forall fuel data first result,
  first <= last -> last - first < fuel ->
  exists o, parse_loop fuel data first last result = Some o.
Proof.
  induction fuel as [|fuel IH]; intros data first result Hle Hf; [lia|].
  cbn [parse_loop].
  pose proof (find_range LF data first last Hle) as Hp.
  destruct (Nat.eqb_spec (find data first last LF) last) as [He|Hne]; cbn [negb];
    [eauto|].
  destruct (sscanf_mountinfo _) as [[[rv major] minor] pos].
  destruct (negb (rv =? 2) && negb (rv =? 3))%Z; [eauto|].
  destruct (_ =? last); [eauto|].
  destruct (_ =? last); [eauto|].
  destruct (unmangle_pathname_from_proc _ _ _); [|eauto].
  apply IH; lia.
Qed.

Lemma parse_mountinfo_total data : exists o, parse_mountinfo data = Some o.
Proof. apply parse_loop_total; lia. Qed.

(** C4. The parser does not treat the lines of the buffer
    independently: the searches for the two spaces that delimit the
    mount point run to the end of the buffer and not to the end of
    the line. A first line that stops after the device raises the
    parse error when it is the whole buffer, but followed by a
    complete line it is accepted, with the second token of that next
    line as its mount point. *)
Theorem parse_mountinfo_line_overrun :
  parse_mountinfo (short_line ++ [LF]) = Some (Raised mountinfo_error)
  /\ parse_mountinfo (full_line ++ [LF])
     = Some (Returned [Mount (makedev 7 8) (lit "/mnt")])
  /\ parse_mountinfo (short_line ++ [LF] ++ full_line ++ [LF])
     = Some (Returned [Mount (makedev 3 4) (lit "6");
                       Mount (makedev 7 8) (lit "/mnt")]).
Proof. repeat split; vm_compute; reflexivity. Qed.

End Mountinfo.



(** ** Directory scanning ([map_dirent_type_to_kind], [scan_directory]) *)

Module Scan.

Inductive kind : Type :=
  | block_device | character_device | directory | named_pipe
  | symbolic_link | regular_file | socket | unknown.

#[global] Instance kind_eq_dec : EqDecision kind.
Proof. solve_decision. Defined.

(** The type codes of [<dirent.h>]. *)
Definition DT_UNKNOWN : Z := 0.
Definition DT_FIFO : Z := 1.
Definition DT_CHR : Z := 2.
Definition DT_DIR : Z := 4.
Definition DT_BLK : Z := 6.
Definition DT_REG : Z := 8.
Definition DT_LNK : Z := 10.
Definition DT_SOCK : Z := 12.

Definition bad_type_error : exception := runtime "fs-bad-type-error".
Definition opendir_error : exception := runtime "fs-opendir-error".
Definition readdir_error : exception := runtime "fs-readdir-error".

Definition map_dirent_type_to_kind (type : Z) : outcome kind :=
  if (type =? DT_BLK)%Z then Returned block_device
  else if (type =? DT_CHR)%Z then Returned character_device
  else if (type =? DT_DIR)%Z then Returned directory
  else if (type =? DT_FIFO)%Z then Returned named_pipe
  else if (type =? DT_LNK)%Z then Returned symbolic_link
  else if (type =? DT_REG)%Z then Returned regular_file
  else if (type =? DT_SOCK)%Z then Returned socket
  else if (type =? DT_UNKNOWN)%Z then Returned unknown
  else Raised bad_type_error.

(** A [struct dirent]; [d_name] is the characters before the
    terminator, [d_type] an [unsigned char]. *)
Record dirent := Dirent { d_ino : Z; d_type : Z; d_name : bytes }.

(** [up_fs::fs::directory_entry]. *)
Record directory_entry :=
  DirectoryEntry { inode : Z; name : bytes; type : kind }.

(** One call of [readdir_r] that does not report the end of the
    directory: a non-zero return value, or an entry. The end of the
    list is the call that sets [de] to [nullptr]. *)
Inductive readdir_result : Type :=
  | ReadError (rv : Z)
  | ReadEntry (de : dirent).

(** [strcmp(de->d_name, ".") == 0 || strcmp(de->d_name, "..") == 0]. *)
Definition is_dot (de : dirent) : bool :=
  bool_decide (d_name de = lit ".") || bool_decide (d_name de = lit "..").

Section Visitor.
Context {St : Type}.
(** The visitor with the state it captures. *)
Variable visitor : St -> directory_entry -> St * bool.

(** The [for (;;)] loop of [scan_directory] over what [readdir_r]
    still has to deliver; [reads] counts the calls of
    [readdir_r]. *)
Fixpoint scan_loop (stream : list readdir_result) (st : St) (reads : nat)
  : outcome bool * St * nat :=
  match stream with
  | [] => (Returned false, st, S reads)
  | ReadError rv :: _ => (Raised readdir_error, st, S reads)
  | ReadEntry de :: rest =>
      if is_dot de then scan_loop rest st (S reads)
      else
        match map_dirent_type_to_kind (d_type de) with
        | Raised e => (Raised e, st, S reads)
        | Returned kind =>
            let '(st', stop) :=
              visitor st (DirectoryEntry (d_ino de) (d_name de) kind) in
            if stop then (Returned true, st', S reads)
            else scan_loop rest st' (S reads)
        end
  end.

(** [scan_directory(handle, visitor)]; [dirp] is what [fdopendir]
    makes of the handle, [None] when it fails. *)
Definition scan_directory (dirp : option (list readdir_result)) (st : St)
  : outcome bool * St * nat :=
  match dirp with
  | None => (Raised opendir_error, st, 0)
  | Some stream => scan_loop stream st 0
  end.
End Visitor.

(** The lambda of the collecting form. *)
Definition collect (result : list directory_entry) (entry : directory_entry)
  : list directory_entry * bool :=
  (result ++ [entry], false).

(** [scan_directory(handle)]. *)
Definition scan_directory_all (dirp : option (list readdir_result))
  : outcome (list directory_entry) :=
  match scan_directory collect dirp [] with
  | (Returned _, result, _) => Returned result
  | (Raised e, _, _) => Raised e
  end.

(** A visitor that also keeps what it was called with. *)
Definition recording {St : Type} (visitor : St -> directory_entry -> St * bool)
    (st : St * list directory_entry) (entry : directory_entry)
  : (St * list directory_entry) * bool :=
  let '(st', stop) := visitor (fst st) entry in ((st', snd st ++ [entry]), stop).

(** What a scan may produce from a stream: the entry of a [dirent]
    of the stream that is not a dot entry, with the kind of its
    type code. *)
Definition produced_from (stream : list readdir_result) (e : directory_entry)
  : Prop :=
  name e <> lit "." /\ name e <> lit ".."
  /\ exists de, ReadEntry de ∈ stream
                /\ inode e = d_ino de /\ name e = d_name de
                /\ map_dirent_type_to_kind (d_type de) = Returned (type e).

Definition known_type (t : Z) : Prop :=
  t ∈ [DT_BLK; DT_CHR; DT_DIR; DT_FIFO; DT_LNK; DT_REG; DT_SOCK; DT_UNKNOWN].

(** The closed set of kinds in the words of the specification, each
    with the type code of [<dirent.h>] that stands for it. *)
Definition kind_table : list (Z * kind) :=
  [(6, block_device); (2, character_device); (4, directory); (1, named_pipe);
   (10, symbolic_link); (8, regular_file); (12, socket); (0, unknown)]%Z.

(** A directory with the two dot entries, a regular file, a
    directory, and an entry of type code 14. *)
Definition sample_stream : list readdir_result :=
  [ReadEntry (Dirent 2 DT_DIR (lit "."));
   ReadEntry (Dirent 1 DT_DIR (lit ".."));
   ReadEntry (Dirent 7 DT_REG (lit "a"));
   ReadEntry (Dirent 8 DT_DIR (lit "d"));
   ReadEntry (Dirent 9 14 (lit "w"))].

(** *** Properties *)

Lemma map_known (t : Z) :
  (known_type t -> exists k, map_dirent_type_to_kind t = Returned k)
  /\ (~ known_type t -> map_dirent_type_to_kind t = Raised bad_type_error).
Proof.
  unfold known_type, map_dirent_type_to_kind. split.
  - intros H. repeat (apply elem_of_cons in H as [->|H]; [simpl; eauto|]).
    apply elem_of_nil in H. contradiction.
  - intros H.
    repeat match goal with
           | |- context [(t =? ?c)%Z] =>
               destruct (Z.eqb_spec t c) as [->|?];
               [exfalso; apply H; repeat (first [left|right])|]
           end.
    reflexivity.
Qed.

Lemma map_table (t : Z) (k : kind) :
  map_dirent_type_to_kind t = Returned k <-> (t, k) ∈ kind_table.
Proof.
  unfold kind_table, map_dirent_type_to_kind. split.
  - repeat match goal with
           | |- context [(t =? ?c)%Z] => destruct (Z.eqb_spec t c) as [->|?]
           end;
      intros [= <-]; apply list_elem_of_In; simpl; tauto.
  - intros H. apply list_elem_of_In in H. simpl in H.
    repeat (destruct H as [[= <- <-]|H]; [reflexivity|]). contradiction.
Qed.

Lemma produced_from_cons x stream e :
  produced_from stream e -> produced_from (x :: stream) e.
Proof.
  intros (H1 & H2 & de & Hin & H). repeat split; try assumption.
  exists de. split; [right; exact Hin|exact H].
Qed.

Lemma produced_from_head de rest k :
  is_dot de = false -> map_dirent_type_to_kind (d_type de) = Returned k ->
  produced_from (ReadEntry de :: rest) (DirectoryEntry (d_ino de) (d_name de) k).
Proof.
  intros Hdot Hk. unfold is_dot in Hdot. apply orb_false_elim in Hdot as [H1 H2].
  apply bool_decide_eq_false in H1, H2.
  repeat split; try assumption. exists de. repeat split; [left|exact Hk].
Qed.

(** Whatever the visitor does, it is only ever called with entries
    the stream may produce. *)
Lemma scan_loop_recording {St} (visitor : St -> directory_entry -> St * bool) :
  forall stream st seen n,
    exists new,
      snd (snd (fst (scan_loop (recording visitor) stream (st, seen) n)))
        = seen ++ new /\ Forall (produced_from stream) new.
Proof.
  induction stream as [|x stream IH]; intros st seen n; cbn [scan_loop].
  - exists []. rewrite app_nil_r. split; [reflexivity|constructor].
  - destruct x as [rv|de]; cbn [fst snd].
    { exists []. rewrite app_nil_r. split; [reflexivity|constructor]. }
    destruct (is_dot de) eqn:Hdot.
    { destruct (IH st seen (S n)) as (new & Heq & Hall). exists new.
      split; [exact Heq|]. eapply Forall_impl; [exact Hall|].
      intros e. apply produced_from_cons. }
    destruct (map_dirent_type_to_kind (d_type de)) as [k|e] eqn:Hk; cbn [fst snd].
    2:{ exists []. rewrite app_nil_r. split; [reflexivity|constructor]. }
    unfold recording at 1. cbn [fst snd].
    destruct (visitor st _) as [st' stop] eqn:Hv.
    pose proof (produced_from_head de stream k Hdot Hk) as Hp.
    destruct stop; cbn [fst snd].
    + exists [DirectoryEntry (d_ino de) (d_name de) k].
      split; [reflexivity|]. constructor; [exact Hp|constructor].
    + destruct (IH st' (seen ++ [DirectoryEntry (d_ino de) (d_name de) k]) (S n))
        as (new & Heq & Hall).
      exists (DirectoryEntry (d_ino de) (d_name de) k :: new).
      rewrite Heq. split.
      * rewrite <- app_assoc. reflexivity.
      * constructor; [exact Hp|]. eapply Forall_impl; [exact Hall|].
        intros e. apply produced_from_cons.
Qed.

(** Recording does not change what the scan does. *)
Lemma recording_transparent {St} (visitor : St -> directory_entry -> St * bool) :
  forall stream st seen n,
    let r := scan_loop (recording visitor) stream (st, seen) n in
    (fst (fst r), fst (snd (fst r)), snd r) = scan_loop visitor stream st n.
Proof.
  induction stream as [|x stream IH]; intros st seen n; cbv zeta in *;
    cbn [scan_loop]; [reflexivity|].
  destruct x as [rv|de]; [reflexivity|].
  destruct (is_dot de); [apply IH|].
  destruct (map_dirent_type_to_kind (d_type de)) as [k|e]; [|reflexivity].
  unfold recording in *. cbn [fst snd].
  destruct (visitor st _) as [st' stop]. destruct stop; [reflexivity|apply IH].
Qed.

(** The collecting form: what it has collected when it returns. *)
Lemma collect_loop : forall stream acc n,
  match scan_loop collect stream acc n with
  | (Returned _, res, _) =>
      exists new, res = acc ++ new /\ Forall (produced_from stream) new
  | (Raised _, _, _) => True
  end.
Proof.
  induction stream as [|x stream IH]; intros acc n; cbn [scan_loop].
  - exists []. rewrite app_nil_r. split; [reflexivity|constructor].
  - destruct x as [rv|de]; [exact I|].
    destruct (is_dot de) eqn:Hdot.
    { specialize (IH acc (S n)).
      destruct (scan_loop collect stream acc (S n)) as [[[b|e] res] m]; [|exact I].
      destruct IH as (new & -> & Hall). exists new. split; [reflexivity|].
      eapply Forall_impl; [exact Hall|]. intros e. apply produced_from_cons. }
    destruct (map_dirent_type_to_kind (d_type de)) as [k|e] eqn:Hk; [|exact I].
    cbn [collect].
    specialize (IH (acc ++ [DirectoryEntry (d_ino de) (d_name de) k]) (S n)).
    destruct (scan_loop collect stream _ (S n)) as [[[b|e] res] m]; [|exact I].
    destruct IH as (new & -> & Hall).
    exists (DirectoryEntry (d_ino de) (d_name de) k :: new).
    rewrite <- app_assoc. split; [reflexivity|].
    constructor; [apply produced_from_head; assumption|].
    eapply Forall_impl; [exact Hall|]. intros e. apply produced_from_cons.
Qed.

Lemma scan_directory_all_produced stream result :
  scan_directory_all (Some stream) = Returned result ->
  Forall (produced_from stream) result.
Proof.
  unfold scan_directory_all, scan_directory. intros H.
  pose proof (collect_loop stream [] 0) as Hc.
  destruct (scan_loop collect stream [] 0) as [[[b|e] res] m]; [|discriminate].
  destruct Hc as (new & -> & Hall). injection H as <-. exact Hall.
Qed.

(** An entry of unknown type code behind entries that are dot
    entries or of known type makes the collecting form raise. *)
Lemma collect_bad_type de rest : forall pre acc n,
  Forall (fun d => is_dot d = true \/ known_type (d_type d)) pre ->
  is_dot de = false -> ~ known_type (d_type de) ->
  exists res m,
    scan_loop collect (map ReadEntry pre ++ ReadEntry de :: rest) acc n
    = (Raised bad_type_error, res, m).
Proof.
  induction pre as [|d pre IH]; intros acc n Hpre Hdot Hbad; cbn [map app scan_loop].
  - rewrite Hdot. rewrite (proj2 (map_known _) Hbad). eauto.
  - apply Forall_cons in Hpre as [Hd Hpre].
    destruct (is_dot d) eqn:Hdd; [apply IH; assumption|].
    destruct Hd as [Hd|Hd]; [discriminate|].
    destruct (proj1 (map_known _) Hd) as [k ->]. cbn [collect].
    apply IH; assumption.
Qed.

(** C6. In the visitor and in the collecting form of a directory
    scan, no entry named dot or double dot is produced, and every
    entry produced carries the kind its raw type code is mapped to;
    the mapping gives each of the eight codes of the closed kind set
    its own kind, the one the table of the kinds names for it, so
    that every kind of the set is the kind of exactly one code; it
    succeeds on no other code; a scan that comes to an entry, not a
    dot entry, whose type code is outside the set raises the bad-type
    error; and when the visitor returns true the scan returns true
    with no further call of [readdir_r]. *)
Theorem scan_directory_correct :
  (forall St (visitor : St -> directory_entry -> St * bool) stream st,
      exists seen,
        snd (snd (fst (scan_directory (recording visitor) (Some stream) (st, []))))
          = seen
        /\ Forall (produced_from stream) seen
        /\ Forall (fun e => exists de,
                     ReadEntry de ∈ stream /\ inode e = d_ino de
                     /\ name e = d_name de /\ (d_type de, type e) ∈ kind_table)
             seen)
  /\ (forall stream result,
        scan_directory_all (Some stream) = Returned result ->
        Forall (produced_from stream) result
        /\ Forall (fun e => exists de,
                     ReadEntry de ∈ stream /\ inode e = d_ino de
                     /\ name e = d_name de /\ (d_type de, type e) ∈ kind_table)
             result)
  /\ (forall t k, map_dirent_type_to_kind t = Returned k <-> (t, k) ∈ kind_table)
  /\ (forall k, exists t,
        map_dirent_type_to_kind t = Returned k
        /\ forall t', map_dirent_type_to_kind t' = Returned k -> t' = t)
  /\ (forall t,
        (known_type t -> exists k, map_dirent_type_to_kind t = Returned k)
        /\ (~ known_type t -> map_dirent_type_to_kind t = Raised bad_type_error))
  /\ (forall St (visitor : St -> directory_entry -> St * bool) de rest st n,
        is_dot de = false -> ~ known_type (d_type de) ->
        scan_loop visitor (ReadEntry de :: rest) st n
        = (Raised bad_type_error, st, S n))
  /\ (forall pre de rest,
        Forall (fun d => is_dot d = true \/ known_type (d_type d)) pre ->
        is_dot de = false -> ~ known_type (d_type de) ->
        scan_directory_all (Some (map ReadEntry pre ++ ReadEntry de :: rest))
        = Raised bad_type_error)
  /\ (forall St (visitor : St -> directory_entry -> St * bool) de rest st st' n k,
        is_dot de = false ->
        map_dirent_type_to_kind (d_type de) = Returned k ->
        visitor st (DirectoryEntry (d_ino de) (d_name de) k) = (st', true) ->
        scan_loop visitor (ReadEntry de :: rest) st n = (Returned true, st', S n)).
Proof.
  assert (Htable : forall stream l,
             Forall (produced_from stream) l ->
             Forall (fun e => exists de,
                       ReadEntry de ∈ stream /\ inode e = d_ino de
                       /\ name e = d_name de /\ (d_type de, type e) ∈ kind_table) l).
  { intros stream l Hall. eapply Forall_impl; [exact Hall|]. cbv beta.
    intros e (_ & _ & de & Hin & Hi & Hn & Hk). exists de.
    repeat split; try assumption. apply map_table, Hk. }
  split.
  { intros St visitor stream st. unfold scan_directory.
    destruct (scan_loop_recording visitor stream st [] 0) as (new & Heq & Hall).
    exists new. split; [exact Heq|]. split; [exact Hall|apply Htable, Hall]. }
  split.
  { intros stream result Hres.
    pose proof (scan_directory_all_produced stream result Hres) as Hall.
    split; [exact Hall|apply Htable, Hall]. }
  split; [exact map_table|].
  split.
  { intros k.
    destruct k;
      [exists DT_BLK|exists DT_CHR|exists DT_DIR|exists DT_FIFO|exists DT_LNK
      |exists DT_REG|exists DT_SOCK|exists DT_UNKNOWN];
      (split; [reflexivity|]); intros t' Ht';
      apply map_table, list_elem_of_In in Ht'; simpl in Ht';
      repeat (destruct Ht' as [He|Ht'];
              [first [discriminate He | injection He as <-; reflexivity]|]);
      contradiction. }
  split; [exact map_known|].
  split.
  { intros St visitor de rest st n Hdot Hbad. cbn [scan_loop].
    rewrite Hdot, (proj2 (map_known _) Hbad). reflexivity. }
  split.
  { intros pre de rest Hpre Hdot Hbad. unfold scan_directory_all, scan_directory.
    destruct (collect_bad_type de rest pre [] 0 Hpre Hdot Hbad) as (res & m & ->).
    reflexivity. }
  intros St visitor de rest st st' n k Hdot Hk Hv. cbn [scan_loop].
  rewrite Hdot, Hk, Hv. reflexivity.
Qed.

Lemma scan_directory_witness :
  Forall (produced_from (take 4 sample_stream))
    [DirectoryEntry 7 (lit "a") regular_file; DirectoryEntry 8 (lit "d") directory]
  /\ scan_directory_all (Some sample_stream) = Raised bad_type_error
  /\ scan_loop (fun (st : nat) e => (S st, bool_decide (type e = directory)))
       (drop 3 sample_stream) 0 3
     = (Returned true, 1, 4).
Proof.
  split; [|split].
  - apply (proj1 (proj2 scan_directory_correct)). reflexivity.
  - apply (proj1 (proj2 (proj2 (proj2 (proj2 (proj2 (proj2 scan_directory_correct))))))
             [Dirent 2 DT_DIR (lit "."); Dirent 1 DT_DIR (lit "..");
              Dirent 7 DT_REG (lit "a"); Dirent 8 DT_DIR (lit "d")]
             (Dirent 9 14 (lit "w")) []).
    + repeat (apply Forall_cons; split;
                [first [left; reflexivity
                       | right; apply list_elem_of_In; simpl; tauto]|]).
      apply Forall_nil. exact I.
    + reflexivity.
    + unfold known_type. vm_compute. intros H.
      repeat (apply elem_of_cons in H as [H|H]; [discriminate|]).
      apply elem_of_nil in H. exact H.
  - apply (proj2 (proj2 (proj2 (proj2 (proj2 (proj2 (proj2 scan_directory_correct))))))
             nat _ (Dirent 8 DT_DIR (lit "d")) _ 0 1 3 directory);
      reflexivity.
Defined.

End Scan.

(** ** The descriptor owner ([class handle]) *)

Module Handle.

(** The [handle] objects of a program and the log of what happened
    to descriptors. An object is its address in [objects]: [Some fd]
    while it lives, with [fd] its member [_fd], and [None] once its
    destructor has run. *)
Record world := World {
  objects : list (option Z);
  placed : list Z;        (* the arguments of [handle(int fd)] *)
  closed : list Z;        (* the arguments of [::close], in call order *)
  released : list Z;      (* the values [release()] has returned *)
  terminated : bool       (* [UP_TERMINATE] was reached *)
}.

Definition init : world := World [] [] [] [] false.

(** The member [_fd] of a live object. *)
Definition get (w : world) (h : nat) : option Z :=
  match objects w !! h with
  | Some (Some fd) => Some fd
  | _ => None
  end.

Definition set_fd (h : nat) (fd : Z) (w : world) : world :=
  World (<[h := Some fd]> (objects w)) (placed w) (closed w) (released w)
        (terminated w).

Section Close.
(** The return value of [::close] on a descriptor. *)
Variable sys_close : Z -> Z.

(** [handle::close()]. *)
Definition close (h : nat) (w : world) : option world :=
  fd ← get w h;
  if decide (fd ≠ (-1)%Z) then
    let w := set_fd h (-1) w in
    let rv := sys_close fd in
    Some (World (objects w) (placed w) (closed w ++ [fd]) (released w)
                (if decide (rv ≠ 0%Z) then true else terminated w))
  else Some w.

(** [handle(int fd)]: a new object. *)
Definition construct (fd : Z) (w : world) : world :=
  World (objects w ++ [Some fd]) (placed w ++ [fd]) (closed w) (released w)
        (terminated w).

(** [handle()]. *)
Definition construct_empty (w : world) : world :=
  World (objects w ++ [Some (-1)%Z]) (placed w) (closed w) (released w)
        (terminated w).

(** [handle(self&& rhs)]: a new object that takes [rhs._fd]. *)
Definition move_construct (rhs : nat) (w : world) : option world :=
  fd ← get w rhs;
  let w := World (objects w ++ [Some fd]) (placed w) (closed w) (released w)
                 (terminated w) in
  Some (set_fd rhs (-1) w).

(** [swap(self& rhs)]. *)
Definition swap (lhs rhs : nat) (w : world) : option world :=
  a ← get w lhs;
  b ← get w rhs;
  Some (set_fd rhs a (set_fd lhs b w)).

(** [operator=(self&& rhs)]. *)
Definition move_assign (lhs rhs : nat) (w : world) : option world :=
  w ← swap lhs rhs w;
  close rhs w.

(** [release()]; the returned value is logged. *)
Definition release (h : nat) (w : world) : option world :=
  fd ← get w h;
  let w := set_fd h (-1) w in
  Some (World (objects w) (placed w) (closed w) (released w ++ [fd])
              (terminated w)).

(** [~handle()]. *)
Definition destroy (h : nat) (w : world) : option world :=
  w ← close h w;
  Some (World (<[h := None]> (objects w)) (placed w) (closed w) (released w)
              (terminated w)).

Inductive op : Type :=
  | Construct (fd : Z)
  | ConstructEmpty
  | MoveConstruct (rhs : nat)
  | Destroy (h : nat)
  | MoveAssign (lhs rhs : nat)
  | Swap (lhs rhs : nat)
  | Release (h : nat).

(** One operation of a program; [None] when the process has
    terminated or the operation names an object that does not
    live. *)
Definition exec (o : op) (w : world) : option world :=
  if terminated w then None
  else
    match o with
    | Construct fd => Some (construct fd w)
    | ConstructEmpty => Some (construct_empty w)
    | MoveConstruct rhs => move_construct rhs w
    | Destroy h => destroy h w
    | MoveAssign lhs rhs => move_assign lhs rhs w
    | Swap lhs rhs => swap lhs rhs w
    | Release h => release h w
    end.

(** The number of live objects that hold [fd]. *)
Definition owned (o : option Z) (fd : Z) : nat :=
  match o with
  | Some x => if decide (x = fd) then 1 else 0
  | None => 0
  end.

Fixpoint owners (fd : Z) (objs : list (option Z)) : nat :=
  match objs with
  | [] => 0
  | o :: objs' => owned o fd + owners fd objs'
  end.

Definition count (fd : Z) (l : list Z) : nat := count_occ Z.eq_dec l fd.

(** The runs of a program. *)
Inductive run : list op -> world -> world -> Prop :=
  | run_nil w : run [] w w
  | run_cons o ops w w1 w2 :
      exec o w = Some w1 -> run ops w1 w2 -> run (o :: ops) w w2.

(** Every placement of a descriptor is accounted for once: by a
    call of [::close], by a [release()], or by a live object that
    holds it. *)
Definition accounted (w : world) : Prop :=
  forall fd, fd <> (-1)%Z ->
    count fd (placed w)
    = count fd (closed w) + count fd (released w) + owners fd (objects w).
End Close.

(** A program: descriptor 3 is moved twice and released, descriptor
    4 is assigned over. *)
Definition sample_ops : list op :=
  [Construct 3; MoveConstruct 0; Construct 4; MoveAssign 2 1; Release 2;
   Destroy 0; Destroy 1; Destroy 2].

Definition sample_end : world :=
  World [None; None; None] [3%Z; 4%Z] [4%Z] [3%Z] false.

(** *** Properties *)

Lemma owners_app fd l1 l2 : owners fd (l1 ++ l2) = owners fd l1 + owners fd l2.
Proof. induction l1 as [|o l1 IH]; simpl; [reflexivity|]. rewrite IH. lia. Qed.

Lemma owners_insert fd new : forall objs h old,
  objs !! h = Some old ->
  owners fd (<[h := new]> objs) + owned old fd = owners fd objs + owned new fd.
Proof.
  induction objs as [|o objs IH]; intros h old Hl; [discriminate|].
  destruct h as [|h]; simpl in *.
  - injection Hl as ->. lia.
  - specialize (IH h old Hl). lia.
Qed.

Lemma count_snoc fd l x :
  count fd (l ++ [x]) = count fd l + (if decide (x = fd) then 1 else 0).
Proof.
  unfold count. rewrite count_occ_app. simpl.
  destruct (Z.eq_dec x fd), (decide (x = fd)); try contradiction; reflexivity.
Qed.

Lemma get_lookup w h fd : get w h = Some fd -> objects w !! h = Some (Some fd).
Proof.
  unfold get. destruct (objects w !! h) as [[x|]|]; try discriminate.
  intros [= ->]. reflexivity.
Qed.

Lemma get_set_fd w h fd x : get w h = Some x -> get (set_fd h fd w) h = Some fd.
Proof.
  intros H%get_lookup. unfold get, set_fd. simpl.
  rewrite list_lookup_insert_eq; [reflexivity|]. eapply lookup_lt_Some, H.
Qed.

Section Accounting.
Variable sys_close : Z -> Z.

(** What [close] does to the log and to the object. *)
Lemma close_effect h w w' :
  close sys_close h w = Some w' ->
  placed w' = placed w /\ released w' = released w
  /\ get w' h = Some (-1)%Z
  /\ length (objects w') = length (objects w)
  /\ forall fd, fd <> (-1)%Z ->
       count fd (closed w') + owners fd (objects w')
       = count fd (closed w) + owners fd (objects w).
Proof.
  unfold close. destruct (get w h) as [x|] eqn:Hg; [|discriminate]. simpl.
  destruct (decide (x ≠ (-1)%Z)) as [Hx|Hx]; intros [= <-]; simpl.
  - split; [reflexivity|]. split; [reflexivity|]. split.
    { unfold get. simpl. apply get_lookup in Hg.
      rewrite list_lookup_insert_eq; [reflexivity|]. eapply lookup_lt_Some, Hg. }
    split; [apply length_insert|].
    intros fd Hfd. rewrite count_snoc.
    pose proof (owners_insert fd (Some (-1)%Z) _ _ _ (get_lookup _ _ _ Hg)) as Ho.
    simpl in Ho. rewrite ?(decide_False (P := (-1)%Z = fd)) in Ho by congruence.
    destruct (decide (x = fd)); lia.
  - assert (x = (-1)%Z) as -> by (destruct (decide (x = (-1)%Z)); tauto).
    split; [reflexivity|]. split; [reflexivity|]. split; [exact Hg|].
    split; [reflexivity|]. intros fd Hfd. reflexivity.
Qed.

Lemma swap_effect lhs rhs w w' :
  swap lhs rhs w = Some w' ->
  placed w' = placed w /\ closed w' = closed w /\ released w' = released w
  /\ terminated w' = terminated w
  /\ get w' rhs = get w lhs /\ get w' lhs = get w rhs
  /\ forall fd, owners fd (objects w') = owners fd (objects w).
Proof.
  unfold swap. destruct (get w lhs) as [a|] eqn:Ha; [|discriminate]. simpl.
  destruct (get w rhs) as [b|] eqn:Hb; [|discriminate]. simpl.
  intros [= <-]. simpl.
  pose proof (get_lookup _ _ _ Ha) as Hla. pose proof (get_lookup _ _ _ Hb) as Hlb.
  assert (Hmid : <[lhs := Some b]> (objects w) !! rhs = Some (Some b)).
  { destruct (decide (lhs = rhs)) as [->|Hne].
    - rewrite list_lookup_insert_eq; [reflexivity|]. eapply lookup_lt_Some, Hla.
    - rewrite list_lookup_insert_ne by exact Hne. exact Hlb. }
  repeat split.
  - unfold get. simpl. rewrite list_lookup_insert_eq; [reflexivity|].
    rewrite length_insert. eapply lookup_lt_Some, Hlb.
  - unfold get. simpl. destruct (decide (lhs = rhs)) as [->|Hne].
    + rewrite list_lookup_insert_eq; [congruence|].
      rewrite length_insert. eapply lookup_lt_Some, Hlb.
    + rewrite list_lookup_insert_ne by congruence.
      rewrite list_lookup_insert_eq; [reflexivity|]. eapply lookup_lt_Some, Hla.
  - intros fd.
    pose proof (owners_insert fd (Some a) _ _ _ Hmid) as H1.
    pose proof (owners_insert fd (Some b) _ _ _ Hla) as H2. lia.
Qed.

(** Every operation keeps the account. *)
Lemma exec_accounted o w w' :
  accounted w -> exec sys_close o w = Some w' -> accounted w'.
Proof.
  intros Hacc. unfold exec. destruct (terminated w); [discriminate|].
  destruct o as [fd0| |rhs|h|lhs rhs|lhs rhs|h]; simpl.
  - intros [= <-] fd Hfd. pose proof (Hacc fd Hfd) as Heq. simpl.
    rewrite count_snoc, owners_app. simpl.
    destruct (decide (fd0 = fd)); lia.
  - intros [= <-] fd Hfd. pose proof (Hacc fd Hfd) as Heq. simpl.
    rewrite owners_app. simpl. rewrite decide_False by congruence. lia.
  - unfold move_construct. destruct (get w rhs) as [x|] eqn:Hg; [|discriminate].
    simpl. intros [= <-] fd Hfd. pose proof (Hacc fd Hfd) as Heq. simpl.
    apply get_lookup in Hg.
    pose proof (owners_insert fd (Some (-1)%Z) (objects w ++ [Some x]) rhs (Some x))
      as Ho.
    rewrite owners_app in Ho. simpl in Ho.
    rewrite (decide_False (P := (-1)%Z = fd)) in Ho by congruence.
    rewrite lookup_app_l in Ho by (eapply lookup_lt_Some, Hg).
    specialize (Ho Hg). destruct (decide (x = fd)); lia.
  - unfold destroy. destruct (close sys_close h w) as [w1|] eqn:Hc; [|discriminate].
    simpl. intros [= <-] fd Hfd. pose proof (Hacc fd Hfd) as Heq. simpl.
    destruct (close_effect _ _ _ Hc) as (Hp & Hr & Hg & _ & Hco).
    specialize (Hco fd Hfd). apply get_lookup in Hg.
    pose proof (owners_insert fd None _ _ _ Hg) as Ho. simpl in Ho.
    rewrite ?(decide_False (P := (-1)%Z = fd)) in Ho by congruence.
    rewrite Hp, Hr. lia.
  - unfold move_assign. destruct (swap lhs rhs w) as [w1|] eqn:Hs; [|discriminate].
    simpl. intros Hc fd Hfd. pose proof (Hacc fd Hfd) as Heq.
    destruct (swap_effect _ _ _ _ Hs) as (Hp & Hcl & Hr & _ & _ & _ & Ho).
    destruct (close_effect _ _ _ Hc) as (Hp' & Hr' & _ & _ & Hco).
    specialize (Hco fd Hfd). specialize (Ho fd).
    rewrite Hp', Hr', Hp, Hr. rewrite Hcl in Hco. lia.
  - intros Hs fd Hfd. pose proof (Hacc fd Hfd) as Heq.
    destruct (swap_effect _ _ _ _ Hs) as (Hp & Hcl & Hr & _ & _ & _ & Ho).
    rewrite Hp, Hcl, Hr, Ho. lia.
  - unfold release. destruct (get w h) as [x|] eqn:Hg; [|discriminate].
    simpl. intros [= <-] fd Hfd. pose proof (Hacc fd Hfd) as Heq. simpl.
    rewrite count_snoc.
    pose proof (owners_insert fd (Some (-1)%Z) _ _ _ (get_lookup _ _ _ Hg)) as Ho.
    simpl in Ho. rewrite ?(decide_False (P := (-1)%Z = fd)) in Ho by congruence.
    destruct (decide (x = fd)); lia.
Qed.

Lemma run_accounted ops w w' :
  run sys_close ops w w' -> accounted w -> accounted w'.
Proof.
  induction 1 as [w|o ops w w1 w2 Hex _ IH]; intros Hacc; [exact Hacc|].
  apply IH. eapply exec_accounted; eassumption.
Qed.

Lemma init_accounted : accounted init.
Proof. intros fd _. reflexivity. Qed.

Lemma release_effect h w fd :
  get w h = Some fd ->
  exists w', release h w = Some w' /\ get w' h = Some (-1)%Z
             /\ released w' = released w ++ [fd] /\ closed w' = closed w.
Proof.
  intros Hg. unfold release. rewrite Hg. simpl. eexists. split; [reflexivity|].
  split; [|split; reflexivity].
  apply (get_set_fd w h (-1)%Z fd Hg).
Qed.

Lemma destroy_effect h w fd :
  get w h = Some fd ->
  exists w', destroy sys_close h w = Some w'
             /\ closed w' = closed w ++ (if decide (fd = (-1)%Z) then [] else [fd])
             /\ objects w' !! h = Some None.
Proof.
  intros Hg. unfold destroy, close. rewrite Hg. simpl.
  pose proof (lookup_lt_Some _ _ _ (get_lookup _ _ _ Hg)) as Hlt.
  destruct (decide (fd ≠ (-1)%Z)) as [Hx|Hx]; simpl; eexists;
    (split; [reflexivity|]); simpl.
  - rewrite (decide_False (P := fd = (-1)%Z)) by exact Hx. split; [reflexivity|].
    rewrite list_lookup_insert_eq; [reflexivity|]. rewrite length_insert. exact Hlt.
  - destruct (decide (fd = (-1)%Z)); [|tauto]. rewrite app_nil_r.
    split; [reflexivity|]. rewrite list_lookup_insert_eq; [reflexivity|exact Hlt].
Qed.

Lemma move_assign_effect lhs rhs w a b :
  lhs <> rhs -> get w lhs = Some a -> get w rhs = Some b ->
  exists w', move_assign sys_close lhs rhs w = Some w'
             /\ get w' lhs = Some b /\ get w' rhs = Some (-1)%Z
             /\ closed w' = closed w ++ (if decide (a = (-1)%Z) then [] else [a]).
Proof.
  intros Hne Ha Hb. unfold move_assign.
  destruct (swap lhs rhs w) as [w1|] eqn:Hs;
    [|unfold swap in Hs; rewrite Ha, Hb in Hs; discriminate].
  destruct (swap_effect _ _ _ _ Hs) as (_ & Hcl & _ & _ & Hr & Hl & _).
  rewrite Ha in Hr. rewrite Hb in Hl. simpl. unfold close. rewrite Hr. simpl.
  destruct (decide (a ≠ (-1)%Z)) as [Hx|Hx]; eexists; (split; [reflexivity|]).
  - simpl. rewrite (decide_False (P := a = (-1)%Z)) by exact Hx. rewrite Hcl.
    split; [|split; [|reflexivity]].
    + unfold get in *. simpl. rewrite list_lookup_insert_ne by congruence. exact Hl.
    + unfold get in *. simpl. rewrite list_lookup_insert_eq; [reflexivity|].
      destruct (objects w1 !! rhs) eqn:E; [|discriminate].
      eapply lookup_lt_Some, E.
  - assert (a = (-1)%Z) as -> by (destruct (decide (a = (-1)%Z)); tauto).
    simpl. rewrite app_nil_r. auto.
Qed.
End Accounting.

(** C9. A handle holds one descriptor value and there is no copy
    among its operations. Along every run of constructions, moves,
    swaps, move assignments, releases and destructions, every
    placement of a descriptor is matched by exactly one of: a call
    of [::close], a [release()], or a live handle that still holds
    it; so a descriptor placed once is, when no handle holds it any
    more, either released and never closed or closed exactly once.
    [release()] leaves the handle empty and closes nothing; the
    destructor closes what the handle still holds and nothing when
    it is empty; a move assignment closes what the target held and
    empties the source. *)
Theorem handle_closes_once (sys_close : Z -> Z) :
  (forall ops w,
      run sys_close ops init w ->
      forall fd, fd <> (-1)%Z ->
        count fd (placed w)
        = count fd (closed w) + count fd (released w) + owners fd (objects w)
        /\ (count fd (placed w) = 1 -> owners fd (objects w) = 0 ->
            (count fd (released w) = 1 /\ count fd (closed w) = 0)
            \/ (count fd (released w) = 0 /\ count fd (closed w) = 1)))
  /\ (forall h w fd,
        get w h = Some fd ->
        exists w', release h w = Some w' /\ get w' h = Some (-1)%Z
                   /\ released w' = released w ++ [fd] /\ closed w' = closed w)
  /\ (forall h w fd,
        get w h = Some fd ->
        exists w', destroy sys_close h w = Some w'
                   /\ closed w' = closed w ++ (if decide (fd = (-1)%Z) then [] else [fd])
                   /\ objects w' !! h = Some None)
  /\ (forall lhs rhs w a b,
        lhs <> rhs -> get w lhs = Some a -> get w rhs = Some b ->
        exists w', move_assign sys_close lhs rhs w = Some w'
                   /\ get w' lhs = Some b /\ get w' rhs = Some (-1)%Z
                   /\ closed w' = closed w ++ (if decide (a = (-1)%Z) then [] else [a])).
Proof.
  split; [|split; [exact release_effect|
                   split; [exact (destroy_effect sys_close)
                          |exact (move_assign_effect sys_close)]]].
  intros ops w Hrun fd Hfd.
  pose proof (run_accounted sys_close ops init w Hrun init_accounted fd Hfd) as Heq.
  split; [exact Heq|]. intros Hp Ho.
  destruct (count fd (released w)) as [|[|r]]; lia.
Qed.

Lemma sample_run : run (fun _ => 0%Z) sample_ops init sample_end.
Proof.
  unfold sample_ops.
  repeat (eapply run_cons; [reflexivity|]).
  apply run_nil.
Defined.

Lemma handle_closes_once_witness :
  (count 4 (released sample_end) = 1 /\ count 4 (closed sample_end) = 0)
  \/ (count 4 (released sample_end) = 0 /\ count 4 (closed sample_end) = 1).
Proof.
  apply (proj1 (handle_closes_once (fun _ => 0%Z)) sample_ops sample_end sample_run 4%Z);
    [discriminate|reflexivity|reflexivity].
Defined.

End Handle.

(** ** System constants and [check] *)

(** The open flags of [<fcntl.h>] and the mode bits of [<sys/stat.h>]. *)
Definition O_RDONLY : Z := 0x0.
Definition O_WRONLY : Z := 0x1.
Definition O_RDWR : Z := 0x2.
Definition O_ACCMODE : Z := 0x3.
Definition O_CREAT : Z := 0x40.
Definition O_EXCL : Z := 0x80.
Definition O_NOCTTY : Z := 0x100.
Definition O_TRUNC : Z := 0x200.
Definition O_APPEND : Z := 0x400.
Definition O_NONBLOCK : Z := 0x800.
Definition O_DIRECTORY : Z := 0x10000.
Definition O_NOFOLLOW : Z := 0x20000.
Definition O_NOATIME : Z := 0x40000.
Definition O_CLOEXEC : Z := 0x80000.
Definition O_PATH : Z := 0x200000.
Definition O_TMPFILE : Z := Z.lor 0x400000 O_DIRECTORY.
Definition AT_FDCWD : Z := (-100)%Z.

Definition S_IRUSR : Z := 0x100.
Definition S_IWUSR : Z := 0x80.
Definition S_IXUSR : Z := 0x40.
Definition S_IRGRP : Z := 0x20.
Definition S_IWGRP : Z := 0x10.
Definition S_IXGRP : Z := 0x8.
Definition S_IROTH : Z := 0x4.
Definition S_IWOTH : Z := 0x2.
Definition S_IXOTH : Z := 0x1.

(** The error numbers of [<errno.h>]. *)
Definition EPERM : Z := 1.
Definition EINTR : Z := 4.
Definition EWOULDBLOCK : Z := 11.
Definition ERANGE : Z := 34.

(** [check(rv, tag, ...)]. *)
Definition check (rv : Z) (tag : string) : outcome Z :=
  if (rv >=? 0)%Z then Returned rv else Raised (runtime tag).

(** ** The open flags of a file ([file::file]) *)

Module File.

(** [up_fs::fs::file::option]. *)
Inductive file_option : Type :=
  | read | write | append | create | exclusive | tmpfile | truncate
  | executable | group | others.

#[global] Instance file_option_eq_dec : EqDecision file_option.
Proof. solve_decision. Defined.

(** Modelled from the spec: the option set [file::options] of
    [up_fs.hpp], a header that is not among the sources; a set of
    options, of which [all] tells whether it contains every one of
    the options listed. *)
Definition options : Type := list file_option.

Definition all (opts : options) (required : list file_option) : bool :=
  forallb (fun o => bool_decide (o ∈ opts)) required.

(** The [flags] the constructor computes. *)
Definition file_flags (opts : options) : Z :=
  let flags := 0%Z in
  let flags :=
    if all opts [read; write] then Z.lor flags O_RDWR
    else if all opts [read] then Z.lor flags O_RDONLY
    else if all opts [write] then Z.lor flags O_WRONLY
    else flags in
  let flags := if all opts [append] then Z.lor flags O_APPEND else flags in
  let flags := if all opts [create] then Z.lor flags O_CREAT else flags in
  let flags := if all opts [exclusive] then Z.lor flags O_EXCL else flags in
  let flags := if all opts [tmpfile] then Z.lor flags O_TMPFILE else flags in
  let flags := if all opts [truncate] then Z.lor flags O_TRUNC else flags in
  flags.

(** The [mode] the constructor computes. *)
Definition file_mode (opts : options) : Z :=
  let mode := Z.lor S_IRUSR S_IWUSR in
  let mode := if all opts [executable] then Z.lor mode S_IXUSR else mode in
  let mode := if all opts [group] then Z.lor mode (Z.lor S_IRGRP S_IWGRP) else mode in
  let mode := if all opts [group; executable] then Z.lor mode S_IXGRP else mode in
  let mode := if all opts [others] then Z.lor mode (Z.lor S_IROTH S_IWOTH) else mode in
  let mode := if all opts [others; executable] then Z.lor mode S_IXOTH else mode in
  mode.

(** Membership in the option set. *)
Definition has (opts : options) (o : file_option) : bool :=
  bool_decide (o ∈ opts).

Definition flag_if (b : bool) (flag : Z) : Z := if b then flag else 0%Z.

(** *** Properties *)

Lemma all_1 opts a : all opts [a] = has opts a.
Proof. unfold all, has. simpl. apply andb_true_r. Qed.

Lemma all_2 opts a b : all opts [a; b] = has opts a && has opts b.
Proof. unfold all, has. simpl. rewrite andb_true_r. reflexivity. Qed.

(** The flags as a sum over the options present. *)
Lemma file_flags_sum opts :
  file_flags opts =
    ((if has opts read && has opts write then O_RDWR
      else if has opts read then O_RDONLY
      else if has opts write then O_WRONLY else 0)
     + flag_if (has opts append) O_APPEND
     + flag_if (has opts create) O_CREAT
     + flag_if (has opts exclusive) O_EXCL
     + flag_if (has opts tmpfile) O_TMPFILE
     + flag_if (has opts truncate) O_TRUNC)%Z.
Proof.
  unfold file_flags. rewrite all_2, !all_1.
  destruct (has opts read), (has opts write), (has opts append),
    (has opts create), (has opts exclusive), (has opts tmpfile),
    (has opts truncate); reflexivity.
Qed.

Lemma file_flags_bits opts :
  Z.land (file_flags opts) O_ACCMODE
  = (if has opts read && has opts write then O_RDWR
     else if has opts read then O_RDONLY
     else if has opts write then O_WRONLY else 0%Z)
  /\ Z.land (file_flags opts) O_APPEND = flag_if (has opts append) O_APPEND
  /\ Z.land (file_flags opts) O_CREAT = flag_if (has opts create) O_CREAT
  /\ Z.land (file_flags opts) O_EXCL = flag_if (has opts exclusive) O_EXCL
  /\ Z.land (file_flags opts) O_TMPFILE = flag_if (has opts tmpfile) O_TMPFILE
  /\ Z.land (file_flags opts) O_TRUNC = flag_if (has opts truncate) O_TRUNC.
Proof.
  unfold file_flags. rewrite all_2, !all_1.
  destruct (has opts read), (has opts write), (has opts append),
    (has opts create), (has opts exclusive), (has opts tmpfile),
    (has opts truncate); repeat split; reflexivity.
Qed.

Lemma file_mode_bits opts :
  file_mode opts =
    (S_IRUSR + S_IWUSR
     + flag_if (has opts executable) S_IXUSR
     + flag_if (has opts group) (S_IRGRP + S_IWGRP)
     + flag_if (has opts group && has opts executable) S_IXGRP
     + flag_if (has opts others) (S_IROTH + S_IWOTH)
     + flag_if (has opts others && has opts executable) S_IXOTH)%Z
  /\ Z.land (file_mode opts) (Z.lor S_IRUSR S_IWUSR) = Z.lor S_IRUSR S_IWUSR
  /\ Z.land (file_mode opts) S_IXUSR = flag_if (has opts executable) S_IXUSR
  /\ Z.land (file_mode opts) (Z.lor S_IRGRP S_IWGRP)
     = flag_if (has opts group) (Z.lor S_IRGRP S_IWGRP)
  /\ Z.land (file_mode opts) S_IXGRP
     = flag_if (has opts group && has opts executable) S_IXGRP
  /\ Z.land (file_mode opts) (Z.lor S_IROTH S_IWOTH)
     = flag_if (has opts others) (Z.lor S_IROTH S_IWOTH)
  /\ Z.land (file_mode opts) S_IXOTH
     = flag_if (has opts others && has opts executable) S_IXOTH.
Proof.
  unfold file_mode. rewrite !all_2, !all_1.
  destruct (has opts executable), (has opts group), (has opts others);
    repeat split; reflexivity.
Qed.

(** C5. For every option set the constructor derives: the access
    mode read-write for read with write, read-only for read alone,
    write-only for write alone; exactly the flag of each of append,
    create, exclusive, tmpfile and truncate that is in the set; and
    a creation mode with owner read and write always, owner execute
    for executable, group read and write for group and group execute
    for group with executable, others read and write for others and
    others execute for others with executable. *)
Theorem file_flags_correct (opts : options) :
  (file_flags opts =
     ((if has opts read && has opts write then O_RDWR
       else if has opts read then O_RDONLY
       else if has opts write then O_WRONLY else 0)
      + flag_if (has opts append) O_APPEND
      + flag_if (has opts create) O_CREAT
      + flag_if (has opts exclusive) O_EXCL
      + flag_if (has opts tmpfile) O_TMPFILE
      + flag_if (has opts truncate) O_TRUNC)%Z
   /\ Z.land (file_flags opts) O_ACCMODE
      = (if has opts read && has opts write then O_RDWR
         else if has opts read then O_RDONLY
         else if has opts write then O_WRONLY else 0%Z)
   /\ Z.land (file_flags opts) O_APPEND = flag_if (has opts append) O_APPEND
   /\ Z.land (file_flags opts) O_CREAT = flag_if (has opts create) O_CREAT
   /\ Z.land (file_flags opts) O_EXCL = flag_if (has opts exclusive) O_EXCL
   /\ Z.land (file_flags opts) O_TMPFILE = flag_if (has opts tmpfile) O_TMPFILE
   /\ Z.land (file_flags opts) O_TRUNC = flag_if (has opts truncate) O_TRUNC)
  /\ (file_mode opts =
        (S_IRUSR + S_IWUSR
         + flag_if (has opts executable) S_IXUSR
         + flag_if (has opts group) (S_IRGRP + S_IWGRP)
         + flag_if (has opts group && has opts executable) S_IXGRP
         + flag_if (has opts others) (S_IROTH + S_IWOTH)
         + flag_if (has opts others && has opts executable) S_IXOTH)%Z
      /\ Z.land (file_mode opts) (Z.lor S_IRUSR S_IWUSR) = Z.lor S_IRUSR S_IWUSR
      /\ Z.land (file_mode opts) S_IXUSR = flag_if (has opts executable) S_IXUSR
      /\ Z.land (file_mode opts) (Z.lor S_IRGRP S_IWGRP)
         = flag_if (has opts group) (Z.lor S_IRGRP S_IWGRP)
      /\ Z.land (file_mode opts) S_IXGRP
         = flag_if (has opts group && has opts executable) S_IXGRP
      /\ Z.land (file_mode opts) (Z.lor S_IROTH S_IWOTH)
         = flag_if (has opts others) (Z.lor S_IROTH S_IWOTH)
      /\ Z.land (file_mode opts) S_IXOTH
         = flag_if (has opts others && has opts executable) S_IXOTH).
Proof.
  split; [split; [apply file_flags_sum|apply file_flags_bits]|apply file_mode_bits].
Qed.

Lemma has_cons_ne opts a b : a <> b -> has (a :: opts) b = has opts b.
Proof.
  intros Hne. unfold has. apply bool_decide_ext. rewrite elem_of_cons.
  split; [intros [?|?]; [congruence|assumption]|auto].
Qed.

(** C10. An option set with neither read nor write gets the flags of
    the same set with read added, and the access mode bits of its
    flags are those of read-only, which are zero. *)
Theorem file_flags_no_access (opts : options) :
  has opts read = false -> has opts write = false ->
  file_flags opts = file_flags (read :: opts)
  /\ Z.land (file_flags opts) O_ACCMODE = O_RDONLY
  /\ O_RDONLY = 0%Z.
Proof.
  intros Hr Hw. split; [|split; [|reflexivity]].
  - rewrite !file_flags_sum.
    rewrite (has_cons_ne opts read write), (has_cons_ne opts read append),
      (has_cons_ne opts read create), (has_cons_ne opts read exclusive),
      (has_cons_ne opts read tmpfile), (has_cons_ne opts read truncate)
      by discriminate.
    assert (has (read :: opts) read = true) as ->
        by (apply bool_decide_eq_true_2; left).
    rewrite Hr, Hw. reflexivity.
  - rewrite (proj1 (file_flags_bits opts)), Hr, Hw. reflexivity.
Qed.

Lemma file_flags_no_access_witness :
  file_flags [create; truncate] = file_flags [read; create; truncate]
  /\ Z.land (file_flags [create; truncate]) O_ACCMODE = O_RDONLY
  /\ O_RDONLY = 0%Z.
Proof. apply (file_flags_no_access [create; truncate]); reflexivity. Defined.

End File.

(** ** The advisory lock ([file::lock::impl]) *)

Module Lock.

(** The operations of [<sys/file.h>]. *)
Definition LOCK_SH : Z := 1.
Definition LOCK_EX : Z := 2.
Definition LOCK_NB : Z := 4.
Definition LOCK_UN : Z := 8.

Definition already_locked : exception := locked_file "fs-file-already-locked".
Definition lock_error : exception := runtime "fs-file-lock".

(** The first call is interrupted, the second finds the exclusive
    lock held by another file. *)
Definition contended (n : nat) (fd operation : Z) : Z * Z :=
  match n with
  | O => ((-1)%Z, EINTR)
  | _ => ((-1)%Z, EWOULDBLOCK)
  end.

Section Flock.
(** The answer of the [n]-th call of [::flock] of the process, on a
    descriptor and an operation: the return value and [errno]. *)
Variable sys_flock : nat -> Z -> Z -> Z * Z.

(** The [do ... while] loop of [perform], from the call number [n]
    on: the last answer and the number of the next call. [None]
    when the fuel ends while the call is still interrupted. *)
Fixpoint flock_loop (fuel : nat) (n : nat) (fd operation : Z)
  : option (Z * Z * nat) :=
  match fuel with
  | O => None
  | S fuel' =>
      let '(rv, errno) := sys_flock n fd operation in
      if ((rv =? -1) && (errno =? EINTR))%Z
      then flock_loop fuel' (S n) fd operation
      else Some (rv, errno, S n)
  end.

(** [perform(operation)]. *)
Definition perform (fuel : nat) (n : nat) (fd operation : Z)
  : option (outcome Z * nat) :=
  match flock_loop fuel n fd operation with
  | None => None
  | Some (rv, errno, n') =>
      if ((rv =? -1) && (errno =? EWOULDBLOCK))%Z
      then Some (Raised already_locked, n')
      else Some (check rv "fs-file-lock", n')
  end.

(** The operation the constructor of the lock performs. *)
Definition lock_operation (exclusive blocking : bool) : Z :=
  Z.lor (if exclusive then LOCK_EX else LOCK_SH)
        (if blocking then 0%Z else LOCK_NB).

(** [impl(file, exclusive, blocking)] on the descriptor of the
    file. *)
Definition lock_impl (fuel : nat) (n : nat) (fd : Z) (exclusive blocking : bool)
  : option (outcome Z * nat) :=
  perform fuel n fd (lock_operation exclusive blocking).

(** The calls [n .. n + k - 1] are interrupted and the call [n + k]
    answers [(rv, errno)], which is not an interruption. *)
Definition answers (n k : nat) (fd operation rv errno : Z) : Prop :=
  (forall i, i < k -> sys_flock (n + i) fd operation = ((-1)%Z, EINTR))
  /\ sys_flock (n + k) fd operation = (rv, errno)
  /\ ((rv =? -1) && (errno =? EINTR))%Z = false.

(** *** Properties *)

Lemma flock_loop_answers fd operation rv errno : forall k fuel n,
  answers n k fd operation rv errno -> k < fuel ->
  flock_loop fuel n fd operation = Some (rv, errno, S (n + k)).
Proof.
  induction k as [|k IH]; intros fuel n (Hint & Hlast & Hne) Hf;
    (destruct fuel as [|fuel]; [lia|]); cbn [flock_loop].
  - rewrite Nat.add_0_r in Hlast. rewrite Hlast, Hne, Nat.add_0_r. reflexivity.
  - pose proof (Hint 0 ltac:(lia)) as H0. rewrite Nat.add_0_r in H0.
    rewrite H0. change ((-1 =? -1)%Z && (EINTR =? EINTR)%Z) with true. cbv iota.
    rewrite (IH fuel (S n)); [f_equal; f_equal; lia| |lia].
    split; [|split; [|exact Hne]].
    + intros i Hi. replace (S n + i) with (n + S i) by lia. apply Hint. lia.
    + replace (S n + k) with (n + S k) by lia. exact Hlast.
Qed.
End Flock.

(** C7. The constructor of a lock asks for the shared lock when
    [exclusive] is false and for the exclusive one when it is true,
    without blocking exactly when [blocking] is false. Interrupted
    calls of [::flock] are repeated and not reported. When the call
    that is not interrupted reports would-block, the already-locked
    exception is raised, which is another exception than the one of
    the generic error; when it succeeds, the lock is held; every
    other failure raises the generic error. The operation asked for
    is the lock type and the non-blocking flag and nothing else, so
    it never unlocks. Would-block being
    reported to non-blocking requests only, the already-locked
    exception is raised only for a non-blocking acquisition. *)
Theorem lock_impl_correct (sys_flock : nat -> Z -> Z -> Z * Z)
    (fuel n k : nat) (fd rv errno : Z) (exclusive blocking : bool) :
  answers sys_flock n k fd (lock_operation exclusive blocking) rv errno ->
  k < fuel ->
  lock_impl sys_flock fuel n fd exclusive blocking
  = Some (if ((rv =? -1) && (errno =? EWOULDBLOCK))%Z then Raised already_locked
          else if (rv >=? 0)%Z then Returned rv
          else Raised lock_error,
          S (n + k))
  /\ Z.land (lock_operation exclusive blocking) (Z.lor LOCK_SH LOCK_EX)
     = (if exclusive then LOCK_EX else LOCK_SH)
  /\ Z.land (lock_operation exclusive blocking) LOCK_NB
     = (if blocking then 0%Z else LOCK_NB)
  /\ already_locked <> lock_error
  /\ ((forall m d op, sys_flock m d op = ((-1)%Z, EWOULDBLOCK) ->
                      Z.land op LOCK_NB <> 0%Z) ->
      fst <$> lock_impl sys_flock fuel n fd exclusive blocking
      = Some (Raised already_locked) ->
      blocking = false)
  /\ lock_operation exclusive blocking
     = ((if exclusive then LOCK_EX else LOCK_SH)
        + (if blocking then 0 else LOCK_NB))%Z.
Proof.
  intros Hans Hf.
  assert (Hrun : lock_impl sys_flock fuel n fd exclusive blocking
                 = Some (if ((rv =? -1) && (errno =? EWOULDBLOCK))%Z
                         then Raised already_locked
                         else if (rv >=? 0)%Z then Returned rv
                              else Raised lock_error,
                         S (n + k))).
  { unfold lock_impl, perform.
    rewrite (flock_loop_answers sys_flock _ _ _ _ k fuel n Hans Hf).
    destruct ((rv =? -1) && (errno =? EWOULDBLOCK))%Z; [reflexivity|].
    unfold check. destruct (rv >=? 0)%Z; reflexivity. }
  split; [exact Hrun|].
  split; [destruct exclusive, blocking; reflexivity|].
  split; [destruct exclusive, blocking; reflexivity|].
  split; [discriminate|].
  split; [|destruct exclusive, blocking; reflexivity].
  intros Hos. rewrite Hrun. simpl.
  destruct ((rv =? -1) && (errno =? EWOULDBLOCK))%Z eqn:Hwb.
  - intros _. apply andb_true_iff in Hwb as [Hrv He].
    apply Z.eqb_eq in Hrv, He. subst rv errno.
    destruct Hans as (_ & Hlast & _). apply Hos in Hlast.
    destruct blocking; [|reflexivity].
    exfalso. apply Hlast. destruct exclusive; reflexivity.
  - destruct (rv >=? 0)%Z; discriminate.
Qed.

Lemma lock_impl_witness :
  lock_impl contended 5 0 3 true false = Some (Raised already_locked, 2).
Proof.
  apply (lock_impl_correct contended 5 0 1 3 (-1) EWOULDBLOCK true false).
  - split; [|split]; [|reflexivity|reflexivity].
    intros i Hi. assert (i = 0) as -> by lia. reflexivity.
  - lia.
Defined.

End Lock.

(** ** Origins and their location ([context::impl], [origin::impl]) *)

Module Origin.
Import Pathname Mountinfo Scan.

(** [context::impl]. *)
Record context := Context {
  context_name : bytes;
  additional_open_flags : Z;
  avoid_access_time : bool
}.

(** [origin::impl]: the context and the descriptor in [_handle]. *)
Record origin := Origin { origin_context : context; origin_handle : Z }.

(** [handle::get_or]. *)
Definition get_or (fd alternate : Z) : Z :=
  if (fd =? -1)%Z then alternate else fd.

Definition dir_fd (o : origin) : Z := get_or (origin_handle o) AT_FDCWD.

(** [origin::impl::working]: the origin without a descriptor. *)
Definition working (o : origin) : origin := Origin (origin_context o) (-1).

(** The system calls a computation makes, in order. *)
Inductive event : Type :=
  | EvGetcwd (size : nat)
  | EvFstat (fd : Z)
  | EvFstatat (pathname : bytes)
  | EvOpenat (dir_fd : Z) (pathname : bytes) (flags : Z)
  | EvReadMountinfo
  | EvScan (fd : Z).

(** Computations that log their system calls and may raise; [None]
    when a loop runs out of fuel. *)
Definition M (A : Type) : Type := list event -> option (outcome A * list event).

Definition ret {A} (a : A) : M A := fun log => Some (Returned a, log).
Definition raise {A} (e : exception) : M A := fun log => Some (Raised e, log).
Definition out_of_fuel {A} : M A := fun _ => None.
Definition emit (ev : event) : M unit := fun log => Some (Returned tt, log ++ [ev]).
Definition bind {A B} (m : M A) (f : A -> M B) : M B :=
  fun log =>
    match m log with
    | None => None
    | Some (Returned a, log') => f a log'
    | Some (Raised e, log') => Some (Raised e, log')
    end.

Notation "x <-- m ; k" := (bind m (fun x => k))
  (at level 20, m at level 100, k at level 200, only parsing).
Notation "m ;;; k" := (bind m (fun _ => k))
  (at level 100, k at level 200, only parsing, right associativity).

(** A mount root: the inode of the mount point and its path. *)
Abbreviation root := (Z * bytes)%type.

(** [operator<] of [std::string]: by the values of the characters as
    [unsigned char], a proper prefix first. *)
Fixpoint string_less (a b : bytes) : bool :=
  match a, b with
  | _, [] => false
  | [], _ :: _ => true
  | x :: a', y :: b' =>
      if (N_of_ascii x <? N_of_ascii y)%N then true
      else if (N_of_ascii y <? N_of_ascii x)%N then false
      else string_less a' b'
  end.

(** The comparison of the [std::sort] in [location]: [operator<] of
    the tuples [(first, second.size(), second)]. *)
Definition root_less (lhs rhs : root) : bool :=
  if (lhs.1 <? rhs.1)%Z then true
  else if (rhs.1 <? lhs.1)%Z then false
  else if length lhs.2 <? length rhs.2 then true
  else if length rhs.2 <? length lhs.2 then false
  else string_less lhs.2 rhs.2.

(** The order of the roots in the words of the specification: the
    order of two texts, a proper prefix first and otherwise by the
    first character in which they differ, as [unsigned char]; and
    the order of two roots, ascending by the triple of inode, length
    of the path and text of the path. *)
Definition text_less (a b : bytes) : Prop :=
  (exists c rest, b = a ++ c :: rest)
  \/ (exists p x y a' b',
        a = p ++ x :: a' /\ b = p ++ y :: b'
        /\ (N_of_ascii x < N_of_ascii y)%N).

Definition triple_less (a b : root) : Prop :=
  (a.1 < b.1)%Z
  \/ (a.1 = b.1
      /\ (length a.2 < length b.2
          \/ (length a.2 = length b.2 /\ text_less a.2 b.2))).

(** No element after another is less than it. *)
Definition root_le (a b : root) : Prop := root_less b a = false.

#[global] Instance root_le_dec : RelDecision root_le.
Proof. intros a b. unfold root_le. apply _. Defined.

(** [std::sort(roots.begin(), roots.end(), less)]. *)
Definition sort_roots (roots : list root) : list root :=
  merge_sort root_le roots.

(** [std::partition_point] by bisection, as an index. *)
Fixpoint partition_point_loop {A} (pred : A -> bool) (l : list A)
    (fuel first len : nat) : nat :=
  match fuel with
  | O => first
  | S fuel' =>
      if len =? 0 then first
      else
        let half := len / 2 in
        let middle := first + half in
        match l !! middle with
        | Some x =>
            if pred x
            then partition_point_loop pred l fuel' (middle + 1) (len - half - 1)
            else partition_point_loop pred l fuel' first half
        | None => first
        end
  end.

Definition partition_point {A} (pred : A -> bool) (l : list A) : nat :=
  partition_point_loop pred l (length l) 0 (length l).

(** The search for an inode among the sorted roots: the partition
    point [p], when [p != roots.end() && p->first == ino]. *)
Definition lookup_root (roots : list root) (ino : Z) : option root :=
  match roots !! partition_point (fun r : root => (r.1 <? ino)%Z) roots with
  | Some r => if (r.1 =? ino)%Z then Some r else None
  | None => None
  end.

Definition dotdot : bytes := lit "..".

(** The [flags] of [location]. *)
Definition location_flags : Z :=
  Z.lor (Z.lor (Z.lor O_RDONLY O_DIRECTORY) O_NOFOLLOW) O_PATH.

(** The lambda that [location] scans a parent directory with. *)
Definition match_child (previous_ino : Z) (names : list bytes)
    (entry : directory_entry) : list bytes * bool :=
  if negb (bool_decide (type entry = directory)) then (names, false)
  else if negb (inode entry =? previous_ino)%Z then (names, false)
  else (names ++ [name entry], true).

(** The loop that appends the names, the last one pushed first. *)
Fixpoint append_names (result : bytes) (names_from_back : list bytes) : bytes :=
  match names_from_back with
  | [] => result
  | name :: rest => append_names ((result ++ ["/"%char]) ++ name) rest
  end.

Section OS.
(** [::getcwd] with a buffer of a size: [errno], or the directory. *)
Variable sys_getcwd : nat -> Z + bytes.
(** [::fstat]: the device and the inode. *)
Variable sys_fstat : Z -> option (Z * Z).
(** [::fstatat(AT_FDCWD, path, &st, AT_SYMLINK_NOFOLLOW)]: the inode. *)
Variable sys_fstatat : bytes -> option Z.
(** [::openat]: [errno], or the descriptor. *)
Variable sys_openat : Z -> bytes -> Z -> Z + Z.
(** The content of [/proc/self/mountinfo] as [parse_file_content]
    reads it through a [file]. *)
Variable mountinfo_content : outcome bytes.
(** What [fdopendir] and [readdir_r] deliver for a descriptor. *)
Variable sys_fdopendir : Z -> option (list readdir_result).

(** [getcwd()] of the file: buffers of [1 << 8] to [1 << 16]. *)
Fixpoint getcwd_loop (sizes : list nat) : M bytes :=
  match sizes with
  | [] => raise (runtime "fs-getcwd-error")
  | size :: sizes' =>
      emit (EvGetcwd size) ;;;
      match sys_getcwd size with
      | inr cwd => ret cwd
      | inl errno =>
          if negb (errno =? ERANGE)%Z then raise (runtime "fs-getcwd-error")
          else getcwd_loop sizes'
      end
  end.

Definition getcwd : M bytes :=
  getcwd_loop (map (fun i => 2 ^ i) (seq 8 9)).

(** [context::impl::openat]. *)
Definition openat (ctx : context) (dir_fd : Z) (pathname : bytes) (flags : Z)
  : M Z :=
  let flags := Z.lor flags (additional_open_flags ctx) in
  let plain : M Z :=
    emit (EvOpenat dir_fd pathname flags) ;;;
    match sys_openat dir_fd pathname flags with
    | inr fd => ret fd
    | inl _ => raise (runtime "fs-open-error")
    end in
  if avoid_access_time ctx && (Z.land flags O_NOATIME =? 0)%Z then
    emit (EvOpenat dir_fd pathname (Z.lor flags O_NOATIME)) ;;;
    match sys_openat dir_fd pathname (Z.lor flags O_NOATIME) with
    | inr fd => ret fd
    | inl errno =>
        if negb (errno =? EPERM)%Z then raise (runtime "fs-open-error")
        else plain
    end
  else plain.

(** The lambda [inode] of [location]. *)
Definition inode_of (fd : Z) : M (Z * Z) :=
  emit (EvFstat fd) ;;;
  match sys_fstat fd with
  | Some st => ret st
  | None => raise (runtime "fs-stat-error")
  end.

(** [find_mounts]. *)
Definition find_mounts : M (list mount) :=
  emit EvReadMountinfo ;;;
  match mountinfo_content with
  | Raised e => raise e
  | Returned data =>
      match parse_mountinfo data with
      | None => out_of_fuel
      | Some (Returned mounts) => ret mounts
      | Some (Raised e) => raise e
      end
  end.

(** The loop over the mounts that fills [roots]. *)
Fixpoint collect_roots (dev : Z) (mounts : list mount) (roots : list root)
  : M (list root) :=
  match mounts with
  | [] => ret roots
  | m :: mounts' =>
      if (device m =? dev)%Z then
        emit (EvFstatat (path m)) ;;;
        match sys_fstatat (path m) with
        | Some ino => collect_roots dev mounts' (roots ++ [(ino, path m)])
        | None => raise (runtime "fs-stat-error")
        end
      else collect_roots dev mounts' roots
  end.

Definition normalized (pathname : bytes) : M bytes :=
  match pathname_normalize pathname with
  | Some r => ret r
  | None => out_of_fuel
  end.

(** The [while] loop of [location] that climbs to the parents. *)
Fixpoint climb (fuel : nat) (ctx : context) (roots : list root)
    (previous next : Z * Z) (current : Z) (names : list bytes) : M bytes :=
  match fuel with
  | O => out_of_fuel
  | S fuel' =>
      if (previous.1 =? next.1)%Z && negb (previous.2 =? next.2)%Z then
        parent <-- openat ctx current dotdot location_flags;
        emit (EvScan current) ;;;
        let '(found, names, _) :=
          scan_directory (match_child previous.2) (sys_fdopendir current) names in
        match found with
        | Raised e => raise e
        | Returned found =>
            if negb found then raise (runtime "fs-resolve-error")
            else
              match lookup_root roots next.2 with
              | Some q => normalized (append_names q.2 (rev names))
              | None =>
                  st <-- inode_of parent;
                  climb fuel' ctx roots next st parent names
              end
        end
      else raise (runtime "fs-resolve-error")
  end.

(** [origin::impl::location]. *)
Definition location (fuel : nat) (o : origin) : M bytes :=
  let dir_fd := get_or (origin_handle o) AT_FDCWD in
  if (dir_fd =? AT_FDCWD)%Z then getcwd
  else
    previous <-- inode_of dir_fd;
    mounts <-- find_mounts;
    roots <-- collect_roots previous.1 mounts [];
    let roots := sort_roots roots in
    match lookup_root roots previous.2 with
    | Some p => normalized p.2
    | None =>
        current <--
          openat (origin_context o) (get_or (origin_handle o) AT_FDCWD)
                 dotdot location_flags;
        next <-- inode_of current;
        climb fuel (origin_context o) roots previous next current []
    end.
End OS.

(** The candidate roots of a device: for every mount of the device,
    in the order of the mount table, the inode of its mount point
    with its decoded path. *)
Definition candidates (sys_fstatat : bytes -> option Z) (dev : Z)
    (mounts : list mount) : list root :=
  omap (fun m => if (device m =? dev)%Z
                 then (fun ino => (ino, path m)) <$> sys_fstatat (path m)
                 else None) mounts.

(** The calls of [fstatat] that collect them. *)
Definition stat_events (dev : Z) (mounts : list mount) : list event :=
  omap (fun m => if (device m =? dev)%Z then Some (EvFstatat (path m)) else None)
       mounts.

(** A computation only adds to the log. *)
Definition extends {A} (m : M A) : Prop :=
  forall log r log', m log = Some (r, log') -> exists ext, log' = log ++ ext.

(** A process whose mount table has two mounts of the device 8:1, on
    [/mnt] and on [/m], both with the root inode 2, and an origin on
    the descriptor 5 of a directory with that device and inode. *)
Definition sample_mountinfo : bytes :=
  lit "36 35 8:1 / /mnt rw - ext4 /dev/sda1 rw" ++ [LF]
  ++ lit "37 35 8:1 / /m rw - ext4 /dev/sda1 rw" ++ [LF]
  ++ lit "38 35 0:5 / /proc rw - proc proc rw" ++ [LF].

Definition sample_mounts : list mount :=
  [Mount 2049 (lit "/mnt"); Mount 2049 (lit "/m"); Mount 5 (lit "/proc")].

Definition sample_fstat (fd : Z) : option (Z * Z) :=
  if (fd =? 5)%Z then Some (2049%Z, 2%Z) else None.

Definition sample_fstatat (pathname : bytes) : option Z := Some 2%Z.

Definition sample_origin : origin :=
  Origin (Context (lit "root") (Z.lor (Z.lor O_CLOEXEC O_NOCTTY) O_NONBLOCK) false) 5.

(** *** The order of the roots *)

Lemma N_of_ascii_inj x y : N_of_ascii x = N_of_ascii y -> x = y.
Proof.
  intros H. rewrite <- (ascii_N_embedding x), <- (ascii_N_embedding y), H.
  reflexivity.
Qed.

Lemma string_less_irrefl a : string_less a a = false.
Proof.
  induction a as [|x a IH]; simpl; [reflexivity|].
  rewrite N.ltb_irrefl. exact IH.
Qed.

Lemma string_less_asym a : forall b,
  string_less a b = true -> string_less b a = false.
Proof.
  induction a as [|x a IH]; intros [|y b]; simpl; try congruence.
  destruct (N.ltb_spec (N_of_ascii x) (N_of_ascii y)),
    (N.ltb_spec (N_of_ascii y) (N_of_ascii x)); try congruence; try lia.
  apply IH.
Qed.

Lemma string_less_trans a : forall b c,
  string_less a b = true -> string_less b c = true -> string_less a c = true.
Proof.
  induction a as [|x a IH]; intros [|y b] [|z c]; simpl; try congruence.
  destruct (N.ltb_spec (N_of_ascii x) (N_of_ascii y)),
    (N.ltb_spec (N_of_ascii y) (N_of_ascii x)),
    (N.ltb_spec (N_of_ascii y) (N_of_ascii z)),
    (N.ltb_spec (N_of_ascii z) (N_of_ascii y)),
    (N.ltb_spec (N_of_ascii x) (N_of_ascii z)),
    (N.ltb_spec (N_of_ascii z) (N_of_ascii x));
    try congruence; try lia.
  apply IH.
Qed.

Lemma string_less_total a : forall b,
  string_less a b = false -> string_less b a = false -> a = b.
Proof.
  induction a as [|x a IH]; intros [|y b]; simpl; try congruence.
  destruct (N.ltb_spec (N_of_ascii x) (N_of_ascii y)),
    (N.ltb_spec (N_of_ascii y) (N_of_ascii x)); try congruence.
  intros H1 H2. f_equal; [apply N_of_ascii_inj; lia|apply IH; assumption].
Qed.

Ltac order_cases :=
  repeat match goal with
         | |- context [(?a <? ?b)%Z] => destruct (Z.ltb_spec a b)
         | |- context [?a <? ?b] => destruct (Nat.ltb_spec a b)
         | H : context [(?a <? ?b)%Z] |- _ => destruct (Z.ltb_spec a b)
         | H : context [?a <? ?b] |- _ => destruct (Nat.ltb_spec a b)
         end.

Lemma text_less_nil_r a : ~ text_less a [].
Proof.
  intros [(c & rest & H)|(p & x & y & a' & b' & _ & H & _)].
  - destruct a; discriminate.
  - destruct p; discriminate.
Qed.

Lemma text_less_cons x a b : text_less (x :: a) (x :: b) <-> text_less a b.
Proof.
  split.
  - intros [(c & rest & H)|(p & u & v & a' & b' & Ha & Hb & Hlt)].
    + left. exists c, rest. cbn [app] in H. injection H as ->. reflexivity.
    + destruct p as [|z p]; cbn [app] in Ha, Hb.
      * injection Ha as <- <-. injection Hb as <- <-. lia.
      * injection Ha as <- ->. injection Hb as ->.
        right. exists p, u, v, a', b'. auto.
  - intros [(c & rest & ->)|(p & u & v & a' & b' & -> & -> & Hlt)].
    + left. exists c, rest. reflexivity.
    + right. exists (x :: p), u, v, a', b'. auto.
Qed.

Lemma text_less_head x y a b :
  text_less (x :: a) (y :: b) -> (N_of_ascii x <= N_of_ascii y)%N.
Proof.
  intros [(c & rest & H)|(p & u & v & a' & b' & Ha & Hb & Hlt)].
  - cbn [app] in H. injection H as -> _. lia.
  - destruct p as [|z p]; cbn [app] in Ha, Hb.
    + injection Ha as <- _. injection Hb as <- _. lia.
    + injection Ha as <- _. injection Hb as <- _. lia.
Qed.

Lemma string_less_text a : forall b, string_less a b = true <-> text_less a b.
Proof.
  induction a as [|x a IH]; intros [|y b]; cbn [string_less].
  - split; [discriminate|]. intros H. destruct (text_less_nil_r _ H).
  - split; [|reflexivity]. intros _. left. exists y, b. reflexivity.
  - split; [discriminate|]. intros H. destruct (text_less_nil_r _ H).
  - destruct (N.ltb_spec (N_of_ascii x) (N_of_ascii y)) as [Hxy|Hxy].
    + split; [|reflexivity]. intros _. right. exists [], x, y, a, b. auto.
    + destruct (N.ltb_spec (N_of_ascii y) (N_of_ascii x)) as [Hyx|Hyx].
      * split; [discriminate|]. intros H. apply text_less_head in H. lia.
      * assert (x = y) as -> by (apply N_of_ascii_inj; lia).
        rewrite IH. symmetry. apply text_less_cons.
Qed.

Lemma root_less_triple a b : root_less a b = true <-> triple_less a b.
Proof.
  unfold root_less, triple_less.
  destruct (Z.ltb_spec a.1 b.1) as [H1|H1]; [split; [left; exact H1|reflexivity]|].
  destruct (Z.ltb_spec b.1 a.1) as [H2|H2].
  { split; [discriminate|]. intros [H|[H _]]; lia. }
  destruct (Nat.ltb_spec (length a.2) (length b.2)) as [H3|H3].
  { split; [|reflexivity]. intros _. right. split; [lia|]. left. exact H3. }
  destruct (Nat.ltb_spec (length b.2) (length a.2)) as [H4|H4].
  { split; [discriminate|]. intros [H|[_ [H|[H _]]]]; lia. }
  rewrite string_less_text. split.
  - intros H. right. split; [lia|]. right. split; [lia|exact H].
  - intros [H|[_ [H|[_ H]]]]; [lia|lia|exact H].
Qed.

Lemma root_less_irrefl a : root_less a a = false.
Proof. unfold root_less. order_cases; try lia. apply string_less_irrefl. Qed.

Lemma root_less_asym a b : root_less a b = true -> root_less b a = false.
Proof.
  unfold root_less. order_cases; try congruence; try lia. apply string_less_asym.
Qed.

Lemma root_less_trans a b c :
  root_less a b = true -> root_less b c = true -> root_less a c = true.
Proof.
  unfold root_less. intros H1 H2.
  order_cases; try congruence; try lia.
  eapply string_less_trans; eassumption.
Qed.

Lemma root_less_total a b :
  root_less a b = false -> root_less b a = false -> a = b.
Proof.
  unfold root_less. destruct a as [i p], b as [j q]. simpl. intros H1 H2.
  order_cases; try congruence; try lia.
  assert (i = j) as -> by lia. f_equal. apply string_less_total; assumption.
Qed.

#[global] Instance root_le_total : Total root_le.
Proof.
  intros a b. unfold root_le.
  destruct (root_less b a) eqn:H; [right; apply root_less_asym, H|left; reflexivity].
Qed.

#[global] Instance root_le_trans : Transitive root_le.
Proof.
  intros a b c Hab Hbc. unfold root_le in *.
  destruct (root_less c a) eqn:Hca; [|reflexivity].
  destruct (root_less b c) eqn:Hbc'.
  - rewrite (root_less_trans _ _ _ Hbc' Hca) in Hab. discriminate.
  - assert (b = c) as -> by (apply root_less_total; assumption). congruence.
Qed.

Lemma root_le_ino a b : root_le a b -> (a.1 <= b.1)%Z.
Proof.
  unfold root_le, root_less. intros H.
  destruct (Z.ltb_spec b.1 a.1); [discriminate|lia].
Qed.

#[global] Instance root_le_antisym : AntiSymm (=) root_le.
Proof. intros a b Hab Hba. apply root_less_total; assumption. Qed.

Lemma sort_roots_sorted roots : StronglySorted root_le (sort_roots roots).
Proof. apply StronglySorted_merge_sort; apply _. Qed.

Lemma sort_roots_perm roots : sort_roots roots ≡ₚ roots.
Proof. apply merge_sort_Permutation. Qed.

(** The sorted order of the roots does not depend on their order in
    the mount table. *)
Lemma sort_roots_unique roots l :
  l ≡ₚ roots -> StronglySorted root_le l -> l = sort_roots roots.
Proof.
  intros Hp Hs. apply (StronglySorted_unique root_le); [exact Hs| |].
  - apply sort_roots_sorted.
  - rewrite Hp. symmetry. apply sort_roots_perm.
Qed.

Lemma StronglySorted_lookup {A} (R : A -> A -> Prop) l :
  StronglySorted R l ->
  forall i j x y, i < j -> l !! i = Some x -> l !! j = Some y -> R x y.
Proof.
  induction 1 as [|a l Hs IH Hall]; intros i j x y Hij Hi Hj; [discriminate|].
  destruct j as [|j]; [lia|]. simpl in Hj. destruct i as [|i]; simpl in Hi.
  - injection Hi as <-. rewrite Forall_forall in Hall. apply Hall.
    eapply list_elem_of_lookup_2, Hj.
  - apply (IH i j); [lia|assumption|assumption].
Qed.

(** *** The bisection *)

Section Bisection.
Context {A : Type} (pred : A -> bool) (l : list A).
(** The elements that satisfy [pred] come first. *)
Hypothesis partitioned : forall i j x y,
  i <= j -> l !! i = Some x -> l !! j = Some y -> pred y = true -> pred x = true.

Lemma partition_point_loop_spec : forall fuel first len,
  len <= fuel -> first + len <= length l ->
  (forall i x, i < first -> l !! i = Some x -> pred x = true) ->
  (forall i x, first + len <= i -> l !! i = Some x -> pred x = false) ->
  let k := partition_point_loop pred l fuel first len in
  (forall i x, i < k -> l !! i = Some x -> pred x = true)
  /\ (forall i x, k <= i -> l !! i = Some x -> pred x = false).
Proof.
  induction fuel as [|fuel IH]; intros first len Hf Hlen Hlo Hhi;
    cbn [partition_point_loop]; cbv zeta.
  { split; [exact Hlo|]. intros i x Hi. apply Hhi. lia. }
  destruct (Nat.eqb_spec len 0) as [->|Hne].
  { split; [exact Hlo|]. intros i x Hi. apply Hhi. lia. }
  assert (Hhalf : len / 2 < len) by (apply Nat.div_lt; lia).
  set (half := len / 2) in *. clearbody half.
  destruct (l !! (first + half)) as [x|] eqn:Hmid.
  2:{ apply lookup_ge_None in Hmid. lia. }
  destruct (pred x) eqn:Hx.
  - apply IH; [lia|lia| |].
    + intros i y Hi Hy. apply (partitioned i (first + half) y x); [lia|assumption..].
    + intros i y Hi. apply Hhi. lia.
  - apply IH; [lia|lia|exact Hlo|].
    intros i y Hi Hy. destruct (pred y) eqn:Hpy; [|reflexivity].
    rewrite (partitioned (first + half) i x y) in Hx; [discriminate|lia|assumption..].
Qed.

Lemma partition_point_spec :
  let k := partition_point pred l in
  (forall i x, i < k -> l !! i = Some x -> pred x = true)
  /\ (forall i x, k <= i -> l !! i = Some x -> pred x = false).
Proof.
  apply partition_point_loop_spec; [lia|lia| |].
  - intros i x Hi. lia.
  - intros i x Hi Hx. apply lookup_lt_Some in Hx. simpl in Hi. lia.
Qed.
End Bisection.

(** On sorted roots the search finds the first root of the inode,
    when there is one. *)
Lemma lookup_root_spec roots ino :
  StronglySorted root_le roots ->
  match lookup_root roots ino with
  | Some r => r.1 = ino /\ r ∈ roots
              /\ forall r', r' ∈ roots -> r'.1 = ino -> root_le r r'
  | None => forall r', r' ∈ roots -> r'.1 <> ino
  end.
Proof.
  intros Hs. unfold lookup_root.
  destruct (partition_point_spec (fun r : root => (r.1 <? ino)%Z) roots)
    as [Hlo Hhi].
  { intros i j x y Hij Hi Hj Hy. apply Z.ltb_lt in Hy. apply Z.ltb_lt.
    destruct (decide (i = j)) as [->|Hne]; [congruence|].
    pose proof (root_le_ino _ _ (StronglySorted_lookup _ _ Hs i j x y
                                   ltac:(lia) Hi Hj)). lia. }
  set (k := partition_point (fun r : root => (r.1 <? ino)%Z) roots) in *.
  clearbody k.
  destruct (roots !! k) as [r|] eqn:Hk.
  - pose proof (Hhi k r ltac:(lia) Hk) as Hr. apply Z.ltb_ge in Hr.
    destruct (Z.eqb_spec r.1 ino) as [He|Hne].
    + split; [exact He|]. split; [eapply list_elem_of_lookup_2, Hk|].
      intros r' Hin Hr'. apply list_elem_of_lookup in Hin as [j Hj].
      destruct (decide (j < k)) as [Hlt|Hge].
      * pose proof (Hlo j r' Hlt Hj) as Hp. apply Z.ltb_lt in Hp. lia.
      * destruct (decide (j = k)) as [Hjk|Hne].
        -- subst j. rewrite Hk in Hj. injection Hj as <-. apply root_less_irrefl.
        -- apply (StronglySorted_lookup _ _ Hs k j); [lia|assumption..].
    + intros r' Hin Hr'. apply list_elem_of_lookup in Hin as [j Hj].
      destruct (decide (j < k)) as [Hlt|Hge].
      * pose proof (Hlo j r' Hlt Hj) as Hp. apply Z.ltb_lt in Hp. lia.
      * destruct (decide (j = k)) as [Hjk|Hne'].
        -- subst j. rewrite Hk in Hj. injection Hj as <-. contradiction.
        -- pose proof (root_le_ino _ _ (StronglySorted_lookup _ _ Hs k j r r'
                                          ltac:(lia) Hk Hj)). lia.
  - intros r' Hin Hr'. apply list_elem_of_lookup in Hin as [j Hj].
    apply lookup_ge_None in Hk. pose proof (lookup_lt_Some _ _ _ Hj).
    pose proof (Hlo j r' ltac:(lia) Hj) as Hp. apply Z.ltb_lt in Hp. lia.
Qed.

(** *** Running [location] *)

Lemma bind_returned {A B} (m : M A) (f : A -> M B) log a log' :
  m log = Some (Returned a, log') -> bind m f log = f a log'.
Proof. intros H. unfold bind. rewrite H. reflexivity. Qed.

Lemma extends_ret {A} (a : A) : extends (ret a).
Proof. intros log r log' [= <- <-]. exists []. symmetry. apply app_nil_r. Qed.

Lemma extends_raise {A} e : extends (@raise A e).
Proof. intros log r log' [= <- <-]. exists []. symmetry. apply app_nil_r. Qed.

Lemma extends_out_of_fuel {A} : extends (@out_of_fuel A).
Proof. intros log r log' H. discriminate. Qed.

Lemma extends_emit ev : extends (emit ev).
Proof. intros log r log' [= <- <-]. eauto. Qed.

Lemma extends_bind {A B} (m : M A) (f : A -> M B) :
  extends m -> (forall a, extends (f a)) -> extends (bind m f).
Proof.
  intros Hm Hf log r log'. unfold bind.
  destruct (m log) as [[[a|e] log1]|] eqn:Hrun; [| |discriminate].
  - destruct (Hm _ _ _ Hrun) as [ext1 ->]. intros Hk.
    destruct (Hf a _ _ _ Hk) as [ext2 ->]. exists (ext1 ++ ext2).
    symmetry. apply app_assoc.
  - intros [= <- <-]. eapply Hm, Hrun.
Qed.

Ltac extends_step :=
  repeat first
    [ apply extends_bind; [|intros ?]
    | apply extends_ret | apply extends_raise | apply extends_out_of_fuel
    | apply extends_emit
    | match goal with
      | |- extends (match ?x with _ => _ end) => destruct x
      | |- extends (if ?b then _ else _) => destruct b
      end ].

Section Run.
Variable sys_getcwd : nat -> Z + bytes.
Variable sys_fstat : Z -> option (Z * Z).
Variable sys_fstatat : bytes -> option Z.
Variable sys_openat : Z -> bytes -> Z -> Z + Z.
Variable mountinfo_content : outcome bytes.
Variable sys_fdopendir : Z -> option (list readdir_result).

Lemma extends_openat ctx fd pathname flags :
  extends (openat sys_openat ctx fd pathname flags).
Proof. unfold openat. extends_step. Qed.

Lemma extends_inode_of fd : extends (inode_of sys_fstat fd).
Proof. unfold inode_of. extends_step. Qed.

Lemma extends_normalized pathname : extends (normalized pathname).
Proof. unfold normalized. extends_step. Qed.

Lemma extends_climb ctx roots : forall fuel previous next current names,
  extends (climb sys_fstat sys_openat sys_fdopendir fuel ctx roots
             previous next current names).
Proof.
  induction fuel as [|fuel IH]; intros previous next current names;
    cbn [climb]; [apply extends_out_of_fuel|].
  destruct ((previous.1 =? next.1)%Z && negb (previous.2 =? next.2)%Z);
    [|apply extends_raise].
  apply extends_bind; [apply extends_openat|intros parent].
  apply extends_bind; [apply extends_emit|intros _].
  destruct (scan_directory _ _ _) as [[[found|e] names'] reads];
    [|apply extends_raise].
  destruct (negb found); [apply extends_raise|].
  destruct (lookup_root roots next.2); [apply extends_normalized|].
  apply extends_bind; [apply extends_inode_of|intros st]. apply IH.
Qed.

(** The first thing [openat] does is to call [::openat] on the
    directory and the name it is given. *)
Lemma openat_first ctx fd pathname flags {B} (k : Z -> M B) log r log' :
  (forall a, extends (k a)) ->
  bind (openat sys_openat ctx fd pathname flags) k log = Some (r, log') ->
  exists flags' rest, log' = log ++ EvOpenat fd pathname flags' :: rest.
Proof.
  intros Hk Hrun.
  assert (Hplain : forall l r' l',
             bind (bind (emit (EvOpenat fd pathname
                                 (Z.lor flags (additional_open_flags ctx))))
                     (fun _ =>
                        match sys_openat fd pathname
                                (Z.lor flags (additional_open_flags ctx)) with
                        | inr d => ret d
                        | inl _ => raise (runtime "fs-open-error")
                        end)) k l = Some (r', l') ->
             exists rest,
               l' = l ++ EvOpenat fd pathname
                           (Z.lor flags (additional_open_flags ctx)) :: rest).
  { intros l r' l'. unfold bind at 1 2, emit.
    destruct (sys_openat fd pathname _) as [errno|d]; cbn.
    - intros [= <- <-]. exists []. reflexivity.
    - intros Hd. destruct (Hk d _ _ _ Hd) as [ext ->]. exists ext.
      rewrite <- app_assoc. reflexivity. }
  unfold openat in Hrun.
  destruct (avoid_access_time ctx && _).
  - unfold bind at 1 2, emit in Hrun.
    destruct (sys_openat fd (pathname) (Z.lor (Z.lor flags _) O_NOATIME))
      as [errno|d]; cbn in Hrun.
    + destruct (negb (errno =? EPERM)%Z); cbn in Hrun.
      * injection Hrun as <- <-. eexists _, []. reflexivity.
      * fold (bind (A := Z) (B := B)) in Hrun.
        change (bind (bind (emit (EvOpenat fd pathname
                                   (Z.lor flags (additional_open_flags ctx))))
                       (fun _ =>
                          match sys_openat fd pathname
                                  (Z.lor flags (additional_open_flags ctx)) with
                          | inr d => ret d
                          | inl _ => raise (runtime "fs-open-error")
                          end)) k
                  (log ++ [EvOpenat fd pathname
                             (Z.lor (Z.lor flags (additional_open_flags ctx))
                                O_NOATIME)]) = Some (r, log')) in Hrun.
        destruct (Hplain _ _ _ Hrun) as [rest ->].
        eexists _, _. rewrite <- app_assoc. reflexivity.
    + destruct (Hk d _ _ _ Hrun) as [ext ->]. eexists _, ext.
      rewrite <- app_assoc. reflexivity.
  - destruct (Hplain _ _ _ Hrun) as [rest ->]. eauto.
Qed.

Lemma inode_of_ok fd st log :
  sys_fstat fd = Some st ->
  inode_of sys_fstat fd log = Some (Returned st, log ++ [EvFstat fd]).
Proof. intros H. unfold inode_of, bind, emit. rewrite H. reflexivity. Qed.

Lemma find_mounts_ok data mounts log :
  mountinfo_content = Returned data ->
  parse_mountinfo data = Some (Returned mounts) ->
  find_mounts mountinfo_content log
  = Some (Returned mounts, log ++ [EvReadMountinfo]).
Proof. intros H1 H2. unfold find_mounts, bind, emit. rewrite H1, H2. reflexivity. Qed.

Lemma collect_roots_ok dev : forall mounts roots log,
  (forall m, m ∈ mounts -> device m = dev -> is_Some (sys_fstatat (path m))) ->
  collect_roots sys_fstatat dev mounts roots log
  = Some (Returned (roots ++ candidates sys_fstatat dev mounts),
          log ++ stat_events dev mounts).
Proof.
  induction mounts as [|m mounts IH]; intros roots log Hstat; cbn.
  - unfold ret. rewrite !app_nil_r. reflexivity.
  - destruct (Z.eqb_spec (device m) dev) as [He|Hne].
    + destruct (Hstat m ltac:(left) He) as [ino Hino].
      unfold bind, emit. rewrite Hino. cbn. rewrite IH.
      * rewrite <- !app_assoc. reflexivity.
      * intros m' Hin. apply Hstat. right. exact Hin.
    + apply IH. intros m' Hin. apply Hstat. right. exact Hin.
Qed.

Lemma normalized_ok pathname log :
  normalized pathname log = Some (Returned (normalize_spec pathname), log).
Proof. unfold normalized. rewrite pathname_normalize_spec. reflexivity. Qed.

(** [location] of a resolved origin, up to the search among the
    roots. *)
Lemma location_resolved fuel o dev ino data mounts :
  origin_handle o <> (-1)%Z -> origin_handle o <> AT_FDCWD ->
  sys_fstat (origin_handle o) = Some (dev, ino) ->
  mountinfo_content = Returned data ->
  parse_mountinfo data = Some (Returned mounts) ->
  (forall m, m ∈ mounts -> device m = dev -> is_Some (sys_fstatat (path m))) ->
  let roots := sort_roots (candidates sys_fstatat dev mounts) in
  let log0 := [EvFstat (origin_handle o); EvReadMountinfo]
                ++ stat_events dev mounts in
  location sys_getcwd sys_fstat sys_fstatat sys_openat mountinfo_content
    sys_fdopendir fuel o []
  = match lookup_root roots ino with
    | Some p => Some (Returned (normalize_spec p.2), log0)
    | None =>
        bind (openat sys_openat (origin_context o) (origin_handle o) dotdot
                location_flags)
          (fun current =>
             bind (inode_of sys_fstat current)
               (fun next =>
                  climb sys_fstat sys_openat sys_fdopendir fuel
                    (origin_context o) roots (dev, ino) next current []))
          log0
    end.
Proof.
  intros Hh Hcwd Hst Hmi Hparse Hstat roots log0. unfold location, get_or.
  destruct (Z.eqb_spec (origin_handle o) (-1)) as [?|_]; [contradiction|].
  destruct (Z.eqb_spec (origin_handle o) AT_FDCWD) as [?|_]; [contradiction|].
  rewrite (bind_returned _ _ _ _ _ (inode_of_ok _ _ _ Hst)).
  rewrite (bind_returned _ _ _ _ _ (find_mounts_ok _ _ _ Hmi Hparse)).
  cbn [fst snd].
  rewrite (bind_returned _ _ _ _ _ (collect_roots_ok dev mounts [] _ Hstat)).
  cbn [app]. fold roots.
  destruct (lookup_root roots ino) as [p|]; [apply normalized_ok|reflexivity].
Qed.
End Run.

Lemma elem_of_candidates sys_fstatat dev mounts (r : root) :
  r ∈ candidates sys_fstatat dev mounts
  <-> exists m, m ∈ mounts /\ device m = dev /\ r.2 = path m
                /\ sys_fstatat (path m) = Some r.1.
Proof.
  unfold candidates. rewrite list_elem_of_omap. split.
  - intros (m & Hin & Hm). exists m. split; [exact Hin|].
    destruct (Z.eqb_spec (device m) dev) as [He|]; [|discriminate].
    destruct (sys_fstatat (path m)) as [i|]; [|discriminate].
    injection Hm as <-. auto.
  - intros (m & Hin & He & Hp & Hi). exists m. split; [exact Hin|].
    rewrite (proj2 (Z.eqb_eq _ _) He), Hi. destruct r. simpl in *. congruence.
Qed.

Lemma stat_events_no_openat dev mounts ev :
  ev ∈ stat_events dev mounts -> exists p, ev = EvFstatat p.
Proof.
  unfold stat_events. rewrite list_elem_of_omap. intros (m & _ & Hm).
  destruct (device m =? dev)%Z; [|discriminate]. injection Hm as <-. eauto.
Qed.

(** C3. For a resolved origin whose directory has the device [dev]
    and the inode [ino], with a mount table that parses to [mounts]
    and mount points that can be examined: the candidate roots are
    the pairs of inode and decoded path of the mounts of that
    device; [location] sorts them ascending by inode, length of the
    path and text of the path: the comparison of the sort is that
    order of the triples, with the texts compared by their first
    differing character and a proper prefix first, and of two
    different roots the one that is less in it comes first in the
    sorted sequence. The order is strict and total and gives one
    sorted sequence whatever the order of the table; the inode is
    then looked up by bisection. When a candidate has the inode,
    [location] returns the normalized path of the first such
    candidate in the order, which is the shortest path among the
    candidates of the inode and among those of that length the first
    by its text, having made no call of [::openat]; when none has,
    the next thing it does is to open the parent directory. *)
Theorem location_of_mount_root
    (sys_getcwd : nat -> Z + bytes) (sys_fstat : Z -> option (Z * Z))
    (sys_fstatat : bytes -> option Z) (sys_openat : Z -> bytes -> Z -> Z + Z)
    (mountinfo_content : outcome bytes)
    (sys_fdopendir : Z -> option (list readdir_result))
    (fuel : nat) (o : origin) (dev ino : Z) (data : bytes) (mounts : list mount) :
  origin_handle o <> (-1)%Z -> origin_handle o <> AT_FDCWD ->
  sys_fstat (origin_handle o) = Some (dev, ino) ->
  mountinfo_content = Returned data ->
  parse_mountinfo data = Some (Returned mounts) ->
  (forall m, m ∈ mounts -> device m = dev -> is_Some (sys_fstatat (path m))) ->
  let cands := candidates sys_fstatat dev mounts in
  let roots := sort_roots cands in
  let log0 := [EvFstat (origin_handle o); EvReadMountinfo]
                ++ stat_events dev mounts in
  let run := location sys_getcwd sys_fstat sys_fstatat sys_openat
               mountinfo_content sys_fdopendir fuel o [] in
  (forall r : root,
      r ∈ cands <-> exists m, m ∈ mounts /\ device m = dev /\ r.2 = path m
                              /\ sys_fstatat (path m) = Some r.1)
  /\ StronglySorted root_le roots /\ roots ≡ₚ cands
  /\ (forall l, l ≡ₚ cands -> StronglySorted root_le l -> l = roots)
  /\ (forall a b : root,
        root_less a a = false
        /\ (root_less a b = true \/ a = b \/ root_less b a = true)
        /\ (root_less a b = true -> root_less b a = false))
  /\ (forall a b : root, root_less a b = true <-> triple_less a b)
  /\ (forall i j (a b : root),
        i < j -> roots !! i = Some a -> roots !! j = Some b ->
        a = b \/ triple_less a b)
  /\ ((exists pathname, (ino, pathname) ∈ cands) ->
      exists pathname,
        (ino, pathname) ∈ cands
        /\ (forall pathname', (ino, pathname') ∈ cands ->
              root_le (ino, pathname) (ino, pathname'))
        /\ (forall pathname', (ino, pathname') ∈ cands ->
              pathname' = pathname
              \/ length pathname < length pathname'
              \/ (length pathname = length pathname'
                  /\ text_less pathname pathname'))
        /\ lookup_root roots ino = Some (ino, pathname)
        /\ pathname_normalize pathname = Some (normalize_spec pathname)
        /\ run = Some (Returned (normalize_spec pathname), log0)
        /\ (forall ev d p f, ev ∈ log0 -> ev <> EvOpenat d p f))
  /\ ((forall pathname, (ino, pathname) ∉ cands) ->
      lookup_root roots ino = None
      /\ forall r log, run = Some (r, log) ->
          exists flags rest,
            log = log0 ++ EvOpenat (origin_handle o) dotdot flags :: rest).
Proof.
  intros Hh Hcwd Hst Hmi Hparse Hstat cands roots log0 run.
  pose proof (location_resolved sys_getcwd sys_fstat sys_fstatat sys_openat
                mountinfo_content sys_fdopendir fuel o dev ino data mounts
                Hh Hcwd Hst Hmi Hparse Hstat) as Hrun.
  cbv zeta in Hrun. fold cands roots log0 run in Hrun.
  pose proof (lookup_root_spec roots ino (sort_roots_sorted cands)) as Hlook.
  assert (Hperm : roots ≡ₚ cands) by apply sort_roots_perm.
  split; [intros r; apply elem_of_candidates|].
  split; [apply sort_roots_sorted|].
  split; [apply sort_roots_perm|].
  split; [intros l; apply sort_roots_unique|].
  split.
  { intros a b. split; [apply root_less_irrefl|]. split; [|apply root_less_asym].
    destruct (root_less a b) eqn:Hab; [left; reflexivity|].
    destruct (root_less b a) eqn:Hba; [right; right; reflexivity|].
    right; left. apply root_less_total; assumption. }
  split; [exact root_less_triple|].
  split.
  { intros i j a b Hij Ha Hb.
    pose proof (StronglySorted_lookup root_le roots (sort_roots_sorted cands)
                  i j a b Hij Ha Hb) as Hle.
    unfold root_le in Hle.
    destruct (root_less a b) eqn:Hab; [right; apply root_less_triple, Hab|].
    left. apply root_less_total; assumption. }
  split.
  - intros [pathname Hin].
    destruct (lookup_root roots ino) as [[i q]|] eqn:Hl.
    + destruct Hlook as (Hi & Hq & Hmin). simpl in Hi. subst i.
      exists q. split; [rewrite <- Hperm; exact Hq|].
      split.
      { intros q' Hq'. apply Hmin; [|reflexivity].
        rewrite Hperm. exact Hq'. }
      split.
      { intros q' Hq'.
        assert (Hle : root_le (ino, q) (ino, q'))
          by (apply Hmin; [rewrite Hperm; exact Hq'|reflexivity]).
        unfold root_le in Hle.
        destruct (root_less (ino, q) (ino, q')) eqn:Hlt.
        - apply root_less_triple in Hlt as [Hlt|[_ Hlt]]; [cbn in Hlt; lia|].
          right. exact Hlt.
        - left. symmetry.
          pose proof (root_less_total _ _ Hlt Hle) as He. congruence. }
      split; [reflexivity|]. split; [apply pathname_normalize_spec|].
      split; [exact Hrun|].
      intros ev d p f Hev ->. unfold log0 in Hev.
      apply elem_of_app in Hev as [Hev|Hev].
      * apply elem_of_cons in Hev as [Hev|Hev]; [discriminate|].
        apply list_elem_of_singleton in Hev. discriminate.
      * apply stat_events_no_openat in Hev as [p' Hp']. discriminate.
    + exfalso. apply (Hlook (ino, pathname)); [|reflexivity].
      rewrite Hperm. exact Hin.
  - intros Hnone.
    destruct (lookup_root roots ino) as [[i q]|] eqn:Hl.
    + destruct Hlook as (Hi & Hq & _). simpl in Hi. subst i.
      exfalso. apply (Hnone q). rewrite <- Hperm. exact Hq.
    + split; [reflexivity|]. intros r log Hr. rewrite Hrun in Hr.
      eapply openat_first; [|exact Hr].
      intros current. apply extends_bind; [apply extends_inode_of|].
      intros next. apply extends_climb.
Qed.

Lemma location_of_mount_root_witness :
  location (fun _ => inl ERANGE) sample_fstat sample_fstatat
    (fun _ _ _ => inl EPERM) (Returned sample_mountinfo) (fun _ => None)
    0 sample_origin []
  = Some (Returned (lit "/m"),
          [EvFstat 5; EvReadMountinfo; EvFstatat (lit "/mnt"); EvFstatat (lit "/m")]).
Proof.
  destruct (location_of_mount_root (fun _ => inl ERANGE) sample_fstat sample_fstatat
              (fun _ _ _ => inl EPERM) (Returned sample_mountinfo) (fun _ => None)
              0 sample_origin 2049 2 sample_mountinfo sample_mounts)
    as (_ & _ & _ & _ & _ & _ & _ & Hfound & _).
  - discriminate.
  - discriminate.
  - reflexivity.
  - reflexivity.
  - vm_compute. reflexivity.
  - intros m _ _. eexists. reflexivity.
  - destruct Hfound as (pathname & _ & _ & _ & Hlook & _ & Hrun & _).
    + exists (lit "/m"). apply elem_of_candidates.
      exists (Mount 2049 (lit "/m")). repeat split.
      right. left.
    + vm_compute in Hlook. injection Hlook as <-. exact Hrun.
Defined.

End Origin.

(** ** Paths ([path::impl]) *)

Module Path.
Import Pathname Mountinfo Scan Origin.

(** [path::impl]. *)
Record path := Path { _origin : origin; _pathname : bytes; _follow : bool }.

(** [path::impl::follow]. *)
Definition follow (p : path) (value : bool) : path :=
  Path (_origin p) (_pathname p) value.

(** [path::impl::joined]; [None] only if the normalization ran out
    of fuel. *)
Definition joined (p : path) (pathname : bytes) : option path :=
  if starts_with_slash pathname
  then Some (Path (working (_origin p)) pathname (_follow p))
  else
    match pathname_normalize ((_pathname p ++ ["/"%char]) ++ pathname) with
    | Some normal => Some (Path (_origin p) normal (_follow p))
    | None => None
    end.

(** An origin is the root of the process when its location is the
    root directory. *)
Definition is_process_root
    (sys_getcwd : nat -> Z + bytes) (sys_fstat : Z -> option (Z * Z))
    (sys_fstatat : bytes -> option Z) (sys_openat : Z -> bytes -> Z -> Z + Z)
    (mountinfo_content : outcome bytes)
    (sys_fdopendir : Z -> option (list readdir_result)) (o : origin) : Prop :=
  exists fuel log,
    location sys_getcwd sys_fstat sys_fstatat sys_openat mountinfo_content
      sys_fdopendir fuel o [] = Some (Returned (lit "/"), log).

(** A process in the working directory [/home/u], with the root
    directory open on the descriptor 5. *)
Definition home_getcwd (size : nat) : Z + bytes :=
  if 7 <? size then inr (lit "/home/u") else inl ERANGE.

Definition root_mountinfo : bytes :=
  lit "21 1 8:1 / / rw - ext4 /dev/sda1 rw" ++ [LF].

Definition root_origin : origin := Origin (origin_context sample_origin) 5.

Definition sample_path : path := Path root_origin (lit "usr/lib") true.

(** *** Properties *)

(** C8. For every path and name: when the name starts with a
    separator, [joined] gives the path of the name as it is, not
    normalized, on the working-directory origin of the same context,
    the origin without a descriptor whose directory descriptor is
    [AT_FDCWD]; otherwise it gives the path on the same origin whose
    pathname is the normalization of the pathname of the path, a
    separator and the name. The follow flag is the one of the path
    in both cases. *)
Theorem joined_correct (p : path) (name : bytes) :
  joined p name
  = Some (if starts_with_slash name
          then Path (working (_origin p)) name (_follow p)
          else Path (_origin p)
                    (normalize_spec ((_pathname p ++ ["/"%char]) ++ name))
                    (_follow p))
  /\ (starts_with_slash name = true <-> head name = Some "/"%char)
  /\ pathname_normalize ((_pathname p ++ ["/"%char]) ++ name)
     = Some (normalize_spec ((_pathname p ++ ["/"%char]) ++ name))
  /\ origin_context (working (_origin p)) = origin_context (_origin p)
  /\ origin_handle (working (_origin p)) = (-1)%Z
  /\ dir_fd (working (_origin p)) = AT_FDCWD.
Proof.
  split; [|split; [|repeat split; apply pathname_normalize_spec]].
  - unfold joined. rewrite pathname_normalize_spec.
    destruct (starts_with_slash name); reflexivity.
  - rewrite starts_with_slash_head. destruct name as [|c name]; simpl.
    + split; discriminate.
    + rewrite bool_decide_eq_true. split; congruence.
Qed.

(** The origin of a path joined with an absolute name is not the
    root of the process: in a process whose working directory is
    [/home/u], the location of the origin on the root directory is
    the root, while the origin of the joined path has no descriptor
    and its location is the working directory. *)
Lemma joined_origin_is_not_process_root :
  is_process_root home_getcwd sample_fstat sample_fstatat
    (fun _ _ _ => inl EPERM) (Returned root_mountinfo) (fun _ => None)
    root_origin
  /\ exists j,
      joined sample_path (lit "/etc") = Some j
      /\ _pathname j = lit "/etc"
      /\ origin_handle (_origin j) = (-1)%Z
      /\ location home_getcwd sample_fstat sample_fstatat
           (fun _ _ _ => inl EPERM) (Returned root_mountinfo) (fun _ => None)
           0 (_origin j) []
         = Some (Returned (lit "/home/u"), [EvGetcwd 256])
      /\ ~ is_process_root home_getcwd sample_fstat sample_fstatat
             (fun _ _ _ => inl EPERM) (Returned root_mountinfo) (fun _ => None)
             (_origin j).
Proof.
  split.
  { exists 0, [EvFstat 5; EvReadMountinfo; EvFstatat (lit "/")].
    vm_compute. reflexivity. }
  eexists. split; [reflexivity|]. split; [reflexivity|]. split; [reflexivity|].
  split; [reflexivity|].
  intros (fuel & log & Hrun). discriminate Hrun.
Qed.

End Path.

(** * Further properties of the code *)

(** ** Normalized pathnames and joining *)

Module Normalization.
Import Pathname Origin Path.

(** The kept segments of a pathname, in order. *)
Definition segments (s : bytes) : list bytes :=
  filter (fun seg => kept seg = true) (split_on "/"%char s).

(** [path::impl::absolute]. *)
Definition absolute
    (sys_getcwd : nat -> Z + bytes) (sys_fstat : Z -> option (Z * Z))
    (sys_fstatat : bytes -> option Z) (sys_openat : Z -> bytes -> Z -> Z + Z)
    (mountinfo_content : outcome bytes)
    (sys_fdopendir : Z -> option (list Scan.readdir_result))
    (fuel : nat) (p : path) : M bytes :=
  if starts_with_slash (_pathname p) then normalized (_pathname p)
  else
    bind (location sys_getcwd sys_fstat sys_fstatat sys_openat mountinfo_content
            sys_fdopendir fuel (_origin p))
      (fun loc => normalized ((loc ++ ["/"%char]) ++ _pathname p)).

(** *** Properties *)

Lemma split_on_nonempty c s : split_on c s <> [].
Proof.
  destruct s as [|x s]; simpl; [discriminate|].
  destruct (decide (x = c)); [discriminate|].
  destruct (split_on c s); discriminate.
Qed.

Lemma split_on_app_sep c a b :
  split_on c (a ++ c :: b) = split_on c a ++ split_on c b.
Proof.
  induction a as [|x a IH]; simpl.
  - rewrite decide_True by reflexivity. reflexivity.
  - destruct (decide (x = c)); [rewrite IH; reflexivity|].
    rewrite IH. pose proof (split_on_nonempty c a) as Hne.
    destruct (split_on c a); [contradiction|reflexivity].
Qed.

Lemma split_on_free c s : c ∉ s -> split_on c s = [s].
Proof.
  induction s as [|x s IH]; intros Hc; simpl; [reflexivity|].
  apply not_elem_of_cons in Hc as [Hx Hs].
  rewrite decide_False by congruence. rewrite IH by exact Hs. reflexivity.
Qed.

Lemma split_on_join c seg segs :
  Forall (fun s => c ∉ s) (seg :: segs) ->
  split_on c (join c (seg :: segs)) = seg :: segs.
Proof.
  revert seg. induction segs as [|s segs IH]; intros seg Hall.
  - simpl. apply split_on_free. apply Forall_cons in Hall. tauto.
  - change (join c (seg :: s :: segs)) with (seg ++ c :: join c (s :: segs)).
    apply Forall_cons in Hall as [Hseg Hall].
    rewrite split_on_app_sep, IH by exact Hall.
    rewrite split_on_free by exact Hseg. reflexivity.
Qed.

Lemma segments_free s : Forall (fun seg => "/"%char ∉ seg) (segments s).
Proof.
  apply Forall_forall. intros seg Hin. apply list_elem_of_filter in Hin as [_ Hin].
  eapply split_on_no_sep, Hin.
Qed.

Lemma segments_kept s : Forall (fun seg => kept seg = true) (segments s).
Proof.
  apply Forall_forall. intros seg Hin. apply list_elem_of_filter in Hin. tauto.
Qed.

Lemma filter_kept_id segs :
  Forall (fun seg => kept seg = true) segs ->
  filter (fun seg => kept seg = true) segs = segs.
Proof.
  induction 1 as [|seg segs Hk _ IH]; [reflexivity|].
  rewrite filter_cons, decide_True by exact Hk. rewrite IH. reflexivity.
Qed.

(** A normalized pathname written out from the flag and the
    segments. *)
Lemma normalize_spec_render s :
  normalize_spec s =
    match segments s with
    | [] => if starts_with_slash s then lit "/" else lit "."
    | _ => (if starts_with_slash s then lit "/" else []) ++ join "/"%char (segments s)
    end.
Proof. unfold normalize_spec, segments. rewrite starts_with_slash_head. reflexivity. Qed.

Lemma starts_with_slash_normalize s :
  starts_with_slash (normalize_spec s) = starts_with_slash s.
Proof.
  rewrite normalize_spec_render.
  pose proof (segments_kept s) as Hk. pose proof (segments_free s) as Hf.
  destruct (segments s) as [|seg segs].
  - destruct (starts_with_slash s); reflexivity.
  - destruct (starts_with_slash s); [reflexivity|].
    rewrite app_nil_l, join_cons, starts_with_slash_head.
    apply Forall_cons in Hk as [Hk _]. apply Forall_cons in Hf as [Hf _].
    destruct seg as [|x seg]; [discriminate|]. simpl.
    apply bool_decide_eq_false_2. intros ->. apply Hf. left.
Qed.

Lemma segments_normalize s : segments (normalize_spec s) = segments s.
Proof.
  rewrite normalize_spec_render.
  pose proof (segments_kept s) as Hk. pose proof (segments_free s) as Hf.
  destruct (segments s) as [|seg segs] eqn:Hs.
  - destruct (starts_with_slash s); reflexivity.
  - unfold segments at 1. destruct (starts_with_slash s).
    + change (lit "/" ++ join "/"%char (seg :: segs))
        with ([] ++ "/"%char :: join "/"%char (seg :: segs)).
      rewrite split_on_app_sep, split_on_join by exact Hf.
      simpl. rewrite filter_cons. simpl.
      apply filter_kept_id, Hk.
    + rewrite app_nil_l, split_on_join by exact Hf. apply filter_kept_id, Hk.
Qed.

Lemma normalize_spec_ext s t :
  starts_with_slash s = starts_with_slash t -> segments s = segments t ->
  normalize_spec s = normalize_spec t.
Proof. intros Ha Hs. rewrite !normalize_spec_render, Ha, Hs. reflexivity. Qed.

Lemma segments_app_sep a b : segments (a ++ "/"%char :: b) = segments a ++ segments b.
Proof. unfold segments. rewrite split_on_app_sep. apply filter_app. Qed.

Lemma starts_with_slash_app a b :
  a <> [] -> starts_with_slash (a ++ b) = starts_with_slash a.
Proof.
  intros Ha. rewrite !starts_with_slash_head. destruct a; [contradiction|reflexivity].
Qed.

Lemma normalize_spec_nonempty s : normalize_spec s <> [].
Proof.
  rewrite normalize_spec_render. pose proof (segments_kept s) as Hk.
  destruct (segments s) as [|seg segs].
  - destruct (starts_with_slash s); discriminate.
  - apply Forall_cons in Hk as [Hk _]. apply kept_nonempty in Hk.
    rewrite join_cons. destruct (starts_with_slash s); [discriminate|].
    destruct seg; [contradiction|discriminate].
Qed.

Lemma normalize_inner a b :
  a <> [] ->
  normalize_spec (normalize_spec a ++ "/"%char :: b) = normalize_spec (a ++ "/"%char :: b).
Proof.
  intros Ha. apply normalize_spec_ext.
  - rewrite !starts_with_slash_app by (exact Ha || apply normalize_spec_nonempty).
    apply starts_with_slash_normalize.
  - rewrite !segments_app_sep, segments_normalize. reflexivity.
Qed.

(** X1. Normalizing is idempotent: normalizing the result of a
    normalization gives that result again. *)
Theorem pathname_normalize_idempotent (s : bytes) :
  pathname_normalize s ≫= pathname_normalize = pathname_normalize s.
Proof.
  rewrite pathname_normalize_spec. simpl. rewrite pathname_normalize_spec. f_equal.
  apply normalize_spec_ext; [apply starts_with_slash_normalize|apply segments_normalize].
Qed.

(** X2. A normalized pathname is never empty. It is the separator
    alone, the dot alone, or it splits into the kept segments of the
    input behind at most one empty leading segment (the one of an
    absolute pathname): no empty segment from a doubled or a trailing
    separator and no dot segment is left in it. *)
Theorem pathname_normalize_shape (s : bytes) :
  exists r,
    pathname_normalize s = Some r /\ r <> []
    /\ (r = lit "/" \/ r = lit "."
        \/ exists segs,
            segs <> [] /\ Forall (fun seg => kept seg = true) segs
            /\ segs = segments s
            /\ split_on "/"%char r
               = (if starts_with_slash s then [[]] else []) ++ segs).
Proof.
  exists (normalize_spec s). split; [apply pathname_normalize_spec|].
  split; [apply normalize_spec_nonempty|].
  rewrite normalize_spec_render.
  pose proof (segments_kept s) as Hk. pose proof (segments_free s) as Hf.
  destruct (segments s) as [|seg segs] eqn:Hs.
  - destruct (starts_with_slash s); auto.
  - right. right. exists (seg :: segs). split; [discriminate|].
    split; [exact Hk|]. split; [reflexivity|].
    destruct (starts_with_slash s).
    + change (lit "/" ++ join "/"%char (seg :: segs))
        with ([] ++ "/"%char :: join "/"%char (seg :: segs)).
      rewrite split_on_app_sep, split_on_join by exact Hf. reflexivity.
    + rewrite app_nil_l, split_on_join by exact Hf. reflexivity.
Qed.

(** X3. Joining composes: joining a relative, non-empty name and then
    a second relative name gives the same path as joining the two
    names with a separator between them at once. *)
Theorem joined_joined (p : path) (a b : bytes) :
  a <> [] -> starts_with_slash a = false -> starts_with_slash b = false ->
  joined p a ≫= (fun q => joined q b) = joined p (a ++ "/"%char :: b).
Proof.
  intros Ha Hra Hrb. unfold joined.
  rewrite (starts_with_slash_app a _ Ha), Hra, !pathname_normalize_spec.
  simpl. rewrite Hrb, pathname_normalize_spec.
  f_equal. f_equal.
  rewrite <- !app_assoc. simpl.
  rewrite (normalize_inner (_pathname p ++ "/"%char :: a))
    by (destruct (_pathname p); discriminate).
  rewrite <- app_assoc. reflexivity.
Qed.

Lemma joined_joined_witness :
  joined sample_path (lit "a/./b") ≫= (fun q => joined q (lit "../c"))
  = joined sample_path (lit "a/./b/../c").
Proof. apply (joined_joined sample_path (lit "a/./b") (lit "../c")); [discriminate|reflexivity..]. Defined.

(** X4. On a path with a non-empty pathname, joining the empty name
    or the dot only normalizes the pathname, and joining the double
    dot adds it as one more segment: the parent is not resolved. *)
Theorem joined_dots (p : path) :
  _pathname p <> [] ->
  joined p [] = Some (Path (_origin p) (normalize_spec (_pathname p)) (_follow p))
  /\ joined p (lit ".")
     = Some (Path (_origin p) (normalize_spec (_pathname p)) (_follow p))
  /\ exists q, joined p (lit "..") = Some q
               /\ segments (_pathname q) = segments (_pathname p) ++ [lit ".."].
Proof.
  intros Hp. unfold joined. simpl. rewrite !pathname_normalize_spec.
  assert (Hext : forall name, segments name = [] ->
            normalize_spec ((_pathname p ++ ["/"%char]) ++ name)
            = normalize_spec (_pathname p)).
  { intros name Hn. rewrite <- app_assoc. simpl. apply normalize_spec_ext.
    - apply starts_with_slash_app, Hp.
    - rewrite segments_app_sep, Hn. apply app_nil_r. }
  split; [rewrite Hext by reflexivity; reflexivity|].
  split; [rewrite Hext by reflexivity; reflexivity|].
  eexists. split; [reflexivity|]. simpl.
  rewrite segments_normalize, <- app_assoc. simpl. rewrite segments_app_sep. reflexivity.
Qed.

Lemma joined_dots_witness :
  joined sample_path (lit ".")
  = Some (Path (_origin sample_path) (normalize_spec (_pathname sample_path))
            (_follow sample_path)).
Proof. apply (joined_dots sample_path). discriminate. Defined.

(** X5. [absolute] of a path whose pathname starts with a separator
    makes no system call and returns the normalized pathname,
    whatever its origin; this is the case of every path joined with
    such a name. Otherwise the
    result is the normalization of the location of the origin, a
    separator and the pathname, and an exception of [location] is
    the exception of [absolute]. *)
Theorem absolute_correct
    (sys_getcwd : nat -> Z + bytes) (sys_fstat : Z -> option (Z * Z))
    (sys_fstatat : bytes -> option Z) (sys_openat : Z -> bytes -> Z -> Z + Z)
    (mountinfo_content : outcome bytes)
    (sys_fdopendir : Z -> option (list Scan.readdir_result))
    (fuel : nat) (p : path) (log : list event) :
  (forall name, starts_with_slash name = true ->
     exists q, joined p name = Some q
               /\ absolute sys_getcwd sys_fstat sys_fstatat sys_openat
                    mountinfo_content sys_fdopendir fuel q log
                  = Some (Returned (normalize_spec name), log))
  /\ (starts_with_slash (_pathname p) = false ->
      absolute sys_getcwd sys_fstat sys_fstatat sys_openat mountinfo_content
        sys_fdopendir fuel p log
      = match location sys_getcwd sys_fstat sys_fstatat sys_openat
                mountinfo_content sys_fdopendir fuel (_origin p) log with
        | Some (Returned loc, log') =>
            Some (Returned (normalize_spec ((loc ++ ["/"%char]) ++ _pathname p)), log')
        | Some (Raised e, log') => Some (Raised e, log')
        | None => None
        end)
  /\ (starts_with_slash (_pathname p) = true ->
      absolute sys_getcwd sys_fstat sys_fstatat sys_openat mountinfo_content
        sys_fdopendir fuel p log
      = Some (Returned (normalize_spec (_pathname p)), log)).
Proof.
  split; [|split].
  - intros name Hn. unfold joined. rewrite Hn. eexists. split; [reflexivity|].
    unfold absolute. simpl. rewrite Hn. apply normalized_ok.
  - intros Hr. unfold absolute, bind. rewrite Hr.
    destruct (location _ _ _ _ _ _ _ _ _) as [[[loc|e] log']|]; try reflexivity.
    apply normalized_ok.
  - intros Ha. unfold absolute. rewrite Ha. apply normalized_ok.
Qed.

Lemma absolute_correct_witness :
  exists q, joined sample_path (lit "/etc//passwd") = Some q
            /\ absolute home_getcwd sample_fstat sample_fstatat
                 (fun _ _ _ => inl EPERM) (Returned root_mountinfo) (fun _ => None)
                 0 q []
               = Some (Returned (normalize_spec (lit "/etc//passwd")), []).
Proof.
  apply (proj1 (absolute_correct home_getcwd sample_fstat sample_fstatat
                  (fun _ _ _ => inl EPERM) (Returned root_mountinfo) (fun _ => None)
                  0 sample_path [])).
  reflexivity.
Defined.

End Normalization.

(** ** The escape decoder on whole pathnames *)

Module Decoding.
Import Mountinfo.

(** The escape of a byte: a backslash and the three octal digits of
    its value. *)
Definition octal_char (n : N) : ascii := ascii_of_N (48 + n).

Definition escape (c : ascii) : bytes :=
  let n := N_of_ascii c in
  [backslash; octal_char (n / 64); octal_char ((n / 8) mod 8); octal_char (n mod 8)].

(** A pathname with the bytes that [must] be escaped written as
    escapes, the way the proc filesystem writes the mount points. *)
Definition mangle (must : ascii -> bool) (t : bytes) : bytes :=
  flat_map (fun c => if must c then escape c else [c]) t.

(** The escape of a byte decodes to the byte. *)
Definition escape_decodes (c : ascii) : bool :=
  match escape c with
  | [b; d1; d2; d3] =>
      match octal_digit 3 d1, octal_digit 7 d2, octal_digit 7 d3 with
      | Some x, Some y, Some z =>
          bool_decide (b = backslash)
          && bool_decide (ascii_of_N (64 * x + 8 * y + z) = c)
      | _, _, _ => false
      end
  | _ => false
  end.

(** The number of backslashes of a string. *)
Definition backslashes (s : bytes) : nat :=
  length (filter (fun c => c = backslash) s).

(** *** Properties *)

Lemma escape_decodes_all c : escape_decodes c = true.
Proof. destruct c as [[] [] [] [] [] [] [] []]; vm_compute; reflexivity. Qed.

Lemma decode_spec_escape c s :
  decode_spec (escape c ++ s) = cons c <$> decode_spec s.
Proof.
  pose proof (escape_decodes_all c) as H. unfold escape_decodes in H.
  destruct (escape c) as [|b [|d1 [|d2 [|d3 [|]]]]]; try discriminate.
  simpl. destruct (octal_digit 3 d1), (octal_digit 7 d2), (octal_digit 7 d3);
    try discriminate.
  apply andb_true_iff in H as [Hb Hc].
  apply bool_decide_eq_true in Hb, Hc. subst b.
  rewrite bool_decide_eq_true_2 by reflexivity. rewrite Hc. reflexivity.
Qed.

Lemma decode_spec_mangle must t :
  must backslash = true -> decode_spec (mangle must t) = Some t.
Proof.
  intros Hm. induction t as [|c t IH]; [reflexivity|].
  unfold mangle in *. simpl. destruct (must c) eqn:Hc.
  - rewrite decode_spec_escape, IH. reflexivity.
  - simpl. rewrite bool_decide_eq_false_2 by congruence. rewrite IH. reflexivity.
Qed.

Lemma octal_digit_not_backslash hi d a :
  (hi <= 7)%N -> octal_digit hi d = Some a -> d <> backslash.
Proof.
  unfold octal_digit. intros Hhi H ->. change (N_of_ascii backslash) with 92%N in H.
  destruct (N.leb_spec (92) (48 + hi)); [lia|].
  rewrite andb_false_r in H. discriminate.
Qed.

Lemma backslashes_cons_ne c s : c <> backslash -> backslashes (c :: s) = backslashes s.
Proof. intros H. unfold backslashes. rewrite filter_cons, decide_False by exact H. reflexivity. Qed.

Lemma backslashes_cons_eq s : backslashes (backslash :: s) = S (backslashes s).
Proof. unfold backslashes. rewrite filter_cons, decide_True by reflexivity. reflexivity. Qed.

Lemma decode_spec_length : forall n s r,
  length s <= n -> decode_spec s = Some r ->
  length s = length r + 3 * backslashes s.
Proof.
  induction n as [|n IH]; intros s r Hn.
  { destruct s; [|cbn [length] in Hn; lia]. intros [= <-]. reflexivity. }
  destruct s as [|c rest]; [intros [= <-]; reflexivity|]. cbn [length] in Hn.
  cbn [decode_spec]. destruct (bool_decide_reflect (c = backslash)) as [->|Hc].
  - destruct rest as [|d1 [|d2 [|d3 rest']]]; try discriminate.
    destruct (octal_digit 3 d1) as [a|] eqn:H1; [|discriminate].
    destruct (octal_digit 7 d2) as [b|] eqn:H2; [|discriminate].
    destruct (octal_digit 7 d3) as [d|] eqn:H3; [|discriminate].
    destruct (decode_spec rest') as [r'|] eqn:Hr; [|discriminate].
    intros [= <-]. cbn [length] in *.
    pose proof (IH rest' r' ltac:(lia) Hr) as Hlen.
    apply octal_digit_not_backslash in H1, H2, H3; try lia.
    rewrite backslashes_cons_eq, !backslashes_cons_ne by assumption.
    cbn [fmap option_fmap option_map length]. lia.
  - destruct (decode_spec rest) as [r'|] eqn:Hr; [|discriminate].
    intros [= <-]. rewrite backslashes_cons_ne by exact Hc.
    pose proof (IH rest r' ltac:(lia) Hr) as Hlen.
    cbn [fmap option_fmap option_map length]. lia.
Qed.

Lemma decode_spec_app : forall n a ra b,
  length a <= n -> decode_spec a = Some ra ->
  decode_spec (a ++ b) = app ra <$> decode_spec b.
Proof.
  induction n as [|n IH]; intros a ra b Hn.
  { destruct a; [|simpl in Hn; lia]. intros [= <-]. simpl.
    destruct (decode_spec b); reflexivity. }
  destruct a as [|c rest].
  { intros [= <-]. simpl. destruct (decode_spec b); reflexivity. }
  simpl in Hn. cbn [decode_spec app].
  destruct (bool_decide (c = backslash)).
  - destruct rest as [|d1 [|d2 [|d3 rest']]]; try discriminate. cbn [app].
    destruct (octal_digit 3 d1), (octal_digit 7 d2), (octal_digit 7 d3);
      try discriminate.
    destruct (decode_spec rest') as [r'|] eqn:Hr; [|discriminate].
    intros [= <-]. rewrite (IH rest' r' b) by (simpl in *; lia || assumption).
    destruct (decode_spec b); reflexivity.
  - destruct (decode_spec rest) as [r'|] eqn:Hr; [|discriminate].
    intros [= <-]. rewrite (IH rest r' b) by (lia || assumption).
    destruct (decode_spec b); reflexivity.
Qed.

(** X6. Decoding inverts the escaping: a pathname in which any set of
    bytes that contains the backslash is written as three-digit octal
    escapes decodes to the pathname. *)
Theorem unmangle_mangle (must : ascii -> bool) (t : bytes) :
  must backslash = true ->
  unmangle_pathname_from_proc (mangle must t) 0 (length (mangle must t))
  = Returned t.
Proof. intros Hm. rewrite unmangle_spec, decode_spec_mangle by exact Hm. reflexivity. Qed.

Lemma unmangle_mangle_witness :
  unmangle_pathname_from_proc
    (mangle (fun c => bool_decide (c ∈ lit " \")) (lit "/a b\c"))
    0 (length (mangle (fun c => bool_decide (c ∈ lit " \")) (lit "/a b\c")))
  = Returned (lit "/a b\c").
Proof. apply unmangle_mangle. reflexivity. Defined.

(** X7. A decoded pathname is shorter than its source by three
    characters for every backslash of the source. *)
Theorem unmangle_length (s r : bytes) :
  unmangle_pathname_from_proc s 0 (length s) = Returned r ->
  length s = length r + 3 * backslashes s.
Proof.
  rewrite unmangle_spec. destruct (decode_spec s) as [r'|] eqn:Hd; [|discriminate].
  intros [= <-]. apply (decode_spec_length (length s)); [lia|exact Hd].
Qed.

Lemma unmangle_length_witness :
  length (lit "/mnt/my\040disk") = length (lit "/mnt/my disk")
                                  + 3 * backslashes (lit "/mnt/my\040disk").
Proof. apply unmangle_length. reflexivity. Defined.

(** X8. Decoding distributes over concatenation behind a prefix that
    decodes: the result is the decoded prefix followed by the decoded
    rest, and the error of the rest when that does not decode. *)
Theorem unmangle_app (a b ra : bytes) :
  unmangle_pathname_from_proc a 0 (length a) = Returned ra ->
  unmangle_pathname_from_proc (a ++ b) 0 (length (a ++ b))
  = match unmangle_pathname_from_proc b 0 (length b) with
    | Returned rb => Returned (ra ++ rb)
    | Raised e => Raised e
    end.
Proof.
  rewrite !unmangle_spec. destruct (decode_spec a) as [r'|] eqn:Hd; [|discriminate].
  intros [= <-]. rewrite (decode_spec_app (length a) a r' b) by (lia || assumption).
  destruct (decode_spec b); reflexivity.
Qed.

Lemma unmangle_app_witness :
  unmangle_pathname_from_proc (lit "/a\040" ++ lit "b\011") 0
    (length (lit "/a\040" ++ lit "b\011"))
  = match unmangle_pathname_from_proc (lit "b\011") 0 (length (lit "b\011")) with
    | Returned rb => Returned (lit "/a " ++ rb)
    | Raised e => Raised e
    end.
Proof. apply unmangle_app. reflexivity. Defined.

End Decoding.

(** ** The mount table parser on well-formed tables *)

Module MountTable.
Import Mountinfo.

(** The fields of a line of the mount table, up to the mount point,
    and the rest of the line. *)
Record line := Line {
  l_id : bytes; l_parent : bytes; l_major : bytes; l_minor : bytes;
  l_root : bytes; l_mount : bytes; l_rest : bytes
}.

Definition colon : ascii := ":"%char.

(** The text of a line up to the device. *)
Definition head_of (l : line) : bytes :=
  l_id l ++ SP :: l_parent l ++ SP :: l_major l ++ colon :: l_minor l.

(** The text of a line, without its terminator. *)
Definition render (l : line) : bytes :=
  head_of l ++ SP :: l_root l ++ SP :: l_mount l ++ SP :: l_rest l.

(** The text of a table. *)
Definition table (lines : list line) : bytes :=
  flat_map (fun l => render l ++ [LF]) lines.

(** A decimal number: one digit or more. *)
Definition is_number (ds : bytes) : Prop :=
  ds <> [] /\ Forall (fun c => isdigit c = true) ds.

(** The value of a decimal number. *)
Definition decimal (ds : bytes) : Z :=
  fold_left (fun acc c => (10 * acc + (Z.of_N (N_of_ascii c) - 48))%Z) ds 0%Z.

(** A line whose four numbers are decimal numbers, with a root and a
    mount point free of spaces, and with no line terminator inside. *)
Definition well_formed (l : line) : Prop :=
  is_number (l_id l) /\ is_number (l_parent l)
  /\ is_number (l_major l) /\ is_number (l_minor l)
  /\ (SP ∉ l_root l) /\ (LF ∉ l_root l)
  /\ (SP ∉ l_mount l) /\ (LF ∉ l_mount l)
  /\ (LF ∉ l_rest l).

(** The [unsigned] that a decimal number of the table becomes: its
    value, or [2^64 - 1] when the value is larger, modulo [2^32]. *)
Definition stored (ds : bytes) : Z :=
  (Z.min (decimal ds) (2 ^ 64 - 1) mod 2 ^ 32)%Z.

(** The mount of a line, given its decoded mount point. *)
Definition mount_of (l : line) (decoded : bytes) : mount :=
  Mount (makedev (stored (l_major l)) (stored (l_minor l))) decoded.

(** The first character of a string is not a digit. *)
Definition stops (rest : bytes) : Prop :=
  match rest with c :: _ => isdigit c = false | [] => True end.

(** Two lines of a table, a line with a mount point that does not
    decode, and the beginning of a line. *)
Definition line_disk : line :=
  Line (lit "36") (lit "35") (lit "8") (lit "1") (lit "/") (lit "/mnt/my\040disk")
       (lit "rw,noatime shared:1 - ext4 /dev/sda1 rw").

Definition line_proc : line :=
  Line (lit "37") (lit "35") (lit "0") (lit "5") (lit "/") (lit "/proc")
       (lit "rw - proc proc rw").

Definition line_bad : line :=
  Line (lit "38") (lit "35") (lit "0") (lit "6") (lit "/") (lit "/x\08") (lit "rw").

(** A line whose major number is [2^64 + 1]. *)
Definition line_wide : line :=
  Line (lit "40") (lit "35") (lit "18446744073709551617") (lit "1") (lit "/")
       (lit "/wide") (lit "rw").

Definition unterminated : bytes := lit "39 35 0:7 / /unterminated".

(** *** Properties *)

Lemma digit_facts c :
  isdigit c = true ->
  isspace c = false /\ c <> "-"%char /\ c <> "+"%char /\ c <> NUL /\ c <> LF.
Proof.
  intros H. repeat split; try (intros ->; discriminate H).
  unfold isdigit, isspace in *. cbv zeta in *.
  destruct (N.leb_spec 48 (N_of_ascii c)); [|discriminate].
  destruct (N.eqb_spec (N_of_ascii c) 32); [lia|].
  destruct (N.leb_spec (N_of_ascii c) 13); [lia|].
  rewrite andb_false_r. reflexivity.
Qed.

Lemma scan_digits_app ds rest : forall acc,
  Forall (fun c => isdigit c = true) ds -> stops rest ->
  scan_digits (ds ++ rest) acc
  = (fold_left (fun acc c => (10 * acc + (Z.of_N (N_of_ascii c) - 48))%Z) ds acc, rest).
Proof.
  induction ds as [|d ds IH]; intros acc Hds Hrest; simpl.
  - destruct rest as [|c rest]; simpl; [reflexivity|].
    simpl in Hrest. rewrite Hrest. reflexivity.
  - apply Forall_cons in Hds as [Hd Hds]. rewrite Hd. apply IH; assumption.
Qed.

Lemma skip_space_number ds rest :
  is_number ds -> skip_space (ds ++ rest) = ds ++ rest.
Proof.
  intros [Hne Hds]. destruct ds as [|d ds]; [contradiction|].
  apply Forall_cons in Hds as [Hd _]. simpl.
  rewrite (proj1 (digit_facts d Hd)). reflexivity.
Qed.

Lemma scan_integer_number ds rest :
  is_number ds -> stops rest ->
  scan_integer (ds ++ rest) = ScanOk false (decimal ds) rest.
Proof.
  intros Hn Hrest. unfold scan_integer. rewrite skip_space_number by exact Hn.
  destruct Hn as [Hne Hds]. destruct ds as [|d ds]; [contradiction|].
  pose proof Hds as Hall. apply Forall_cons in Hds as [Hd _].
  destruct (digit_facts d Hd) as (_ & Hm & Hp & _).
  cbn [app]. rewrite !bool_decide_eq_false_2 by assumption. rewrite Hd.
  change (d :: ds ++ rest) with ((d :: ds) ++ rest).
  rewrite scan_digits_app by assumption. reflexivity.
Qed.

Lemma store_unsigned_stored ds : store_unsigned false (decimal ds) = stored ds.
Proof.
  unfold store_unsigned, strtoul, stored, ULONG_MAX.
  change (2 ^ 64 - 1)%Z with 0xffffffffffffffff%Z.
  destruct (Z.ltb_spec 0xffffffffffffffff (decimal ds)).
  - rewrite Z.min_r by lia. reflexivity.
  - rewrite Z.min_l by lia. reflexivity.
Qed.

Ltac right_nested :=
  repeat (progress (rewrite <- ?app_assoc, <- ?app_comm_cons)).

Lemma sscanf_head l tail :
  well_formed l ->
  sscanf_mountinfo (head_of l ++ SP :: tail)
  = (2%Z, stored (l_major l), stored (l_minor l), length (head_of l)).
Proof.
  intros (Hid & Hpa & Hma & Hmi & _). unfold sscanf_mountinfo, head_of.
  right_nested.
  rewrite scan_integer_number by (exact Hid || reflexivity).
  cbn [skip_space]. change (isspace SP) with true. cbv iota.
  rewrite (skip_space_number (l_parent l)) by exact Hpa.
  rewrite scan_integer_number by (exact Hpa || reflexivity).
  cbn [skip_space]. change (isspace SP) with true. cbv iota.
  rewrite (skip_space_number (l_major l)) by exact Hma.
  rewrite scan_integer_number by (exact Hma || reflexivity).
  rewrite bool_decide_eq_true_2 by reflexivity.
  rewrite scan_integer_number by (exact Hmi || reflexivity).
  rewrite !store_unsigned_stored.
  repeat f_equal.
  repeat (progress (rewrite ?length_app; cbn [length])). lia.
Qed.

Ltac lengths := repeat (progress (rewrite ?length_app; cbn [length])); lia.

Lemma index_of_app c mid post :
  c ∉ mid -> Pathname.index_of c (mid ++ c :: post) = length mid.
Proof.
  induction mid as [|x mid IH]; intros Hc; simpl.
  - rewrite decide_True by reflexivity. reflexivity.
  - apply not_elem_of_cons in Hc as [Hx Hc].
    rewrite decide_False by congruence. rewrite IH by exact Hc. reflexivity.
Qed.

Lemma index_of_free c s : c ∉ s -> Pathname.index_of c s = length s.
Proof.
  induction s as [|x s IH]; intros Hc; simpl; [reflexivity|].
  apply not_elem_of_cons in Hc as [Hx Hc].
  rewrite decide_False by congruence. rewrite IH by exact Hc. reflexivity.
Qed.

Lemma find_at data pre mid c post p last :
  data = pre ++ mid ++ c :: post -> p = length pre -> last = length data ->
  c ∉ mid -> find data p last c = p + length mid.
Proof.
  intros -> -> -> Hc. rewrite Pathname.find_index by lengths.
  rewrite drop_app_length, index_of_app by exact Hc. reflexivity.
Qed.

Lemma find_free data pre s c p last :
  data = pre ++ s -> p = length pre -> last = length data ->
  c ∉ s -> find data p last c = last.
Proof.
  intros -> -> -> Hc. rewrite Pathname.find_index by lengths.
  rewrite drop_app_length, index_of_free by exact Hc. lengths.
Qed.

Lemma insert_at {A} (pre mid : list A) x y post :
  <[length pre + length mid := y]> (pre ++ mid ++ x :: post) = pre ++ mid ++ y :: post.
Proof.
  rewrite insert_app_r. f_equal.
  replace (length mid) with (length mid + 0) by lia.
  rewrite insert_app_r. reflexivity.
Qed.

Lemma until_nul_app a b : NUL ∉ a -> until_nul (a ++ b) = a ++ until_nul b.
Proof.
  induction a as [|x a IH]; intros Hc; simpl; [reflexivity|].
  apply not_elem_of_cons in Hc as [Hx Hc].
  rewrite bool_decide_eq_false_2 by congruence. rewrite IH by exact Hc. reflexivity.
Qed.

Lemma number_free ds c : is_number ds -> isdigit c = false -> c ∉ ds.
Proof.
  intros [_ Hds] Hc Hin. rewrite Forall_forall in Hds. rewrite (Hds c Hin) in Hc.
  discriminate.
Qed.

Ltac split_in :=
  repeat match goal with
         | H : _ ∈ _ ++ _ |- _ => apply elem_of_app in H as [H|H]
         | H : _ ∈ _ :: _ |- _ => apply elem_of_cons in H as [H|H]
         end.

Lemma head_free l c :
  well_formed l -> isdigit c = false -> c <> SP -> c <> colon -> c ∉ head_of l.
Proof.
  intros (Hid & Hpa & Hma & Hmi & _) Hc Hsp Hco Hin. unfold head_of in Hin.
  pose proof (number_free _ c Hid Hc). pose proof (number_free _ c Hpa Hc).
  pose proof (number_free _ c Hma Hc). pose proof (number_free _ c Hmi Hc).
  split_in; contradiction.
Qed.

Lemma render_no_lf l : well_formed l -> LF ∉ render l.
Proof.
  intros Hwf Hin. pose proof (head_free l LF Hwf eq_refl) as Hh.
  destruct Hwf as (_ & _ & _ & _ & _ & Hr & _ & Hm & Hrest). unfold render in Hin.
  split_in; try contradiction; try discriminate.
  revert Hin. apply Hh; discriminate.
Qed.

(** One line of a well-formed table takes one iteration of the loop,
    which adds the mount of the line. *)
Lemma parse_line fuel pre l post result data last :
  well_formed l ->
  data = pre ++ render l ++ LF :: post -> last = length data ->
  parse_loop (S fuel) data (length pre) last result
  = match decode_spec (l_mount l) with
    | Some decoded =>
        parse_loop fuel (pre ++ render l ++ NUL :: post)
          (length pre + length (render l) + 1) last (result ++ [mount_of l decoded])
    | None => Some (Raised unmangle_error)
    end.
Proof.
  intros Hwf Hdata Hlast. cbn [parse_loop].
  rewrite (find_at data pre (render l) LF post (length pre) last Hdata eq_refl Hlast
             (render_no_lf l Hwf)).
  destruct (Nat.eqb_spec (length pre + length (render l)) last) as [He|_].
  { subst. revert He. lengths. }
  cbn [negb]. rewrite Hdata, insert_at.
  set (data' := pre ++ render l ++ NUL :: post).
  assert (Hlast' : last = length data') by (subst; unfold data'; lengths).
  (* the conversion of the head of the line *)
  assert (Hstr : c_str data' (length pre)
                 = head_of l ++ SP :: until_nul
                     (l_root l ++ SP :: l_mount l ++ SP :: l_rest l ++ NUL :: post)).
  { unfold c_str, data'. rewrite drop_app_length. unfold render. right_nested.
    rewrite until_nul_app
      by (apply head_free; [exact Hwf|reflexivity|discriminate..]).
    cbn [until_nul]. rewrite bool_decide_eq_false_2 by discriminate. reflexivity. }
  rewrite Hstr, (sscanf_head l _ Hwf).
  change (negb (2 =? 2)%Z && negb (2 =? 3)%Z) with false. cbv iota.
  destruct Hwf as (_ & _ & _ & _ & Hrsp & _ & Hmsp & _ & _).
  (* the end of the root *)
  rewrite (find_at data' (pre ++ head_of l ++ [SP]) (l_root l) SP
             (l_mount l ++ SP :: l_rest l ++ NUL :: post)
             (length pre + length (head_of l) + 1) last);
    [|unfold data', render; right_nested; reflexivity|lengths|exact Hlast'|exact Hrsp].
  destruct (Nat.eqb_spec (length pre + length (head_of l) + 1 + length (l_root l)) last)
    as [He|_].
  { rewrite Hlast' in He. revert He. unfold data', render. lengths. }
  (* the end of the mount point *)
  rewrite (find_at data' (pre ++ head_of l ++ SP :: l_root l ++ [SP]) (l_mount l) SP
             (l_rest l ++ NUL :: post)
             (length pre + length (head_of l) + 1 + length (l_root l) + 1) last);
    [|unfold data', render; right_nested; reflexivity|lengths|exact Hlast'|exact Hmsp].
  destruct (Nat.eqb_spec
              (length pre + length (head_of l) + 1 + length (l_root l) + 1
               + length (l_mount l)) last) as [He|_].
  { rewrite Hlast' in He. revert He. unfold data', render. lengths. }
  (* the mount point *)
  assert (Hsub : substring data'
                   (length pre + length (head_of l) + 1 + length (l_root l) + 1)
                   (length pre + length (head_of l) + 1 + length (l_root l) + 1
                    + length (l_mount l)) = l_mount l).
  { unfold substring.
    replace (length pre + length (head_of l) + 1 + length (l_root l) + 1)
      with (length (pre ++ head_of l ++ SP :: l_root l ++ [SP])) by lengths.
    replace (length (pre ++ head_of l ++ SP :: l_root l ++ [SP]) + length (l_mount l)
             - length (pre ++ head_of l ++ SP :: l_root l ++ [SP]))
      with (length (l_mount l)) by lia.
    replace data' with ((pre ++ head_of l ++ SP :: l_root l ++ [SP])
                          ++ l_mount l ++ SP :: l_rest l ++ NUL :: post)
      by (unfold data', render; right_nested; reflexivity).
    rewrite drop_app_length, take_app_length. reflexivity. }
  unfold unmangle_pathname_from_proc. rewrite Hsub.
  rewrite (unmangle_loop_spec (length (l_mount l))) by lia.
  destruct (decode_spec (l_mount l)); reflexivity.
Qed.

Lemma table_cons l lines : table (l :: lines) = render l ++ LF :: table lines.
Proof. unfold table. simpl. right_nested. reflexivity. Qed.

Lemma table_length lines : length lines <= length (table lines).
Proof.
  induction lines as [|l lines IH]; [reflexivity|].
  rewrite table_cons. revert IH. lengths.
Qed.

(** The parser on the lines of a well-formed table that are left,
    with a tail that has no line terminator. *)
Lemma parse_table tail : forall lines paths fuel pre result,
  LF ∉ tail -> Forall well_formed lines ->
  Forall2 (fun l decoded => decode_spec (l_mount l) = Some decoded) lines paths ->
  length lines < fuel ->
  parse_loop fuel (pre ++ table lines ++ tail) (length pre)
    (length (pre ++ table lines ++ tail)) result
  = Some (Returned (result ++ zip_with mount_of lines paths)).
Proof.
  intros lines paths fuel pre result Htail Hwf Hdec. revert fuel pre result Hwf.
  induction Hdec as [|l decoded lines paths Hl Hdec IH];
    intros fuel pre result Hwf Hf; (destruct fuel as [|fuel]; [cbn [length] in Hf; lia|]).
  - change (table [] ++ tail) with tail. cbn [parse_loop].
    rewrite (find_free _ pre tail LF _ _ eq_refl eq_refl eq_refl Htail).
    rewrite Nat.eqb_refl. cbn. rewrite app_nil_r. reflexivity.
  - apply Forall_cons in Hwf as [Hwl Hwf]. cbn [length] in Hf.
    rewrite (parse_line fuel pre l (table lines ++ tail) result _ _ Hwl)
      by (rewrite ?table_cons; right_nested; reflexivity).
    rewrite Hl.
    specialize (IH fuel (pre ++ render l ++ [NUL]) (result ++ [mount_of l decoded])
                  Hwf ltac:(lia)).
    replace (length pre + length (render l) + 1)
      with (length (pre ++ render l ++ [NUL])) by lengths.
    replace (length (pre ++ table (l :: lines) ++ tail))
      with (length ((pre ++ render l ++ [NUL]) ++ table lines ++ tail))
      by (rewrite table_cons; lengths).
    replace (pre ++ render l ++ NUL :: table lines ++ tail)
      with ((pre ++ render l ++ [NUL]) ++ table lines ++ tail)
      by (right_nested; reflexivity).
    rewrite IH. cbn [zip_with]. rewrite <- app_assoc. reflexivity.
Qed.

Lemma parse_table_error tail bad more : forall good paths fuel pre result,
  Forall well_formed good -> well_formed bad ->
  Forall2 (fun l decoded => decode_spec (l_mount l) = Some decoded) good paths ->
  decode_spec (l_mount bad) = None ->
  length good < fuel ->
  parse_loop fuel (pre ++ table (good ++ bad :: more) ++ tail) (length pre)
    (length (pre ++ table (good ++ bad :: more) ++ tail)) result
  = Some (Raised unmangle_error).
Proof.
  intros good paths fuel pre result Hwf Hwb Hdec Hbad. revert fuel pre result Hwf.
  induction Hdec as [|l decoded lines paths Hl Hdec IH];
    intros fuel pre result Hwf Hf; (destruct fuel as [|fuel]; [cbn [length] in Hf; lia|]).
  - cbn [app].
    rewrite (parse_line fuel pre bad (table more ++ tail) result _ _ Hwb)
      by (rewrite ?table_cons; right_nested; reflexivity).
    rewrite Hbad. reflexivity.
  - apply Forall_cons in Hwf as [Hwl Hwf]. cbn [length app] in *.
    rewrite (parse_line fuel pre l (table (lines ++ bad :: more) ++ tail) result _ _ Hwl)
      by (rewrite ?table_cons; right_nested; reflexivity).
    rewrite Hl.
    specialize (IH fuel (pre ++ render l ++ [NUL]) (result ++ [mount_of l decoded])
                  Hwf ltac:(lia)).
    replace (length pre + length (render l) + 1)
      with (length (pre ++ render l ++ [NUL])) by lengths.
    replace (length (pre ++ table (l :: lines ++ bad :: more) ++ tail))
      with (length ((pre ++ render l ++ [NUL]) ++ table (lines ++ bad :: more) ++ tail))
      by (rewrite table_cons; lengths).
    replace (pre ++ render l ++ NUL :: table (lines ++ bad :: more) ++ tail)
      with ((pre ++ render l ++ [NUL]) ++ table (lines ++ bad :: more) ++ tail)
      by (right_nested; reflexivity).
    exact IH.
Qed.

(** X9. On a table of well-formed lines whose mount points decode,
    followed by any text without a line terminator, the parser
    returns, in the order of the lines, the device made of the major
    and the minor number of each line with its decoded mount point.
    Each number counts as [sscanf] stores it: its decimal value when
    that is below [2^32], the value modulo [2^32] up to [2^64 - 1],
    and [2^32 - 1] for every larger one, as the conversion saturates
    at [2^64 - 1] before the store. The root, the fields behind the
    mount point and the unterminated text at the end have no effect;
    in particular a buffer without a line terminator gives no mount
    and no error. *)
Theorem parse_mountinfo_table (lines : list line) (paths : list bytes) (tail : bytes) :
  LF ∉ tail -> Forall well_formed lines ->
  Forall2 (fun l decoded => decode_spec (l_mount l) = Some decoded) lines paths ->
  parse_mountinfo (table lines ++ tail)
  = Some (Returned (zip_with mount_of lines paths))
  /\ parse_mountinfo tail = Some (Returned [])
  /\ (forall l decoded,
        mount_of l decoded
        = Mount (makedev (stored (l_major l)) (stored (l_minor l))) decoded)
  /\ (forall ds,
        ((0 <= decimal ds < 2 ^ 32)%Z -> stored ds = decimal ds)
        /\ ((0 <= decimal ds < 2 ^ 64)%Z -> stored ds = (decimal ds mod 2 ^ 32)%Z)
        /\ ((2 ^ 64 <= decimal ds)%Z -> stored ds = (2 ^ 32 - 1)%Z)).
Proof.
  intros Htail Hwf Hdec. unfold parse_mountinfo. split; [|split; [|split]].
  - apply (parse_table tail lines paths _ [] [] Htail Hwf Hdec).
    pose proof (table_length lines). lengths.
  - apply (parse_table tail [] [] _ [] [] Htail (List.Forall_nil _) (List.Forall2_nil _)).
    cbn [length]. lia.
  - reflexivity.
  - intros ds. unfold stored. split; [|split]; intros H.
    + rewrite Z.min_l by lia. apply Z.mod_small. lia.
    + rewrite Z.min_l by lia. reflexivity.
    + rewrite Z.min_r by lia. reflexivity.
Qed.

(** X10. When the mount point of a line of a well-formed table does
    not decode, the parser raises the decode error and returns none
    of the mounts of the lines before it. *)
Theorem parse_mountinfo_bad_escape (good : list line) (paths : list bytes)
    (bad : line) (more : list line) (tail : bytes) :
  Forall well_formed good -> well_formed bad ->
  Forall2 (fun l decoded => decode_spec (l_mount l) = Some decoded) good paths ->
  decode_spec (l_mount bad) = None ->
  parse_mountinfo (table (good ++ bad :: more) ++ tail) = Some (Raised unmangle_error).
Proof.
  intros Hwf Hwb Hdec Hbad. unfold parse_mountinfo.
  apply (parse_table_error tail bad more good paths _ [] [] Hwf Hwb Hdec Hbad).
  pose proof (table_length (good ++ bad :: more)) as Hlen.
  rewrite length_app in Hlen. cbn [length] in Hlen. lengths.
Qed.

Ltac not_in := let H := fresh in intros H; apply list_elem_of_In in H; simpl in H;
  intuition discriminate.
Ltac number :=
  split; [discriminate
         |repeat (apply List.Forall_cons; [reflexivity|]); apply List.Forall_nil].
Lemma line_disk_well_formed : well_formed line_disk.
Proof. unfold well_formed. repeat (split; [first [number|not_in]|]). not_in. Qed.

Lemma line_proc_well_formed : well_formed line_proc.
Proof. unfold well_formed. repeat (split; [first [number|not_in]|]). not_in. Qed.

Lemma line_bad_well_formed : well_formed line_bad.
Proof. unfold well_formed. repeat (split; [first [number|not_in]|]). not_in. Qed.

Lemma line_wide_well_formed : well_formed line_wide.
Proof. unfold well_formed. repeat (split; [first [number|not_in]|]). not_in. Qed.

Lemma parse_mountinfo_table_witness :
  parse_mountinfo (table [line_disk; line_proc; line_wide] ++ unterminated)
  = Some (Returned [Mount 2049 (lit "/mnt/my disk"); Mount 5 (lit "/proc");
                    Mount (makedev 0xffffffff 1) (lit "/wide")]).
Proof.
  apply (parse_mountinfo_table [line_disk; line_proc; line_wide]
           [lit "/mnt/my disk"; lit "/proc"; lit "/wide"] unterminated).
  - not_in.
  - apply List.Forall_cons; [exact line_disk_well_formed|].
    apply List.Forall_cons; [exact line_proc_well_formed|].
    apply List.Forall_cons; [exact line_wide_well_formed|apply List.Forall_nil].
  - apply List.Forall2_cons; [reflexivity|].
    apply List.Forall2_cons; [reflexivity|].
    apply List.Forall2_cons; [reflexivity|apply List.Forall2_nil].
Defined.

Lemma parse_mountinfo_bad_escape_witness :
  parse_mountinfo (table ([line_disk] ++ line_bad :: [line_proc]) ++ unterminated)
  = Some (Raised unmangle_error).
Proof.
  apply (parse_mountinfo_bad_escape [line_disk] [lit "/mnt/my disk"] line_bad
           [line_proc] unterminated).
  - apply List.Forall_cons; [exact line_disk_well_formed|apply List.Forall_nil].
  - exact line_bad_well_formed.
  - apply List.Forall2_cons; [reflexivity|apply List.Forall2_nil].
  - reflexivity.
Defined.

End MountTable.

(** ** Whole directory listings *)

Module Listing.
Import Scan Origin.

(** The entry of a [dirent] that is no dot entry and has a known type
    code. *)
Definition entry_of (de : dirent) : option directory_entry :=
  if is_dot de then None
  else match map_dirent_type_to_kind (d_type de) with
       | Returned kind => Some (DirectoryEntry (d_ino de) (d_name de) kind)
       | Raised _ => None
       end.

(** A [dirent] the scan gets past: a dot entry, or one of a known
    type code. *)
Definition passable (de : dirent) : Prop :=
  is_dot de = true \/ known_type (d_type de).

(** A [dirent] that is the directory of an inode. *)
Definition is_child (ino : Z) (de : dirent) : bool :=
  negb (is_dot de) && (d_type de =? DT_DIR)%Z && (d_ino de =? ino)%Z.

(** A directory with a regular file and a directory of the inode 7,
    and one where the type codes are not reported. *)
Definition typed_entries : list dirent :=
  [Dirent 2 DT_DIR (lit "."); Dirent 7 DT_REG (lit "f"); Dirent 7 DT_DIR (lit "d");
   Dirent 9 DT_DIR (lit "e")].

Definition untyped_entries : list dirent :=
  [Dirent 2 DT_UNKNOWN (lit "."); Dirent 7 DT_UNKNOWN (lit "d")].

(** *** Properties *)

Lemma passable_kind de :
  passable de -> is_dot de = false ->
  exists k, map_dirent_type_to_kind (d_type de) = Returned k.
Proof.
  intros [Hd|Hk] Hdot; [congruence|]. apply (proj1 (map_known _) Hk).
Qed.

Lemma omap_cons {A B} (f : A -> option B) x l :
  omap f (x :: l) = match f x with Some y => y :: omap f l | None => omap f l end.
Proof. reflexivity. Qed.

Lemma entry_of_dot de : is_dot de = true -> entry_of de = None.
Proof. intros H. unfold entry_of. rewrite H. reflexivity. Qed.

Lemma entry_of_kind de k :
  is_dot de = false -> map_dirent_type_to_kind (d_type de) = Returned k ->
  entry_of de = Some (DirectoryEntry (d_ino de) (d_name de) k).
Proof. intros H Hk. unfold entry_of. rewrite H, Hk. reflexivity. Qed.

Lemma collect_all : forall des acc n,
  Forall passable des ->
  scan_loop collect (map ReadEntry des) acc n
  = (Returned false, acc ++ omap entry_of des, S (n + length des)).
Proof.
  induction des as [|de des IH]; intros acc n Hall; cbn [map scan_loop length].
  - cbn. rewrite app_nil_r, Nat.add_0_r. reflexivity.
  - apply Forall_cons in Hall as [Hde Hall]. rewrite omap_cons.
    destruct (is_dot de) eqn:Hdot.
    + rewrite (entry_of_dot de Hdot), IH by exact Hall. f_equal. lia.
    + destruct (passable_kind de Hde Hdot) as [k Hk].
      rewrite (entry_of_kind de k Hdot Hk), Hk. cbn [collect].
      rewrite IH by exact Hall. rewrite <- app_assoc. f_equal. lia.
Qed.

Lemma collect_read_error rv post : forall pre acc n,
  Forall passable pre ->
  scan_loop collect (map ReadEntry pre ++ ReadError rv :: post) acc n
  = (Raised readdir_error, acc ++ omap entry_of pre, S (n + length pre)).
Proof.
  induction pre as [|de pre IH]; intros acc n Hall; cbn [map app scan_loop length].
  - cbn. rewrite app_nil_r, Nat.add_0_r. reflexivity.
  - apply Forall_cons in Hall as [Hde Hall]. rewrite omap_cons.
    destruct (is_dot de) eqn:Hdot.
    + rewrite (entry_of_dot de Hdot), IH by exact Hall. f_equal. lia.
    + destruct (passable_kind de Hde Hdot) as [k Hk].
      rewrite (entry_of_kind de k Hdot Hk), Hk. cbn [collect].
      rewrite IH by exact Hall. rewrite <- app_assoc. f_equal. lia.
Qed.

Lemma kind_of_dir t : known_type t ->
  (map_dirent_type_to_kind t = Returned directory <-> t = DT_DIR).
Proof.
  unfold known_type. intros H.
  repeat (apply elem_of_cons in H as [->|H]; [split; [discriminate || reflexivity|
                                                     discriminate || reflexivity]|]).
  apply elem_of_nil in H. contradiction.
Qed.

Lemma match_child_skip ino de names k :
  is_dot de = false -> known_type (d_type de) -> is_child ino de = false ->
  map_dirent_type_to_kind (d_type de) = Returned k ->
  match_child ino names (DirectoryEntry (d_ino de) (d_name de) k) = (names, false).
Proof.
  intros Hdot Hknown Hchild Hk. unfold match_child, is_child in *. cbn [type inode].
  rewrite Hdot in Hchild. cbn [negb andb] in Hchild.
  destruct (bool_decide_reflect (k = directory)) as [->|Hne]; [|reflexivity].
  apply (kind_of_dir _ Hknown) in Hk. rewrite Hk, Z.eqb_refl in Hchild.
  cbn [negb andb] in *. rewrite Hchild. reflexivity.
Qed.

Lemma match_child_none ino : forall des names n,
  Forall passable des -> Forall (fun de => is_child ino de = false) des ->
  scan_loop (match_child ino) (map ReadEntry des) names n
  = (Returned false, names, S (n + length des)).
Proof.
  induction des as [|de des IH]; intros names n Hall Hno; cbn [map scan_loop length].
  - rewrite Nat.add_0_r. reflexivity.
  - apply Forall_cons in Hall as [Hde Hall]. apply Forall_cons in Hno as [Hn Hno].
    destruct (is_dot de) eqn:Hdot.
    + rewrite IH by assumption. f_equal. lia.
    + destruct Hde as [?|Hknown]; [congruence|].
      destruct (proj1 (map_known _) Hknown) as [k Hk]. rewrite Hk.
      rewrite (match_child_skip ino de names k Hdot Hknown Hn Hk).
      rewrite IH by assumption. f_equal. lia.
Qed.

Lemma match_child_first ino de post : forall pre names n,
  Forall passable pre -> Forall (fun d => is_child ino d = false) pre ->
  is_child ino de = true ->
  scan_loop (match_child ino) (map ReadEntry pre ++ ReadEntry de :: post) names n
  = (Returned true, names ++ [d_name de], S (n + length pre)).
Proof.
  induction pre as [|d pre IH]; intros names n Hall Hno Hde;
    cbn [map app scan_loop length].
  - unfold is_child in Hde. apply andb_true_iff in Hde as [Hde Hino].
    apply andb_true_iff in Hde as [Hdot Htype].
    apply negb_true_iff in Hdot. apply Z.eqb_eq in Htype, Hino.
    rewrite Hdot, Htype. change (map_dirent_type_to_kind DT_DIR) with (Returned directory).
    unfold match_child. cbn [type inode name].
    rewrite bool_decide_eq_true_2 by reflexivity. rewrite Hino, Z.eqb_refl.
    cbn [negb]. rewrite Nat.add_0_r. reflexivity.
  - apply Forall_cons in Hall as [Hd Hall]. apply Forall_cons in Hno as [Hn Hno].
    destruct (is_dot d) eqn:Hdot.
    + rewrite IH by assumption. f_equal. lia.
    + destruct Hd as [?|Hknown]; [congruence|].
      destruct (proj1 (map_known _) Hknown) as [k Hk]. rewrite Hk.
      rewrite (match_child_skip ino d names k Hdot Hknown Hn Hk).
      rewrite IH by assumption. f_equal. lia.
Qed.

(** X11. The collecting form on a directory that is read without an
    error and has known type codes returns the entries of all its
    names but the two dot names, each once and in the order in which
    they are read, after one call of [readdir_r] for every name and
    one for the end. *)
Theorem scan_directory_all_complete (des : list dirent) :
  Forall passable des ->
  scan_directory_all (Some (map ReadEntry des)) = Returned (omap entry_of des)
  /\ scan_directory collect (Some (map ReadEntry des)) []
     = (Returned false, omap entry_of des, S (length des)).
Proof.
  intros Hall. unfold scan_directory_all, scan_directory.
  rewrite (collect_all des [] 0 Hall). split; reflexivity.
Qed.

Lemma scan_directory_all_complete_witness :
  scan_directory_all (Some (map ReadEntry typed_entries))
  = Returned [DirectoryEntry 7 (lit "f") regular_file;
              DirectoryEntry 7 (lit "d") directory;
              DirectoryEntry 9 (lit "e") directory].
Proof.
  apply (scan_directory_all_complete typed_entries).
  repeat (apply List.Forall_cons;
          [first [left; reflexivity | right; apply list_elem_of_In; simpl; tauto]|]).
  apply List.Forall_nil.
Defined.

(** X12. When [readdir_r] fails, the collecting form raises the read
    error and the entries read before are not returned; no further
    name is read. When [fdopendir] fails, the open error is raised,
    the visitor is not called and nothing is read. *)
Theorem scan_directory_read_error (pre : list dirent) (rv : Z)
    (post : list readdir_result) :
  Forall passable pre ->
  scan_directory_all (Some (map ReadEntry pre ++ ReadError rv :: post))
  = Raised readdir_error
  /\ snd (scan_directory collect (Some (map ReadEntry pre ++ ReadError rv :: post)) [])
     = S (length pre)
  /\ (forall St (visitor : St -> directory_entry -> St * bool) st,
        scan_directory visitor None st = (Raised opendir_error, st, 0)).
Proof.
  intros Hall. unfold scan_directory_all, scan_directory.
  rewrite (collect_read_error rv post pre [] 0 Hall). repeat split.
Qed.

Lemma scan_directory_read_error_witness :
  scan_directory_all (Some (map ReadEntry typed_entries ++ [ReadError 5]))
  = Raised readdir_error.
Proof.
  apply (scan_directory_read_error typed_entries 5 []).
  repeat (apply List.Forall_cons;
          [first [left; reflexivity | right; apply list_elem_of_In; simpl; tauto]|]).
  apply List.Forall_nil.
Defined.

(** X13. The scan with which [location] looks for a directory in its
    parent stops at the first name that is read as a directory with
    the inode looked for, and adds that name; names of another kind
    or inode, and names whose type code is not reported, are passed
    over, and when no name matches the scan returns false, having
    read the whole directory, and adds nothing. *)
Theorem match_child_scan (ino : Z) (names : list bytes) :
  (forall pre de post,
      Forall passable pre -> Forall (fun d => is_child ino d = false) pre ->
      is_child ino de = true ->
      scan_directory (match_child ino)
        (Some (map ReadEntry pre ++ ReadEntry de :: post)) names
      = (Returned true, names ++ [d_name de], S (length pre)))
  /\ (forall des,
        Forall passable des -> Forall (fun d => is_child ino d = false) des ->
        scan_directory (match_child ino) (Some (map ReadEntry des)) names
        = (Returned false, names, S (length des)))
  /\ (forall de, d_type de = DT_UNKNOWN -> is_child ino de = false).
Proof.
  split; [|split].
  - intros pre de post Hall Hno Hde. apply (match_child_first ino de post pre names 0);
      assumption.
  - intros des Hall Hno. apply (match_child_none ino des names 0); assumption.
  - intros de Ht. unfold is_child. rewrite Ht. rewrite andb_false_r. reflexivity.
Qed.

Lemma match_child_scan_witness :
  scan_directory (match_child 7)
    (Some (map ReadEntry (take 2 typed_entries)
           ++ ReadEntry (Dirent 7 DT_DIR (lit "d")) :: map ReadEntry (drop 3 typed_entries)))
    []
  = (Returned true, [] ++ [lit "d"], 3)
  /\ scan_directory (match_child 7) (Some (map ReadEntry untyped_entries)) []
     = (Returned false, [], 3).
Proof.
  split.
  - apply (proj1 (match_child_scan 7 [])).
    + repeat (apply List.Forall_cons;
              [first [left; reflexivity | right; apply list_elem_of_In; simpl; tauto]|]).
      apply List.Forall_nil.
    + repeat (apply List.Forall_cons; [reflexivity|]). apply List.Forall_nil.
    + reflexivity.
  - apply (proj1 (proj2 (match_child_scan 7 []))).
    + repeat (apply List.Forall_cons;
              [first [left; reflexivity | right; apply list_elem_of_In; simpl; tauto]|]).
      apply List.Forall_nil.
    + repeat (apply List.Forall_cons; [reflexivity|]). apply List.Forall_nil.
Defined.

End Listing.

(** ** Kinds of files ([to_string], [stats::is_kind]) *)

Module Kinds.
Import Scan.

(** The file type bits of [<sys/stat.h>]. *)
Definition S_IFMT : Z := 0xF000.
Definition S_IFSOCK : Z := 0xC000.
Definition S_IFLNK : Z := 0xA000.
Definition S_IFREG : Z := 0x8000.
Definition S_IFBLK : Z := 0x6000.
Definition S_IFDIR : Z := 0x4000.
Definition S_IFCHR : Z := 0x2000.
Definition S_IFIFO : Z := 0x1000.

Definition S_ISBLK (mode : Z) : bool := (Z.land mode S_IFMT =? S_IFBLK)%Z.
Definition S_ISCHR (mode : Z) : bool := (Z.land mode S_IFMT =? S_IFCHR)%Z.
Definition S_ISDIR (mode : Z) : bool := (Z.land mode S_IFMT =? S_IFDIR)%Z.
Definition S_ISFIFO (mode : Z) : bool := (Z.land mode S_IFMT =? S_IFIFO)%Z.
Definition S_ISLNK (mode : Z) : bool := (Z.land mode S_IFMT =? S_IFLNK)%Z.
Definition S_ISREG (mode : Z) : bool := (Z.land mode S_IFMT =? S_IFREG)%Z.
Definition S_ISSOCK (mode : Z) : bool := (Z.land mode S_IFMT =? S_IFSOCK)%Z.

Definition bad_kind_error : exception := runtime "fs-bad-kind-error".

(** [up_fs::to_string(fs::kind)]. *)
Definition to_string (value : kind) : string :=
  match value with
  | block_device => "block-device"
  | character_device => "character-device"
  | directory => "directory"
  | named_pipe => "named-pipe"
  | symbolic_link => "symbolic-link"
  | regular_file => "regular-file"
  | socket => "socket"
  | unknown => "unknown"
  end.

(** [stats::is_kind] on the [st_mode] of the snapshot. The [switch]
    returns or raises in each of its cases, the loop behind it is
    never reached. *)
Definition is_kind (st_mode : Z) (value : kind) : outcome bool :=
  match value with
  | block_device => Returned (S_ISBLK st_mode)
  | character_device => Returned (S_ISCHR st_mode)
  | directory => Returned (S_ISDIR st_mode)
  | named_pipe => Returned (S_ISFIFO st_mode)
  | symbolic_link => Returned (S_ISLNK st_mode)
  | regular_file => Returned (S_ISREG st_mode)
  | socket => Returned (S_ISSOCK st_mode)
  | unknown => Raised bad_kind_error
  end.

Definition kinds : list kind :=
  [block_device; character_device; directory; named_pipe; symbolic_link;
   regular_file; socket; unknown].

(** *** Properties *)

(** X14. [is_kind] raises for the kind unknown, whatever the mode,
    and never answers that question; for the seven other kinds it
    returns, and at most one of them is the kind of a mode. *)
Theorem is_kind_exclusive (st_mode : Z) :
  is_kind st_mode unknown = Raised bad_kind_error
  /\ (forall k, k <> unknown -> exists b, is_kind st_mode k = Returned b)
  /\ (forall k1 k2,
        is_kind st_mode k1 = Returned true -> is_kind st_mode k2 = Returned true ->
        k1 = k2).
Proof.
  split; [reflexivity|]. split.
  - intros k Hk. destruct k; try contradiction; eexists; reflexivity.
  - intros k1 k2 H1 H2.
    destruct k1; try discriminate H1; destruct k2; try discriminate H2;
      try reflexivity; exfalso;
      injection H1 as H1; injection H2 as H2;
      unfold S_ISBLK, S_ISCHR, S_ISDIR, S_ISFIFO, S_ISLNK, S_ISREG, S_ISSOCK in *;
      apply Z.eqb_eq in H1, H2; rewrite H1 in H2; discriminate H2.
Qed.

Lemma is_kind_exclusive_witness :
  directory = directory.
Proof.
  apply (proj2 (proj2 (is_kind_exclusive 0x41ED)) directory directory); reflexivity.
Defined.

(** X15. The mapping of the type codes is one to one between the
    eight codes and the eight kinds: two known codes with the same
    kind are the same code and every kind is the kind of a code; and
    the names of two different kinds are different. *)
Theorem kinds_one_to_one :
  (forall t1 t2 k,
      map_dirent_type_to_kind t1 = Returned k ->
      map_dirent_type_to_kind t2 = Returned k -> t1 = t2)
  /\ (forall k, exists t, known_type t /\ map_dirent_type_to_kind t = Returned k)
  /\ (forall k1 k2, to_string k1 = to_string k2 -> k1 = k2).
Proof.
  split; [|split].
  - intros t1 t2 k H1 H2.
    destruct (decide (known_type t1)) as [K1|K1];
      [|rewrite (proj2 (map_known t1) K1) in H1; discriminate].
    destruct (decide (known_type t2)) as [K2|K2];
      [|rewrite (proj2 (map_known t2) K2) in H2; discriminate].
    unfold known_type in K1, K2.
    repeat (apply elem_of_cons in K1 as [->|K1];
            [repeat (apply elem_of_cons in K2 as [->|K2];
                     [first [reflexivity
                            |injection H1 as <-; discriminate H2]|]);
             apply elem_of_nil in K2; contradiction|]).
    apply elem_of_nil in K1. contradiction.
  - intros k.
    destruct k;
      [exists DT_BLK|exists DT_CHR|exists DT_DIR|exists DT_FIFO|exists DT_LNK
      |exists DT_REG|exists DT_SOCK|exists DT_UNKNOWN];
      (split; [apply list_elem_of_In; simpl; tauto|reflexivity]).
  - intros k1 k2 H. destruct k1, k2; first [reflexivity|discriminate H].
Qed.

Lemma kinds_one_to_one_witness : DT_DIR = 4%Z.
Proof.
  apply (proj1 kinds_one_to_one DT_DIR 4%Z directory); reflexivity.
Defined.

End Kinds.

(** ** Opening, the working directory and link targets *)

Module Opening.
Import Origin.

(** [context::context(name)]: the flags every open gets, and no
    suppression of the access time. *)
Definition default_context (name : bytes) : context :=
  Context name (Z.lor (Z.lor O_CLOEXEC O_NOCTTY) O_NONBLOCK) false.

(** An event is a call of [::openat] on a directory and a name, with
    flags that contain all of [required]. *)
Definition opens (dir_fd : Z) (pathname : bytes) (required : Z) (ev : event) : Prop :=
  exists flags, ev = EvOpenat dir_fd pathname flags
                /\ Z.land flags required = required.

(** The sizes of the buffers tried by [getcwd] and by [readlink]. *)
Definition buffer_sizes : list nat := map (fun i => 2 ^ i) (seq 8 9).

Definition readlink_error : exception := runtime "fs-readlink-error".

Section Readlink.
(** [::readlinkat] on the path with a buffer of a size: [errno], or
    the bytes it has put into the buffer. *)
Variable sys_readlinkat : nat -> Z + bytes.

(** The [for] loop of [path::impl::readlink], with the number of
    calls of [::readlinkat]. *)
Fixpoint readlink_loop (sizes : list nat) (calls : nat) : outcome bytes * nat :=
  match sizes with
  | [] => (Raised readlink_error, calls)
  | size :: sizes' =>
      match sys_readlinkat size with
      | inl errno => (Raised readlink_error, S calls)
      | inr content =>
          if length content <? size then (Returned content, S calls)
          else readlink_loop sizes' (S calls)
      end
  end.

(** [path::impl::readlink]. *)
Definition readlink : outcome bytes * nat := readlink_loop buffer_sizes 0.
End Readlink.

(** A system whose working directory is [cwd]: [::getcwd] succeeds
    when the buffer holds the directory and its terminator. *)
Definition getcwd_of (cwd : bytes) (size : nat) : Z + bytes :=
  if length cwd <? size then inr cwd else inl ERANGE.

(** A symbolic link with a target: [::readlinkat] fills the buffer
    with as much of the target as fits. *)
Definition readlinkat_of (target : bytes) (size : nat) : Z + bytes :=
  inr (take size target).

(** The sizes that are tried for a text of a length: up to the first
    one that is larger. *)
Fixpoint tried (len : nat) (sizes : list nat) : list nat :=
  match sizes with
  | [] => []
  | size :: sizes' => if len <? size then [size] else size :: tried len sizes'
  end.

(** *** Properties *)

Lemma land_lor_r a b : Z.land (Z.lor a b) b = b.
Proof.
  apply Z.bits_inj'. intros n Hn. rewrite Z.land_spec, Z.lor_spec.
  destruct (Z.testbit a n), (Z.testbit b n); reflexivity.
Qed.

Lemma land_lor_l a b : Z.land (Z.lor a b) a = a.
Proof. rewrite Z.lor_comm. apply land_lor_r. Qed.

Lemma land_lor_keep a b c : Z.land a c = c -> Z.land (Z.lor a b) c = c.
Proof.
  intros H. apply Z.bits_inj'. intros n Hn.
  apply (f_equal (fun z => Z.testbit z n)) in H. revert H.
  rewrite !Z.land_spec, Z.lor_spec.
  destruct (Z.testbit a n), (Z.testbit b n), (Z.testbit c n); simpl; congruence.
Qed.

(** X16. Every call of [::openat] that [context::openat] makes is on
    the directory and the name it was given, with flags that contain
    the flags asked for and the additional flags of the context. It
    makes one call or two, and the second one only after the attempt
    with the access-time suppression was refused with [EPERM]; a
    context that does not suppress the access time makes exactly one
    call, the one whose outcome it reports. *)
Theorem openat_calls (sys_openat : Z -> bytes -> Z -> Z + Z)
    (ctx : context) (dir_fd : Z) (pathname : bytes) (flags : Z) (log : list event) :
  exists r evs,
    openat sys_openat ctx dir_fd pathname flags log = Some (r, log ++ evs)
    /\ Forall (opens dir_fd pathname (Z.lor flags (additional_open_flags ctx))) evs
    /\ (length evs = 1
        \/ (length evs = 2
            /\ sys_openat dir_fd pathname
                 (Z.lor (Z.lor flags (additional_open_flags ctx)) O_NOATIME)
               = inl EPERM))
    /\ (avoid_access_time ctx = false ->
        evs = [EvOpenat dir_fd pathname (Z.lor flags (additional_open_flags ctx))]
        /\ r = match sys_openat dir_fd pathname
                       (Z.lor flags (additional_open_flags ctx)) with
               | inr fd => Returned fd
               | inl _ => Raised (runtime "fs-open-error")
               end).
Proof.
  set (f := Z.lor flags (additional_open_flags ctx)).
  assert (Hplain : opens dir_fd pathname f (EvOpenat dir_fd pathname f)).
  { exists f. split; [reflexivity|apply Z.land_diag]. }
  assert (Hatime : opens dir_fd pathname f (EvOpenat dir_fd pathname (Z.lor f O_NOATIME))).
  { exists (Z.lor f O_NOATIME). split; [reflexivity|apply land_lor_l]. }
  unfold openat. fold f. unfold bind, emit, ret, raise.
  destruct (avoid_access_time ctx) eqn:Havoid; cbn [andb].
  - destruct (Z.land f O_NOATIME =? 0)%Z.
    + destruct (sys_openat dir_fd pathname (Z.lor f O_NOATIME)) as [errno|fd] eqn:H1.
      * destruct (Z.eqb_spec errno EPERM) as [->|Hne]; cbn [negb].
        -- destruct (sys_openat dir_fd pathname f) as [e2|fd2]; eexists _, [_; _];
             (split; [rewrite <- app_assoc; reflexivity|]);
             (split; [repeat constructor; assumption|]);
             (split; [right; split; reflexivity|discriminate]).
        -- eexists _, [_]. split; [reflexivity|].
           split; [repeat constructor; assumption|].
           split; [left; reflexivity|discriminate].
      * eexists _, [_]. split; [reflexivity|].
        split; [repeat constructor; assumption|].
        split; [left; reflexivity|discriminate].
    + destruct (sys_openat dir_fd pathname f); eexists _, [_];
        (split; [reflexivity|]); (split; [repeat constructor; assumption|]);
        (split; [left; reflexivity|discriminate]).
  - destruct (sys_openat dir_fd pathname f); eexists _, [_];
      (split; [reflexivity|]); (split; [repeat constructor; assumption|]);
      (split; [left; reflexivity|intros _; split; reflexivity]).
Qed.

Lemma openat_calls_witness :
  exists r evs,
    openat (fun _ _ _ => inr 3%Z) (default_context (lit "c")) AT_FDCWD (lit "f")
      O_RDONLY [] = Some (r, [] ++ evs)
    /\ evs = [EvOpenat AT_FDCWD (lit "f")
                (Z.lor O_RDONLY (additional_open_flags (default_context (lit "c"))))].
Proof.
  destruct (openat_calls (fun _ _ _ => inr 3%Z) (default_context (lit "c")) AT_FDCWD
              (lit "f") O_RDONLY []) as (r & evs & Hrun & _ & _ & Hone).
  exists r, evs. split; [exact Hrun|]. apply Hone. reflexivity.
Defined.

Lemma buffer_sizes_fit len :
  existsb (fun size => len <? size) buffer_sizes = (len <? 2 ^ 16).
Proof.
  unfold buffer_sizes. cbn [map seq existsb].
  assert (H : forall i j, i <= j -> 2 ^ i <= 2 ^ j)
    by (intros i j Hij; apply Nat.pow_le_mono_r; lia).
  pose proof (H 8 16 ltac:(lia)). pose proof (H 9 16 ltac:(lia)).
  pose proof (H 10 16 ltac:(lia)). pose proof (H 11 16 ltac:(lia)).
  pose proof (H 12 16 ltac:(lia)). pose proof (H 13 16 ltac:(lia)).
  pose proof (H 14 16 ltac:(lia)). pose proof (H 15 16 ltac:(lia)).
  destruct (Nat.ltb_spec len (2 ^ 16)) as [Hlt|Hge].
  - rewrite !orb_true_r. reflexivity.
  - rewrite orb_false_r.
    repeat match goal with
           | |- context [len <? 2 ^ ?k] =>
               destruct (Nat.ltb_spec len (2 ^ k)); [lia|]
           end.
    reflexivity.
Qed.

Lemma tried_length len sizes : length (tried len sizes) <= length sizes.
Proof.
  induction sizes as [|size sizes IH]; simpl; [lia|].
  destruct (len <? size); simpl; lia.
Qed.

Lemma getcwd_loop_of cwd : forall sizes log,
  getcwd_loop (getcwd_of cwd) sizes log
  = Some (if existsb (fun size => length cwd <? size) sizes
          then Returned cwd else Raised (runtime "fs-getcwd-error"),
          log ++ map EvGetcwd (tried (length cwd) sizes)).
Proof.
  induction sizes as [|size sizes IH]; intros log; cbn [getcwd_loop existsb tried].
  - unfold raise. rewrite app_nil_r. reflexivity.
  - unfold bind, emit, getcwd_of. destruct (length cwd <? size); cbn.
    + reflexivity.
    + change (ERANGE =? ERANGE)%Z with true. cbn [negb].
      rewrite IH, <- app_assoc. reflexivity.
Qed.

(** X17. In a process with a working directory, [getcwd] returns the
    directory when it is shorter than [2^16] bytes, after calls with
    growing buffers up to the first one that holds it, and raises
    after having tried the nine buffers when the directory is longer.
    An error other than the one for a short buffer is raised at once,
    after one call. *)
Theorem getcwd_bounds (cwd : bytes) (log : list event) :
  (length cwd < 2 ^ 16 ->
   getcwd (getcwd_of cwd) log
   = Some (Returned cwd, log ++ map EvGetcwd (tried (length cwd) buffer_sizes)))
  /\ (2 ^ 16 <= length cwd ->
      getcwd (getcwd_of cwd) log
      = Some (Raised (runtime "fs-getcwd-error"), log ++ map EvGetcwd buffer_sizes))
  /\ (forall sys_getcwd errno,
        sys_getcwd (2 ^ 8) = inl errno -> errno <> ERANGE ->
        getcwd sys_getcwd log
        = Some (Raised (runtime "fs-getcwd-error"), log ++ [EvGetcwd (2 ^ 8)])).
Proof.
  split; [|split].
  - intros Hlt. unfold getcwd. fold buffer_sizes.
    rewrite getcwd_loop_of, buffer_sizes_fit.
    destruct (Nat.ltb_spec (length cwd) (2 ^ 16)); [reflexivity|lia].
  - intros Hge. unfold getcwd. fold buffer_sizes.
    rewrite getcwd_loop_of, buffer_sizes_fit.
    destruct (Nat.ltb_spec (length cwd) (2 ^ 16)); [lia|].
    assert (Hall : forall sizes, Forall (fun size => size <= length cwd) sizes ->
                                 tried (length cwd) sizes = sizes).
    { induction 1 as [|size sizes Hs _ IH]; [reflexivity|]. cbn [tried].
      destruct (Nat.ltb_spec (length cwd) size); [lia|]. rewrite IH. reflexivity. }
    rewrite Hall; [reflexivity|].
    unfold buffer_sizes. apply Forall_forall. intros size Hin.
    apply list_elem_of_fmap in Hin as (i & -> & Hi). apply elem_of_seq in Hi.
    assert (Hi16 : i <= 16) by lia.
    apply Nat.le_trans with (2 ^ 16); [|exact Hge].
    apply Nat.pow_le_mono_r; [discriminate|exact Hi16].
  - intros sys_getcwd errno Hsys Hne. unfold getcwd. cbn [map seq getcwd_loop].
    unfold bind, emit. rewrite Hsys. cbv beta iota.
    destruct (Z.eqb_spec errno ERANGE); [contradiction|]. reflexivity.
Qed.

Lemma getcwd_bounds_witness :
  getcwd (getcwd_of (lit "/home/u")) []
  = Some (Returned (lit "/home/u"),
          [] ++ map EvGetcwd (tried (length (lit "/home/u")) buffer_sizes)).
Proof.
  apply (proj1 (getcwd_bounds (lit "/home/u") [])).
  apply Nat.lt_le_trans with (2 ^ 3); [simpl; lia|apply Nat.pow_le_mono_r; lia].
Defined.

Lemma readlink_loop_of target : forall sizes calls,
  readlink_loop (readlinkat_of target) sizes calls
  = (if existsb (fun size => length target <? size) sizes
     then Returned target else Raised readlink_error,
     calls + length (tried (length target) sizes)).
Proof.
  induction sizes as [|size sizes IH]; intros calls;
    cbn [readlink_loop existsb tried]; [rewrite Nat.add_0_r; reflexivity|].
  unfold readlinkat_of. rewrite length_take.
  destruct (Nat.ltb_spec (length target) size) as [Hlt|Hge].
  - destruct (Nat.ltb_spec (size `min` length target) size); [|lia].
    rewrite take_ge by lia. cbn [orb length]. f_equal. lia.
  - destruct (Nat.ltb_spec (size `min` length target) size); [lia|].
    rewrite IH. cbn [orb length]. f_equal. lia.
Qed.

(** X18. For a symbolic link with a target, [readlink] returns the
    whole target when it is shorter than [2^16] bytes and raises when
    it is longer; it never returns a target cut off at the size of a
    buffer. An error of [::readlinkat] is raised at the first call. *)
Theorem readlink_bounds (target : bytes) :
  (length target < 2 ^ 16 -> fst (readlink (readlinkat_of target)) = Returned target)
  /\ (2 ^ 16 <= length target ->
      fst (readlink (readlinkat_of target)) = Raised readlink_error)
  /\ (forall r, fst (readlink (readlinkat_of target)) = Returned r -> r = target)
  /\ snd (readlink (readlinkat_of target)) <= 9
  /\ (forall sys_readlinkat errno,
        sys_readlinkat (2 ^ 8) = inl errno ->
        readlink sys_readlinkat = (Raised readlink_error, 1)).
Proof.
  unfold readlink. rewrite readlink_loop_of, buffer_sizes_fit. cbn [fst snd].
  split; [|split; [|split; [|split]]].
  - intros Hlt. destruct (Nat.ltb_spec (length target) (2 ^ 16)); [reflexivity|lia].
  - intros Hge. destruct (Nat.ltb_spec (length target) (2 ^ 16)); [lia|reflexivity].
  - intros r. destruct (length target <? 2 ^ 16); [congruence|discriminate].
  - pose proof (tried_length (length target) buffer_sizes) as H.
    unfold buffer_sizes in H at 2. rewrite length_map, length_seq in H. lia.
  - intros sys_readlinkat errno Hsys. unfold buffer_sizes. cbn [map seq readlink_loop].
    rewrite Hsys. reflexivity.
Qed.

Lemma readlink_bounds_witness :
  fst (readlink (readlinkat_of (lit "../target"))) = Returned (lit "../target").
Proof.
  apply (proj1 (readlink_bounds (lit "../target"))).
  apply Nat.lt_le_trans with (2 ^ 4); [simpl; lia|apply Nat.pow_le_mono_r; lia].
Defined.

End Opening.

(** ** Descriptors in pipes and scans *)

Module Descriptors.
Import Handle Scan.

Definition pipe_error : exception := runtime "fs-pipe-error".

Section Calls.
Variable sys_close : Z -> Z.
(** The return value of [::closedir] on the stream of a descriptor. *)
Variable sys_closedir : Z -> Z.

(** [handle(fd).swap(h)] with the temporary destroyed at the end of
    the statement. *)
Definition install (fd : Z) (h : nat) (w : world) : option world :=
  let temporary := length (objects w) in
  w ← exec sys_close (Construct fd) w;
  w ← exec sys_close (Swap temporary h) w;
  exec sys_close (Destroy temporary) w.

(** [context::impl::pipe(read, write)]; [sys_pipe2] answers the call
    of [::pipe2] with its flags: [errno], or the two descriptors. *)
Definition pipe (sys_pipe2 : Z -> Z + Z * Z) (additional_open_flags : Z)
    (read write : nat) (w : world) : option (outcome unit * world) :=
  match sys_pipe2 (Z.land additional_open_flags O_CLOEXEC) with
  | inl errno => Some (Raised pipe_error, w)
  | inr (fd0, fd1) =>
      w ← install fd0 read w;
      w ← install fd1 write w;
      Some (Returned tt, w)
  end.

(** [scan_directory(handle, visitor)] on the handle object [h]: the
    outcome, the state of the visitor, the world, and the descriptors
    that [closedir] has closed. After [fdopendir] the stream owns the
    descriptor: the handle releases it and [closedir], deferred to
    the end of the scope, closes it; the process is terminated when
    [closedir] fails. *)
Definition scan_handle {St : Type} (visitor : St -> directory_entry -> St * bool)
    (sys_fdopendir : Z -> option (list readdir_result)) (h : nat) (st : St)
    (w : world) : option (outcome bool * St * world * list Z) :=
  fd ← get w h;
  match sys_fdopendir fd with
  | None => Some (Raised opendir_error, st, w, [])
  | Some stream =>
      w ← exec sys_close (Release h) w;
      let '(r, st, _) := scan_loop visitor stream st 0 in
      let rv := sys_closedir fd in
      let w := World (objects w) (placed w) (closed w) (released w)
                     (if decide (rv ≠ 0%Z) then true else terminated w) in
      Some (r, st, w, [fd])
  end.

(** A scan of a descriptor in a temporary handle, as in
    [path::impl::list]: the temporary is destroyed when the scan has
    returned or raised. *)
Definition scan_temporary {St : Type} (visitor : St -> directory_entry -> St * bool)
    (sys_fdopendir : Z -> option (list readdir_result)) (fd : Z) (st : St)
    (w : world) : option (outcome bool * St * world * list Z) :=
  let temporary := length (objects w) in
  w ← exec sys_close (Construct fd) w;
  '(r, st, w, closedirs) ← scan_handle visitor sys_fdopendir temporary st w;
  w ← exec sys_close (Destroy temporary) w;
  Some (r, st, w, closedirs).

(** The flags with which [unique_handle] opens the directory anew. *)
Definition unique_flags : Z := Z.lor (Z.lor O_RDONLY O_DIRECTORY) O_NOFOLLOW.

(** [scan_directory(_impl->unique_handle(movable), visitor)] of
    [directory::list] on the handle object [h] of the directory: the
    scan gets a temporary handle that is moved from [h] when
    [movable], and that holds a descriptor opened on the name [.] in
    the directory otherwise. *)
Definition scan_unique {St : Type} (visitor : St -> directory_entry -> St * bool)
    (sys_openat : Z -> bytes -> Z -> Z + Z)
    (sys_fdopendir : Z -> option (list readdir_result)) (ctx : Origin.context)
    (movable : bool) (h : nat) (st : St) (w : world)
  : option (outcome bool * St * world * list Z) :=
  if movable then
    let temporary := length (objects w) in
    w ← exec sys_close (MoveConstruct h) w;
    '(r, st, w, closedirs) ← scan_handle visitor sys_fdopendir temporary st w;
    w ← exec sys_close (Destroy temporary) w;
    Some (r, st, w, closedirs)
  else
    fd ← get w h;
    match Origin.openat sys_openat ctx fd (lit ".") unique_flags [] with
    | None => None
    | Some (Raised e, _) => Some (Raised e, st, w, [])
    | Some (Returned fd', _) => scan_temporary visitor sys_fdopendir fd' st w
    end.
End Calls.

(** The descriptor of a handle that is closed when the handle gives
    it up: none when the handle is empty. *)
Definition given_up (fd : Z) : list Z := if decide (fd = (-1)%Z) then [] else [fd].

(** *** Properties *)

Section Steps.
Variable sys_close : Z -> Z.

Lemma exec_construct objs pl cl rel fd :
  exec sys_close (Construct fd) (World objs pl cl rel false)
  = Some (World (objs ++ [Some fd]) (pl ++ [fd]) cl rel false).
Proof. reflexivity. Qed.

Lemma exec_swap objs pl cl rel lhs rhs a b :
  objs !! lhs = Some (Some a) -> objs !! rhs = Some (Some b) ->
  exec sys_close (Swap lhs rhs) (World objs pl cl rel false)
  = Some (World (<[rhs := Some a]> (<[lhs := Some b]> objs)) pl cl rel false).
Proof.
  intros Ha Hb. unfold exec, swap, get. cbn [terminated objects].
  rewrite Ha, Hb. reflexivity.
Qed.

Lemma exec_destroy objs pl cl rel h a :
  objs !! h = Some (Some a) -> (a <> (-1)%Z -> sys_close a = 0%Z) ->
  exec sys_close (Destroy h) (World objs pl cl rel false)
  = Some (World (<[h := None]> objs) pl (cl ++ given_up a) rel false).
Proof.
  intros Ha Hclose. unfold exec, destroy, close, get, given_up.
  cbn [terminated objects]. rewrite Ha. cbn [mbind option_bind].
  destruct (decide (a ≠ (-1)%Z)) as [Hne|He].
  - rewrite (decide_False (P := a = (-1)%Z)) by exact Hne.
    cbn. rewrite (Hclose Hne), list_insert_insert_eq. reflexivity.
  - assert (a = (-1)%Z) as -> by (destruct (decide (a = (-1)%Z)); tauto).
    cbn. rewrite app_nil_r. reflexivity.
Qed.

Lemma exec_release objs pl cl rel h a :
  objs !! h = Some (Some a) ->
  exec sys_close (Release h) (World objs pl cl rel false)
  = Some (World (<[h := Some (-1)%Z]> objs) pl cl (rel ++ [a]) false).
Proof.
  intros Ha. unfold exec, release, get. cbn [terminated objects]. rewrite Ha.
  reflexivity.
Qed.

Lemma install_effect objs pl cl rel fd h a :
  objs !! h = Some (Some a) -> (a <> (-1)%Z -> sys_close a = 0%Z) ->
  install sys_close fd h (World objs pl cl rel false)
  = Some (World (<[h := Some fd]> objs ++ [None]) (pl ++ [fd]) (cl ++ given_up a)
            rel false).
Proof.
  intros Ha Hclose. pose proof (lookup_lt_Some _ _ _ Ha) as Hlt.
  unfold install. cbn [objects]. rewrite exec_construct. cbn [mbind option_bind].
  rewrite (exec_swap (objs ++ [Some fd]) (pl ++ [fd]) cl rel (length objs) h fd a).
  - cbn [mbind option_bind].
    rewrite (insert_app_r_alt objs [Some fd]), Nat.sub_diag by lia.
    cbn [insert list_insert]. rewrite insert_app_l by lia.
    rewrite (exec_destroy (<[h:=Some fd]> objs ++ [Some a]) (pl ++ [fd]) cl rel
               (length objs) a).
    + rewrite <- (length_insert objs h (Some fd)) at 1.
      rewrite (insert_app_r_alt (<[h:=Some fd]> objs)), Nat.sub_diag by lia.
      reflexivity.
    + rewrite lookup_app_r by (rewrite length_insert; lia).
      rewrite length_insert, Nat.sub_diag. reflexivity.
    + exact Hclose.
  - rewrite lookup_app_r, Nat.sub_diag by lia. reflexivity.
  - rewrite lookup_app_l by lia. exact Ha.
Qed.
Lemma exec_move_construct objs pl cl rel h a :
  objs !! h = Some (Some a) ->
  exec sys_close (MoveConstruct h) (World objs pl cl rel false)
  = Some (World (<[h := Some (-1)%Z]> objs ++ [Some a]) pl cl rel false).
Proof.
  intros Ha. unfold exec, move_construct, get, set_fd. cbn [terminated objects].
  rewrite Ha. cbn [mbind option_bind placed closed released terminated objects].
  rewrite insert_app_l by (eapply lookup_lt_Some, Ha). reflexivity.
Qed.

Variable sys_closedir : Z -> Z.

(** A scan on a handle that is destroyed afterwards closes the
    descriptor of the handle once, and no other. *)
Lemma scan_destroy {St : Type} (visitor : St -> directory_entry -> St * bool)
    (sys_fdopendir : Z -> option (list readdir_result)) objs pl cl rel fd (st : St) :
  fd <> (-1)%Z -> sys_close fd = 0%Z -> sys_closedir fd = 0%Z ->
  exists r st' cl' rel' closedirs,
    ('(r, st, w, closedirs) ←
       scan_handle sys_close sys_closedir visitor sys_fdopendir (length objs) st
         (World (objs ++ [Some fd]) pl cl rel false);
     w ← exec sys_close (Destroy (length objs)) w;
     Some (r, st, w, closedirs))
    = Some (r, st', World (objs ++ [None]) pl cl' rel' false, closedirs)
    /\ cl' ++ closedirs = cl ++ [fd]
    /\ match sys_fdopendir fd with
       | None => r = Raised opendir_error /\ closedirs = [] /\ rel' = rel
       | Some stream => (r, st') = fst (scan_loop visitor stream st 0)
                        /\ closedirs = [fd] /\ rel' = rel ++ [fd]
       end.
Proof.
  intros Hfd Hclose Hclosedir. unfold scan_handle, get. cbn [objects].
  rewrite lookup_app_r, Nat.sub_diag by lia.
  cbn [lookup list_lookup mbind option_bind].
  destruct (sys_fdopendir fd) as [stream|].
  - rewrite (exec_release _ _ _ _ (length objs) fd)
      by (rewrite lookup_app_r, Nat.sub_diag by lia; reflexivity).
    cbn [mbind option_bind].
    destruct (scan_loop visitor stream st 0) as [[r st'] reads].
    cbv zeta. rewrite Hclosedir.
    rewrite (decide_False (P := 0%Z <> 0%Z)) by (intros H; apply H; reflexivity).
    cbn [mbind option_bind fst objects placed closed released terminated].
    rewrite (insert_app_r_alt objs), Nat.sub_diag by lia. cbn [insert list_insert].
    rewrite (exec_destroy _ _ _ _ (length objs) (-1))
      by (first [rewrite lookup_app_r, Nat.sub_diag by lia; reflexivity
                |intros H; contradiction H; reflexivity]).
    cbn [mbind option_bind].
    rewrite (insert_app_r_alt objs), Nat.sub_diag by lia. cbn [insert list_insert].
    unfold given_up. rewrite decide_True by reflexivity. rewrite app_nil_r.
    eexists _, _, _, _, _. split; [reflexivity|]. repeat split.
  - cbn [mbind option_bind].
    rewrite (exec_destroy _ _ _ _ (length objs) fd)
      by (first [rewrite lookup_app_r, Nat.sub_diag by lia; reflexivity
                |intros _; exact Hclose]).
    cbn [mbind option_bind].
    rewrite (insert_app_r_alt objs), Nat.sub_diag by lia. cbn [insert list_insert].
    unfold given_up. rewrite decide_False by exact Hfd.
    eexists _, _, _, _, _. split; [reflexivity|]. rewrite app_nil_r. repeat split.
Qed.
End Steps.

(** The calls of [::openat] that [context::openat] makes carry the
    flags asked for. *)
Lemma openat_events sys_openat ctx dir_fd pathname flags r evs :
  Origin.openat sys_openat ctx dir_fd pathname flags [] = Some (r, evs) ->
  Forall (fun ev => exists flags',
            ev = Origin.EvOpenat dir_fd pathname flags'
            /\ Z.land flags' flags = flags) evs.
Proof.
  assert (Hplain : Z.land (Z.lor flags (Origin.additional_open_flags ctx)) flags = flags)
    by apply Opening.land_lor_l.
  assert (Hatime : Z.land (Z.lor (Z.lor flags (Origin.additional_open_flags ctx))
                             O_NOATIME) flags = flags)
    by (apply Opening.land_lor_keep, Hplain).
  unfold Origin.openat, Origin.bind, Origin.emit, Origin.ret, Origin.raise.
  cbn [app].
  repeat match goal with
         | |- context [if ?b then _ else _] => destruct b
         | |- context [match ?x with inl _ => _ | inr _ => _ end] => destruct x
         end;
    intros [= <- <-];
    repeat (apply List.Forall_cons; [eexists; split; [reflexivity|assumption]|]);
    apply List.Forall_nil.
Qed.

(** X19. [pipe] puts the two descriptors of the new pipe into the two
    handles it is given and closes what the handles held before, once
    each and nothing else; it releases nothing. When [::pipe2] fails,
    the error is raised and the handles and their descriptors are
    untouched. *)
Theorem pipe_installs (sys_close : Z -> Z) (sys_pipe2 : Z -> Z + Z * Z)
    (additional_open_flags : Z) (objs : list (option Z)) (pl cl rel : list Z)
    (read write : nat) (a b : Z) :
  read <> write ->
  objs !! read = Some (Some a) -> objs !! write = Some (Some b) ->
  (a <> (-1)%Z -> sys_close a = 0%Z) -> (b <> (-1)%Z -> sys_close b = 0%Z) ->
  (forall fd0 fd1,
      sys_pipe2 (Z.land additional_open_flags O_CLOEXEC) = inr (fd0, fd1) ->
      exists w',
        pipe sys_close sys_pipe2 additional_open_flags read write
          (World objs pl cl rel false) = Some (Returned tt, w')
        /\ get w' read = Some fd0 /\ get w' write = Some fd1
        /\ closed w' = cl ++ given_up a ++ given_up b
        /\ released w' = rel /\ placed w' = pl ++ [fd0; fd1]
        /\ terminated w' = false)
  /\ (forall errno,
        sys_pipe2 (Z.land additional_open_flags O_CLOEXEC) = inl errno ->
        pipe sys_close sys_pipe2 additional_open_flags read write
          (World objs pl cl rel false)
        = Some (Raised pipe_error, World objs pl cl rel false)).
Proof.
  intros Hne Ha Hb Hca Hcb. split.
  - intros fd0 fd1 Hsys. unfold pipe. rewrite Hsys.
    pose proof (lookup_lt_Some _ _ _ Ha) as Hlr.
    pose proof (lookup_lt_Some _ _ _ Hb) as Hlw.
    rewrite (install_effect sys_close objs pl cl rel fd0 read a Ha Hca).
    cbn [mbind option_bind].
    rewrite (install_effect sys_close _ _ _ _ fd1 write b).
    + cbn [mbind option_bind]. eexists. split; [reflexivity|].
      unfold get. cbn [objects placed closed released terminated].
      split; [|split; [|split; [|split; [|split]]]].
      * rewrite lookup_app_l by (rewrite !length_insert, length_app, length_insert; lia).
        rewrite list_lookup_insert_ne by congruence.
        rewrite lookup_app_l by (rewrite length_insert; lia).
        rewrite list_lookup_insert_eq by lia. reflexivity.
      * rewrite lookup_app_l by (rewrite !length_insert, length_app, length_insert; lia).
        rewrite list_lookup_insert_eq
          by (rewrite length_app, length_insert; lia). reflexivity.
      * rewrite <- app_assoc. reflexivity.
      * reflexivity.
      * rewrite <- app_assoc. reflexivity.
      * reflexivity.
    + rewrite lookup_app_l by (rewrite length_insert; lia).
      rewrite list_lookup_insert_ne by exact Hne. exact Hb.
    + exact Hcb.
  - intros errno Hsys. unfold pipe. rewrite Hsys. reflexivity.
Qed.

Lemma pipe_installs_witness :
  exists w',
    pipe (fun _ => 0%Z) (fun _ => inr (7%Z, 8%Z)) O_CLOEXEC 0 1
      (World [Some (-1)%Z; Some 5%Z] [5%Z] [] [] false) = Some (Returned tt, w')
    /\ get w' 0 = Some 7%Z /\ get w' 1 = Some 8%Z
    /\ closed w' = [] ++ given_up (-1) ++ given_up 5
    /\ released w' = [] /\ placed w' = [5%Z] ++ [7%Z; 8%Z]
    /\ terminated w' = false.
Proof.
  apply (proj1 (pipe_installs (fun _ => 0%Z) (fun _ => inr (7%Z, 8%Z)) O_CLOEXEC
                  [Some (-1)%Z; Some 5%Z] [5%Z] [] [] 0 1 (-1) 5
                  ltac:(discriminate) eq_refl eq_refl (fun _ => eq_refl)
                  (fun _ => eq_refl))).
  reflexivity.
Defined.

(** X20. A handle assigned to itself by move gives up its
    descriptor: the descriptor is closed and the handle is empty
    afterwards. *)
Theorem move_assign_self (sys_close : Z -> Z) (w : world) (h : nat) (a : Z) :
  get w h = Some a ->
  exists w',
    move_assign sys_close h h w = Some w'
    /\ get w' h = Some (-1)%Z
    /\ closed w' = closed w ++ given_up a
    /\ released w' = released w.
Proof.
  intros Hget. unfold move_assign.
  destruct (swap h h w) as [w1|] eqn:Hs;
    [|unfold swap in Hs; rewrite Hget in Hs; discriminate].
  destruct (swap_effect _ _ _ _ Hs) as (_ & Hcl & Hrel & _ & Hr & _ & _).
  rewrite Hget in Hr. cbn [mbind option_bind]. unfold close. rewrite Hr.
  cbn [mbind option_bind]. unfold given_up.
  destruct (decide (a ≠ (-1)%Z)) as [Hne|He].
  - rewrite (decide_False (P := a = (-1)%Z)) by exact Hne.
    eexists. split; [reflexivity|]. cbn [closed released set_fd].
    rewrite Hcl, Hrel. split; [|split; reflexivity].
    unfold get. cbn [objects set_fd]. apply get_lookup in Hr.
    rewrite list_lookup_insert_eq; [reflexivity|eapply lookup_lt_Some, Hr].
  - assert (a = (-1)%Z) as -> by (destruct (decide (a = (-1)%Z)); tauto).
    exists w1. rewrite Hcl, Hrel, app_nil_r. auto.
Qed.

Lemma move_assign_self_witness :
  exists w',
    move_assign (fun _ => 0%Z) 0 0 (World [Some 5%Z] [5%Z] [] [] false) = Some w'
    /\ get w' 0 = Some (-1)%Z
    /\ closed w' = [] ++ given_up 5
    /\ released w' = [].
Proof.
  apply (move_assign_self (fun _ => 0%Z) (World [Some 5%Z] [5%Z] [] [] false) 0 5).
  reflexivity.
Defined.

(** X21. A directory scan on a descriptor in a temporary handle
    closes the descriptor exactly once on every path, when the calls
    that close it succeed: when [fdopendir] fails the handle still
    owns it and closes it when it is destroyed; when [fdopendir]
    succeeds the handle releases it, the stream closes it with
    [closedir] whether the scan returns or raises, and the handle
    does not close it again. *)
Theorem scan_temporary_closes_once {St : Type}
    (visitor : St -> directory_entry -> St * bool) (sys_close sys_closedir : Z -> Z)
    (sys_fdopendir : Z -> option (list readdir_result))
    (objs : list (option Z)) (pl cl rel : list Z) (fd : Z) (st : St) :
  fd <> (-1)%Z -> sys_close fd = 0%Z -> sys_closedir fd = 0%Z ->
  exists r st' w' closedirs,
    scan_temporary sys_close sys_closedir visitor sys_fdopendir fd st
      (World objs pl cl rel false)
    = Some (r, st', w', closedirs)
    /\ count fd (closed w' ++ closedirs) = count fd cl + 1
    /\ objects w' = objs ++ [None]
    /\ terminated w' = false
    /\ match sys_fdopendir fd with
       | None => r = Raised opendir_error /\ closed w' = cl ++ [fd]
                 /\ closedirs = [] /\ released w' = rel
       | Some stream => (r, st') = fst (scan_loop visitor stream st 0)
                        /\ closed w' = cl /\ closedirs = [fd]
                        /\ released w' = rel ++ [fd]
       end.
Proof.
  intros Hfd Hclose Hclosedir. unfold scan_temporary. cbn [objects].
  rewrite exec_construct. cbn [mbind option_bind].
  destruct (scan_destroy sys_close sys_closedir visitor sys_fdopendir objs (pl ++ [fd])
              cl rel fd st Hfd Hclose Hclosedir)
    as (r & st' & cl' & rel' & closedirs & Hrun & Hcl & Hcase).
  rewrite Hrun. exists r, st', (World (objs ++ [None]) (pl ++ [fd]) cl' rel' false),
    closedirs.
  cbn [closed objects released terminated]. split; [reflexivity|].
  split; [rewrite Hcl, count_snoc, decide_True by reflexivity; reflexivity|].
  split; [reflexivity|]. split; [reflexivity|].
  destruct (sys_fdopendir fd) as [stream|].
  - destruct Hcase as (Hr & -> & ->). apply app_inj_tail in Hcl as [-> _]. auto.
  - destruct Hcase as (-> & -> & ->). rewrite app_nil_r in Hcl. auto.
Qed.

Lemma scan_temporary_closes_once_witness :
  exists r st' w' closedirs,
    scan_temporary (fun _ => 0%Z) (fun _ => 0%Z) collect (fun _ => Some sample_stream)
      5 [] (World [] [] [] [] false) = Some (r, st', w', closedirs)
    /\ count 5 (closed w' ++ closedirs) = count 5 [] + 1.
Proof.
  destruct (scan_temporary_closes_once collect (fun _ => 0%Z) (fun _ => 0%Z)
              (fun _ => Some sample_stream) [] [] [] [] 5 [])
    as (r & st' & w' & closedirs & Hrun & Hcount & _);
    [discriminate|reflexivity|reflexivity|].
  exists r, st', w', closedirs. split; [exact Hrun|exact Hcount].
Defined.

(** X22. [directory::list] on a directory whose handle holds an
    open descriptor, when the calls that close a descriptor succeed.
    When the handle may be moved, the scan takes the
    descriptor: it is closed once, the handle of the directory is
    empty afterwards and nothing is opened. Otherwise the directory
    is opened anew on the name [.] with the read-only, directory and
    no-follow flags: the new descriptor is closed once, and the
    directory keeps its own, which is not closed; when that open
    fails, its error is raised and nothing has changed. *)
Theorem scan_unique_handles {St : Type}
    (visitor : St -> directory_entry -> St * bool) (sys_close sys_closedir : Z -> Z)
    (sys_openat : Z -> bytes -> Z -> Z + Z)
    (sys_fdopendir : Z -> option (list readdir_result)) (ctx : Origin.context)
    (objs : list (option Z)) (pl cl rel : list Z) (h : nat) (a : Z) (st : St) :
  objs !! h = Some (Some a) -> a <> (-1)%Z ->
  (sys_close a = 0%Z -> sys_closedir a = 0%Z ->
   exists r st' w' closedirs,
     scan_unique sys_close sys_closedir visitor sys_openat sys_fdopendir ctx true h st
       (World objs pl cl rel false) = Some (r, st', w', closedirs)
     /\ get w' h = Some (-1)%Z
     /\ closed w' ++ closedirs = cl ++ [a]
     /\ placed w' = pl)
  /\ (forall fd evs,
        Origin.openat sys_openat ctx a (lit ".") unique_flags [] = Some (Returned fd, evs) ->
        fd <> (-1)%Z -> sys_close fd = 0%Z -> sys_closedir fd = 0%Z ->
        exists r st' w' closedirs,
          scan_unique sys_close sys_closedir visitor sys_openat sys_fdopendir ctx false h st
            (World objs pl cl rel false) = Some (r, st', w', closedirs)
          /\ get w' h = Some a
          /\ closed w' ++ closedirs = cl ++ [fd]
          /\ placed w' = pl ++ [fd]
          /\ Forall (fun ev => exists flags,
                        ev = Origin.EvOpenat a (lit ".") flags
                        /\ Z.land flags unique_flags = unique_flags) evs)
  /\ (forall e evs,
        Origin.openat sys_openat ctx a (lit ".") unique_flags [] = Some (Raised e, evs) ->
        scan_unique sys_close sys_closedir visitor sys_openat sys_fdopendir ctx false h st
          (World objs pl cl rel false)
        = Some (Raised e, st, World objs pl cl rel false, [])).
Proof.
  intros Ha Hne. pose proof (lookup_lt_Some _ _ _ Ha) as Hlt.
  split; [|split].
  - intros Hclose Hclosedir. unfold scan_unique. cbn [objects].
    rewrite (exec_move_construct sys_close _ _ _ _ h a Ha). cbn [mbind option_bind].
    rewrite <- (length_insert objs h (Some (-1)%Z)).
    destruct (scan_destroy sys_close sys_closedir visitor sys_fdopendir
                (<[h := Some (-1)%Z]> objs) pl cl rel a st Hne Hclose Hclosedir)
      as (r & st' & cl' & rel' & closedirs & Hrun & Hcl & _).
    rewrite Hrun. eexists _, _, _, _. split; [reflexivity|].
    unfold get. cbn [objects closed placed].
    rewrite lookup_app_l by (rewrite length_insert; exact Hlt).
    rewrite list_lookup_insert_eq by exact Hlt. auto.
  - intros fd evs Hopen Hfd Hclose Hclosedir. unfold scan_unique, get. cbn [objects].
    rewrite Ha. cbn [mbind option_bind]. rewrite Hopen.
    unfold scan_temporary. cbn [objects]. rewrite exec_construct.
    cbn [mbind option_bind].
    destruct (scan_destroy sys_close sys_closedir visitor sys_fdopendir objs
                (pl ++ [fd]) cl rel fd st Hfd Hclose Hclosedir)
      as (r & st' & cl' & rel' & closedirs & Hrun & Hcl & _).
    rewrite Hrun. eexists _, _, _, _. split; [reflexivity|].
    cbn [objects closed placed]. rewrite lookup_app_l by exact Hlt. rewrite Ha.
    split; [reflexivity|]. split; [exact Hcl|]. split; [reflexivity|].
    apply (openat_events sys_openat ctx a (lit ".") unique_flags _ _ Hopen).
  - intros e evs Hopen. unfold scan_unique, get. cbn [objects].
    rewrite Ha. cbn [mbind option_bind]. rewrite Hopen. reflexivity.
Qed.

Lemma scan_unique_handles_witness :
  (exists r st' w' closedirs,
      scan_unique (fun _ => 0%Z) (fun _ => 0%Z) collect (fun _ _ _ => inr 6%Z)
        (fun _ => Some sample_stream) (Opening.default_context (lit "c")) true 0 []
        (World [Some 5%Z] [5%Z] [] [] false) = Some (r, st', w', closedirs)
      /\ get w' 0 = Some (-1)%Z
      /\ closed w' ++ closedirs = [] ++ [5%Z]
      /\ placed w' = [5%Z])
  /\ (exists r st' w' closedirs,
        scan_unique (fun _ => 0%Z) (fun _ => 0%Z) collect (fun _ _ _ => inr 6%Z)
          (fun _ => Some sample_stream) (Opening.default_context (lit "c")) false 0 []
          (World [Some 5%Z] [5%Z] [] [] false) = Some (r, st', w', closedirs)
        /\ get w' 0 = Some 5%Z
        /\ closed w' ++ closedirs = [] ++ [6%Z]
        /\ placed w' = [5%Z] ++ [6%Z]).
Proof.
  destruct (scan_unique_handles collect (fun _ => 0%Z) (fun _ => 0%Z)
              (fun _ _ _ => inr 6%Z)
              (fun _ => Some sample_stream) (Opening.default_context (lit "c"))
              [Some 5%Z] [5%Z] [] [] 0 5 [] eq_refl ltac:(discriminate))
    as (Hmoved & Hopened & _).
  split; [exact (Hmoved eq_refl eq_refl)|].
  destruct (Hopened 6%Z _ eq_refl ltac:(discriminate) eq_refl eq_refl)
    as (r & st' & w' & closedirs & Hrun & Hget & Hcl & Hpl & _).
  exists r, st', w', closedirs. auto.
Defined.

End Descriptors.

(** ** The walk of [location] to the mount point *)

Module Climb.
Import Pathname Mountinfo Scan Origin.

Definition resolve_error : exception := runtime "fs-resolve-error".

Definition EBADF : Z := 9.

(** The flags with which [location] opens a parent. *)
Definition parent_flags (ctx : context) : Z :=
  Z.lor location_flags (additional_open_flags ctx).

(** The answer of Linux to the reads of a descriptor that was opened
    with [O_PATH], whatever the other flags: [fdopendir] makes a
    stream of it and the first call of [readdir_r] fails. *)
Definition path_only (sys_openat : Z -> bytes -> Z -> Z + Z)
    (sys_fdopendir : Z -> option (list readdir_result)) : Prop :=
  forall dir name flags d,
    sys_openat dir name flags = inr d -> Z.land flags O_PATH = O_PATH ->
    exists rv rest, sys_fdopendir d = Some (ReadError rv :: rest).

(** A file system on the device 8:1, mounted on [/mnt] and on [/m],
    with the directory [a] of the inode 11 in its root and [b] of the
    inode 12 in [a]; [b] is open at the descriptor 5, and the parents
    are opened at 6, 7 and 8, where [readdir_r] fails. *)
Definition tree_fstat (fd : Z) : option (Z * Z) :=
  if (fd =? 5)%Z then Some (2049, 12)%Z
  else if (fd =? 6)%Z then Some (2049, 11)%Z
  else if (fd =? 7)%Z then Some (2049, 2)%Z
  else None.

Definition tree_openat (fd : Z) (pathname : bytes) (flags : Z) : Z + Z :=
  if (5 <=? fd)%Z && (fd <=? 7)%Z then inr (fd + 1)%Z else inl EPERM.

Definition tree_fdopendir (fd : Z) : option (list readdir_result) :=
  if (6 <=? fd)%Z && (fd <=? 8)%Z then Some [ReadError EBADF] else None.

(** The same, with [b] as the root of a file system whose mount is
    not in the table: its parent is on the device 8:2. *)
Definition hidden_fstat (fd : Z) : option (Z * Z) :=
  if (fd =? 6)%Z then Some (2050, 11)%Z else tree_fstat fd.

(** The same, with the mount point itself open at the descriptor 5. *)
Definition mount_point_fstat (fd : Z) : option (Z * Z) :=
  if (fd =? 5)%Z then Some (2049, 2)%Z else tree_fstat fd.

Definition tree_context : context :=
  Context (lit "root") (Z.lor (Z.lor O_CLOEXEC O_NOCTTY) O_NONBLOCK) false.

(** *** Properties *)

Lemma land_trans a b c : Z.land a b = b -> Z.land b c = c -> Z.land a c = c.
Proof. intros Hab Hbc. rewrite <- Hbc, Z.land_assoc, Hab. reflexivity. Qed.

Lemma parent_flags_path ctx : Z.land (parent_flags ctx) O_PATH = O_PATH.
Proof. apply Opening.land_lor_keep. reflexivity. Qed.

(** A descriptor that [context::openat] returns was returned by a
    call of [::openat] with flags that contain the flags asked
    for. *)
Lemma openat_returned sys_openat ctx fd pathname flags log d log' :
  openat sys_openat ctx fd pathname flags log = Some (Returned d, log') ->
  exists flags', sys_openat fd pathname flags' = inr d /\ Z.land flags' flags = flags.
Proof.
  assert (Hplain : Z.land (Z.lor flags (additional_open_flags ctx)) flags = flags)
    by apply Opening.land_lor_l.
  assert (Hatime : Z.land (Z.lor (Z.lor flags (additional_open_flags ctx)) O_NOATIME)
                     flags = flags)
    by (apply Opening.land_lor_keep, Hplain).
  unfold openat. set (f := Z.lor flags (additional_open_flags ctx)) in *.
  assert (Hcall : forall l,
             bind (emit (EvOpenat fd pathname f))
               (fun _ => match sys_openat fd pathname f with
                         | inr d' => ret d'
                         | inl _ => raise (runtime "fs-open-error")
                         end) l = Some (Returned d, log') ->
             exists flags', sys_openat fd pathname flags' = inr d
                            /\ Z.land flags' flags = flags).
  { intros l. unfold bind, emit, ret, raise.
    destruct (sys_openat fd pathname f) as [e|d'] eqn:H2; intros [= <- _]; eauto. }
  destruct (avoid_access_time ctx && (Z.land f O_NOATIME =? 0)%Z); [|apply Hcall].
  unfold bind at 1, emit at 1.
  destruct (sys_openat fd pathname (Z.lor f O_NOATIME)) as [e|d'] eqn:H1.
  - destruct (negb (e =? EPERM)%Z); [discriminate|apply Hcall].
  - intros [= <- _]. eauto.
Qed.

Lemma openat_total sys_openat ctx fd pathname flags log :
  exists r log', openat sys_openat ctx fd pathname flags log = Some (r, log').
Proof.
  unfold openat. set (f := Z.lor flags (additional_open_flags ctx)).
  assert (Hcall : forall l,
             exists r log',
               bind (emit (EvOpenat fd pathname f))
                 (fun _ => match sys_openat fd pathname f with
                           | inr d' => ret d'
                           | inl _ => raise (runtime "fs-open-error")
                           end) l = Some (r, log')).
  { intros l. unfold bind, emit, ret, raise.
    destruct (sys_openat fd pathname f); eauto. }
  destruct (avoid_access_time ctx && (Z.land f O_NOATIME =? 0)%Z); [|apply Hcall].
  unfold bind at 1, emit at 1.
  destruct (sys_openat fd pathname (Z.lor f O_NOATIME)) as [e|d'].
  - destruct (negb (e =? EPERM)%Z); [unfold raise; eauto|apply Hcall].
  - unfold ret. eauto.
Qed.

Lemma scan_unreadable {St : Type} (visitor : St -> directory_entry -> St * bool)
    rv rest (st : St) :
  scan_directory visitor (Some (ReadError rv :: rest)) st
  = (Raised readdir_error, st, 1).
Proof. reflexivity. Qed.

(** On a parent that cannot be read, the loop of [location] never
    returns a path. *)
Lemma climb_unreadable sys_fstat sys_openat sys_fdopendir ctx roots fuel previous
    next current names log rv rest p log' :
  sys_fdopendir current = Some (ReadError rv :: rest) ->
  climb sys_fstat sys_openat sys_fdopendir fuel ctx roots previous next current
    names log
  <> Some (Returned p, log').
Proof.
  intros Hdir. destruct fuel as [|fuel]; cbn [climb]; [discriminate|].
  destruct ((previous.1 =? next.1)%Z && negb (previous.2 =? next.2)%Z);
    [|discriminate].
  rewrite Hdir, scan_unreadable. unfold bind, emit, raise.
  destruct (openat sys_openat ctx current dotdot location_flags log)
    as [[[parent|e] l]|]; discriminate.
Qed.

(** With fuel for one turn, it raises. *)
Lemma climb_unreadable_raises sys_fstat sys_openat sys_fdopendir ctx roots fuel
    previous next current names log rv rest :
  sys_fdopendir current = Some (ReadError rv :: rest) ->
  exists e log',
    climb sys_fstat sys_openat sys_fdopendir (S fuel) ctx roots previous next current
      names log
    = Some (Raised e, log').
Proof.
  intros Hdir. cbn [climb].
  destruct ((previous.1 =? next.1)%Z && negb (previous.2 =? next.2)%Z);
    [|unfold raise; eauto].
  rewrite Hdir, scan_unreadable. unfold bind, emit, raise.
  destruct (openat_total sys_openat ctx current dotdot location_flags log)
    as ([parent|e] & l & ->); eauto.
Qed.

Section Steps.
Variable sys_fstat : Z -> option (Z * Z).
Variable sys_openat : Z -> bytes -> Z -> Z + Z.
Variable sys_fdopendir : Z -> option (list readdir_result).
Variable ctx : context.
Variable roots : list root.
Variable dev : Z.
Hypothesis Hatime : avoid_access_time ctx = false.

Lemma openat_plain fd pathname flags log :
  openat sys_openat ctx fd pathname flags log
  = Some (match sys_openat fd pathname (Z.lor flags (additional_open_flags ctx)) with
          | inr d => Returned d
          | inl _ => Raised (runtime "fs-open-error")
          end,
          log ++ [EvOpenat fd pathname (Z.lor flags (additional_open_flags ctx))]).
Proof.
  unfold openat. rewrite Hatime. cbn [andb]. unfold bind, emit, ret, raise.
  destruct (sys_openat fd pathname (Z.lor flags (additional_open_flags ctx)));
    reflexivity.
Qed.

(** The loop of [location] leaves at once when the parent is on
    another device or is the directory itself. *)
Lemma climb_leaves fuel previous next current names log :
  previous.1 <> next.1 \/ previous.2 = next.2 ->
  climb sys_fstat sys_openat sys_fdopendir (S fuel) ctx roots previous next
    current names log
  = Some (Raised resolve_error, log).
Proof.
  intros H. cbn [climb].
  destruct (Z.eqb_spec previous.1 next.1) as [He|Hne]; cbn [andb].
  - destruct H as [H|H]; [contradiction|]. rewrite H, Z.eqb_refl. reflexivity.
  - reflexivity.
Qed.

(** One turn of the loop on a parent that can be scanned. *)
Lemma climb_turn fuel previous_ino current current_ino parent log r names :
  current_ino <> previous_ino ->
  sys_openat current dotdot (parent_flags ctx) = inr parent ->
  (let '(found, _, _) :=
     scan_directory (match_child previous_ino) (sys_fdopendir current) names in
   found) = r ->
  climb sys_fstat sys_openat sys_fdopendir (S fuel) ctx roots (dev, previous_ino)
    (dev, current_ino) current names log
  = let log' := log ++ [EvOpenat current dotdot (parent_flags ctx); EvScan current] in
    let '(_, names', _) :=
      scan_directory (match_child previous_ino) (sys_fdopendir current) names in
    match r with
    | Raised e => Some (Raised e, log')
    | Returned false => Some (Raised resolve_error, log')
    | Returned true =>
        match lookup_root roots current_ino with
        | Some q => Some (Returned (normalize_spec (append_names q.2 (rev names'))), log')
        | None =>
            bind (inode_of sys_fstat parent)
              (fun st => climb sys_fstat sys_openat sys_fdopendir fuel ctx roots
                           (dev, current_ino) st parent names') log'
        end
    end.
Proof.
  intros Hne Hopen Hr. cbn [climb fst snd]. rewrite Z.eqb_refl.
  rewrite (proj2 (Z.eqb_neq previous_ino current_ino)) by congruence.
  cbn [andb negb]. unfold bind at 1. rewrite openat_plain.
  fold (parent_flags ctx). rewrite Hopen. unfold bind at 1, emit.
  rewrite <- app_assoc. cbn [app].
  destruct (scan_directory (match_child previous_ino) (sys_fdopendir current) names)
    as [[found names'] reads].
  subst r. destruct found as [[|]|e]; cbn [negb]; try reflexivity.
  destruct (lookup_root roots current_ino) as [q|]; [apply normalized_ok|reflexivity].
Qed.

End Steps.

Section Resolved.
Variable sys_getcwd : nat -> Z + bytes.
Variable sys_fstat : Z -> option (Z * Z).
Variable sys_fstatat : bytes -> option Z.
Variable sys_openat : Z -> bytes -> Z -> Z + Z.
Variable mountinfo_content : outcome bytes.
Variable sys_fdopendir : Z -> option (list readdir_result).
Variable ctx : context.
Variable fd dev ino : Z.
Variable data : bytes.
Variable mounts : list mount.
Hypothesis Hatime : avoid_access_time ctx = false.
Hypothesis Hfd : fd <> (-1)%Z.
Hypothesis Hcwd : fd <> AT_FDCWD.
Hypothesis Hstat : sys_fstat fd = Some (dev, ino).
Hypothesis Hcontent : mountinfo_content = Returned data.
Hypothesis Hparse : parse_mountinfo data = Some (Returned mounts).
Hypothesis Hpoints :
  forall m, m ∈ mounts -> device m = dev -> is_Some (sys_fstatat (path m)).

(** [location] of an origin whose directory is no mount point: the
    parent is opened and examined, and the loop is entered. *)
Lemma location_climbs fuel current next :
  lookup_root (sort_roots (candidates sys_fstatat dev mounts)) ino = None ->
  sys_openat fd dotdot (parent_flags ctx) = inr current ->
  sys_fstat current = Some next ->
  location sys_getcwd sys_fstat sys_fstatat sys_openat mountinfo_content
    sys_fdopendir fuel (Origin ctx fd) []
  = climb sys_fstat sys_openat sys_fdopendir fuel ctx
      (sort_roots (candidates sys_fstatat dev mounts)) (dev, ino) next current []
      (([EvFstat fd; EvReadMountinfo] ++ stat_events dev mounts)
         ++ [EvOpenat fd dotdot (parent_flags ctx); EvFstat current]).
Proof.
  intros Hnone Hopen Hnext.
  rewrite (location_resolved _ _ _ _ _ _ fuel (Origin ctx fd) dev ino data mounts
             Hfd Hcwd Hstat Hcontent Hparse Hpoints).
  cbv zeta. rewrite Hnone. cbn [origin_context origin_handle].
  unfold bind at 1. rewrite (openat_plain sys_openat ctx Hatime).
  fold (parent_flags ctx). rewrite Hopen.
  rewrite (bind_returned _ _ _ _ _ (inode_of_ok _ _ _ _ Hnext)).
  rewrite <- (app_assoc _ [_] [_]). reflexivity.
Qed.

Lemma no_root :
  (forall r : root, r ∈ candidates sys_fstatat dev mounts -> r.1 <> ino) ->
  lookup_root (sort_roots (candidates sys_fstatat dev mounts)) ino = None.
Proof.
  intros Hno.
  pose proof (lookup_root_spec (sort_roots (candidates sys_fstatat dev mounts)) ino
                (sort_roots_sorted _)) as Hspec.
  destruct (lookup_root _ ino) as [r|]; [|reflexivity].
  destruct Hspec as (Hr & Hin & _). exfalso. apply (Hno r); [|exact Hr].
  rewrite <- (sort_roots_perm (candidates sys_fstatat dev mounts)). exact Hin.
Qed.
End Resolved.

(** X23. Under the answer of Linux to the reads of a descriptor
    opened with [O_PATH], [location] of a resolved origin returns a
    path only for a directory that is a mount point of its device:
    whenever it returns, the result is the normalized path of a
    candidate root with the inode of the directory, and the only
    calls made are those that collect the roots. For a directory
    that is no mount point of its device it raises: the walk to the
    parents, which opens them with [O_PATH], cannot read them. *)
Theorem location_returns_mount_points_only
    (sys_getcwd : nat -> Z + bytes) (sys_fstat : Z -> option (Z * Z))
    (sys_fstatat : bytes -> option Z) (sys_openat : Z -> bytes -> Z -> Z + Z)
    (mountinfo_content : outcome bytes)
    (sys_fdopendir : Z -> option (list readdir_result))
    (fuel : nat) (o : origin) (dev ino : Z) (data : bytes) (mounts : list mount) :
  origin_handle o <> (-1)%Z -> origin_handle o <> AT_FDCWD ->
  sys_fstat (origin_handle o) = Some (dev, ino) ->
  mountinfo_content = Returned data ->
  parse_mountinfo data = Some (Returned mounts) ->
  (forall m, m ∈ mounts -> device m = dev -> is_Some (sys_fstatat (path m))) ->
  path_only sys_openat sys_fdopendir ->
  let run := location sys_getcwd sys_fstat sys_fstatat sys_openat
               mountinfo_content sys_fdopendir fuel o [] in
  (forall p log,
      run = Some (Returned p, log) ->
      exists pathname,
        (ino, pathname) ∈ candidates sys_fstatat dev mounts
        /\ p = normalize_spec pathname
        /\ log = [EvFstat (origin_handle o); EvReadMountinfo]
                  ++ stat_events dev mounts)
  /\ ((forall pathname, (ino, pathname) ∉ candidates sys_fstatat dev mounts) ->
      0 < fuel -> exists e log, run = Some (Raised e, log)).
Proof.
  intros Hfd Hcwd Hstat Hcontent Hparse Hpoints Hpath run.
  pose proof (location_resolved sys_getcwd sys_fstat sys_fstatat sys_openat
                mountinfo_content sys_fdopendir fuel o dev ino data mounts
                Hfd Hcwd Hstat Hcontent Hparse Hpoints) as Hrun.
  cbv zeta in Hrun. fold run in Hrun.
  pose proof (lookup_root_spec (sort_roots (candidates sys_fstatat dev mounts)) ino
                (sort_roots_sorted _)) as Hspec.
  destruct (lookup_root _ ino) as [[i q]|].
  - destruct Hspec as (Hi & Hin & _). cbn [fst] in Hi. subst i.
    rewrite (sort_roots_perm (candidates sys_fstatat dev mounts)) in Hin.
    split.
    + intros p log Hp. rewrite Hrun in Hp. injection Hp as <- <-.
      exists q. cbn [snd]. split; [exact Hin|split; reflexivity].
    + intros Hnone. destruct (Hnone q Hin).
  - destruct (openat_total sys_openat (origin_context o) (origin_handle o) dotdot
                location_flags
                ([EvFstat (origin_handle o); EvReadMountinfo]
                   ++ stat_events dev mounts))
      as ([current|e] & l1 & Hopen);
      unfold bind at 1 in Hrun; rewrite Hopen in Hrun;
      [|split; [intros p log Hp; rewrite Hrun in Hp; discriminate|eauto]].
    apply openat_returned in Hopen as (flags' & Hcall & Hflags).
    destruct (Hpath _ _ _ _ Hcall (land_trans _ _ _ Hflags eq_refl))
      as (rv & rest & Hdir).
    unfold bind at 1, inode_of, bind, emit in Hrun.
    destruct (sys_fstat current) as [next|];
      [|split; [intros p log Hp; rewrite Hrun in Hp; discriminate
               |unfold raise in Hrun; eauto]].
    unfold ret in Hrun. split.
    + intros p log Hp. rewrite Hrun in Hp. exfalso.
      eapply climb_unreadable; [exact Hdir|exact Hp].
    + intros _ Hfuel. destruct fuel as [|fuel]; [lia|]. rewrite Hrun.
      eapply climb_unreadable_raises. exact Hdir.
Qed.

Lemma location_returns_mount_points_only_witness :
  exists pathname,
    (2%Z, pathname) ∈ candidates sample_fstatat 2049 sample_mounts
    /\ lit "/m" = normalize_spec pathname
    /\ [EvFstat 5; EvReadMountinfo; EvFstatat (lit "/mnt"); EvFstatat (lit "/m")]
       = [EvFstat 5; EvReadMountinfo] ++ stat_events 2049 sample_mounts.
Proof.
  apply (proj1 (location_returns_mount_points_only (fun _ => inl ERANGE)
                  mount_point_fstat sample_fstatat tree_openat
                  (Returned sample_mountinfo) tree_fdopendir 0
                  (Origin tree_context 5) 2049 2 sample_mountinfo sample_mounts
                  ltac:(discriminate) ltac:(discriminate) eq_refl eq_refl
                  ltac:(vm_compute; reflexivity)
                  ltac:(intros m _ _; eexists; reflexivity)
                  ltac:(intros dir name flags d Hcall _; unfold tree_openat in Hcall;
                        destruct ((5 <=? dir)%Z && (dir <=? 7)%Z) eqn:Hrange;
                        [|discriminate]; injection Hcall as <-; unfold tree_fdopendir;
                        apply andb_true_iff in Hrange as [H5 H7];
                        apply Z.leb_le in H5, H7;
                        rewrite (proj2 (andb_true_iff _ _))
                          by (split; apply Z.leb_le; lia);
                        eexists _, _; reflexivity))).
  vm_compute. reflexivity.
Defined.

(** X24. For a resolved origin on a directory that is none of the
    mount points of its device, [location] raises the resolve error
    without a scan when the parent of the directory is on another
    device or is the directory itself: after the calls that collect
    the roots it opens the parent and examines it, and nothing
    else. *)
Theorem location_leaves_device
    (sys_getcwd : nat -> Z + bytes) (sys_fstat : Z -> option (Z * Z))
    (sys_fstatat : bytes -> option Z) (sys_openat : Z -> bytes -> Z -> Z + Z)
    (mountinfo_content : outcome bytes)
    (sys_fdopendir : Z -> option (list readdir_result))
    (fuel : nat) (ctx : context) (fd dev ino : Z) (data : bytes)
    (mounts : list mount) (current : Z) (next : Z * Z) :
  avoid_access_time ctx = false ->
  fd <> (-1)%Z -> fd <> AT_FDCWD ->
  sys_fstat fd = Some (dev, ino) ->
  mountinfo_content = Returned data ->
  parse_mountinfo data = Some (Returned mounts) ->
  (forall m, m ∈ mounts -> device m = dev -> is_Some (sys_fstatat (path m))) ->
  (forall r : root, r ∈ candidates sys_fstatat dev mounts -> r.1 <> ino) ->
  sys_openat fd dotdot (parent_flags ctx) = inr current ->
  sys_fstat current = Some next ->
  next.1 <> dev \/ next.2 = ino ->
  0 < fuel ->
  location sys_getcwd sys_fstat sys_fstatat sys_openat mountinfo_content
    sys_fdopendir fuel (Origin ctx fd) []
  = Some (Raised resolve_error,
          ([EvFstat fd; EvReadMountinfo] ++ stat_events dev mounts)
            ++ [EvOpenat fd dotdot (parent_flags ctx); EvFstat current]).
Proof.
  intros Hatime Hfd Hcwd Hstat Hcontent Hparse Hpoints Hno Hopen Hnext Hout Hfuel.
  rewrite (location_climbs sys_getcwd sys_fstat sys_fstatat sys_openat
             mountinfo_content sys_fdopendir ctx fd dev ino data mounts
             Hatime Hfd Hcwd Hstat Hcontent Hparse Hpoints fuel _ _
             (no_root _ _ _ _ Hno) Hopen Hnext).
  destruct fuel as [|fuel]; [lia|]. apply climb_leaves.
  cbn [fst snd]. destruct Hout as [H|H]; [left|right]; congruence.
Qed.

Lemma location_leaves_device_witness :
  location (fun _ => inl ERANGE) hidden_fstat sample_fstatat tree_openat
    (Returned sample_mountinfo) tree_fdopendir 1 (Origin tree_context 5) []
  = Some (Raised resolve_error,
          ([EvFstat 5; EvReadMountinfo] ++ stat_events 2049 sample_mounts)
            ++ [EvOpenat 5 dotdot (parent_flags tree_context); EvFstat 6]).
Proof.
  apply (location_leaves_device (fun _ => inl ERANGE) hidden_fstat sample_fstatat
           tree_openat (Returned sample_mountinfo) tree_fdopendir 1 tree_context
           5 2049 12 sample_mountinfo sample_mounts 6 (2050, 11)%Z).
  - reflexivity.
  - discriminate.
  - discriminate.
  - reflexivity.
  - reflexivity.
  - vm_compute. reflexivity.
  - intros m _ _. eexists. reflexivity.
  - intros r Hr. apply elem_of_candidates in Hr as (m & _ & _ & _ & Hino).
    injection Hino as <-. discriminate.
  - reflexivity.
  - reflexivity.
  - left. discriminate.
  - lia.
Defined.

(** X25. For a resolved origin on a directory that is none of the
    mount points of its device and whose parent is another directory
    of the device: [location] opens that parent and the parent of the
    parent with [O_PATH] and goes on to scan the parent, and under
    the answer of Linux to the reads of such a descriptor it raises
    the read error of that scan; it neither finds the name of the
    directory nor raises the resolve error. *)
Theorem location_parent_unreadable
    (sys_getcwd : nat -> Z + bytes) (sys_fstat : Z -> option (Z * Z))
    (sys_fstatat : bytes -> option Z) (sys_openat : Z -> bytes -> Z -> Z + Z)
    (mountinfo_content : outcome bytes)
    (sys_fdopendir : Z -> option (list readdir_result))
    (fuel : nat) (ctx : context) (fd dev ino : Z) (data : bytes)
    (mounts : list mount) (current current_ino parent : Z) :
  avoid_access_time ctx = false ->
  fd <> (-1)%Z -> fd <> AT_FDCWD ->
  sys_fstat fd = Some (dev, ino) ->
  mountinfo_content = Returned data ->
  parse_mountinfo data = Some (Returned mounts) ->
  (forall m, m ∈ mounts -> device m = dev -> is_Some (sys_fstatat (path m))) ->
  (forall r : root, r ∈ candidates sys_fstatat dev mounts -> r.1 <> ino) ->
  sys_openat fd dotdot (parent_flags ctx) = inr current ->
  sys_fstat current = Some (dev, current_ino) ->
  current_ino <> ino ->
  sys_openat current dotdot (parent_flags ctx) = inr parent ->
  path_only sys_openat sys_fdopendir ->
  0 < fuel ->
  Z.land (parent_flags ctx) O_PATH = O_PATH
  /\ location sys_getcwd sys_fstat sys_fstatat sys_openat mountinfo_content
       sys_fdopendir fuel (Origin ctx fd) []
     = Some (Raised readdir_error,
             ([EvFstat fd; EvReadMountinfo] ++ stat_events dev mounts)
               ++ [EvOpenat fd dotdot (parent_flags ctx); EvFstat current;
                   EvOpenat current dotdot (parent_flags ctx); EvScan current]).
Proof.
  intros Hatime Hfd Hcwd Hstat Hcontent Hparse Hpoints Hno Hopen Hnext Hne Hparent
    Hpath Hfuel.
  split; [apply parent_flags_path|].
  rewrite (location_climbs sys_getcwd sys_fstat sys_fstatat sys_openat
             mountinfo_content sys_fdopendir ctx fd dev ino data mounts
             Hatime Hfd Hcwd Hstat Hcontent Hparse Hpoints fuel _ _
             (no_root _ _ _ _ Hno) Hopen Hnext).
  destruct fuel as [|fuel]; [lia|].
  destruct (Hpath _ _ _ _ Hopen (parent_flags_path ctx)) as (rv & rest & Hdir).
  rewrite (climb_turn sys_fstat sys_openat sys_fdopendir ctx _ dev Hatime fuel _ _ _
             parent _ (Raised readdir_error) [] Hne Hparent)
    by (rewrite Hdir; reflexivity).
  cbv zeta. rewrite Hdir, scan_unreadable, <- app_assoc. reflexivity.
Qed.

Lemma location_parent_unreadable_witness :
  location (fun _ => inl ERANGE) tree_fstat sample_fstatat tree_openat
    (Returned sample_mountinfo) tree_fdopendir 1 (Origin tree_context 5) []
  = Some (Raised readdir_error,
          ([EvFstat 5; EvReadMountinfo] ++ stat_events 2049 sample_mounts)
            ++ [EvOpenat 5 dotdot (parent_flags tree_context); EvFstat 6;
                EvOpenat 6 dotdot (parent_flags tree_context); EvScan 6]).
Proof.
  apply (location_parent_unreadable (fun _ => inl ERANGE) tree_fstat sample_fstatat
           tree_openat (Returned sample_mountinfo) tree_fdopendir 1 tree_context
           5 2049 12 sample_mountinfo sample_mounts 6 11 7).
  - reflexivity.
  - discriminate.
  - discriminate.
  - reflexivity.
  - reflexivity.
  - vm_compute. reflexivity.
  - intros m _ _. eexists. reflexivity.
  - intros r Hr. apply elem_of_candidates in Hr as (m & _ & _ & _ & Hino).
    injection Hino as <-. discriminate.
  - reflexivity.
  - reflexivity.
  - discriminate.
  - reflexivity.
  - intros dir name flags d Hcall _. unfold tree_openat in Hcall.
    destruct ((5 <=? dir)%Z && (dir <=? 7)%Z) eqn:Hrange; [|discriminate].
    injection Hcall as <-. unfold tree_fdopendir.
    apply andb_true_iff in Hrange as [H5 H7].
    apply Z.leb_le in H5, H7.
    rewrite (proj2 (andb_true_iff _ _)) by (split; apply Z.leb_le; lia).
    eexists _, _. reflexivity.
  - lia.
Defined.

End Climb.

(** ** Calls that are repeated when they are interrupted *)

Module Retry.

Definition fallocate_error : exception := runtime "fs-posix-fallocate-error".
Definition fadvise_error : exception := runtime "fs-posix-fadvise-error".

(** The conversion of a [ssize_t] to the [std::size_t] of a 64-bit
    target. *)
Definition to_size (rv : Z) : Z := (rv mod 2 ^ 64)%Z.

Section Transfer.
(** The answer of the [n]-th call of [::pread], [::pwrite],
    [::preadv] or [::pwritev] that the process makes with the
    arguments of the operation, which are the same in every turn: the
    return value and [errno]. *)
Variable sys_transfer : nat -> Z * Z.

(** The [for (;;)] loop of [file::read_some] and [file::write_some]
    with the tag of its error, from the call number [n] on: the
    outcome and the number of the next call. *)
Fixpoint transfer_some (tag : string) (fuel n : nat) : option (outcome Z * nat) :=
  match fuel with
  | O => None
  | S fuel' =>
      let '(rv, errno) := sys_transfer n in
      if negb (rv =? -1)%Z then Some (Returned (to_size rv), S n)
      else if (errno =? EINTR)%Z then transfer_some tag fuel' (S n)
      else
        match check rv tag with
        | Raised e => Some (Raised e, S n)
        | Returned _ => transfer_some tag fuel' (S n)
        end
  end.

Definition read_some : nat -> nat -> option (outcome Z * nat) :=
  transfer_some "fs-read-error".
Definition write_some : nat -> nat -> option (outcome Z * nat) :=
  transfer_some "fs-write-error".
Definition read_some_bulk : nat -> nat -> option (outcome Z * nat) :=
  transfer_some "fs-readv-error".
Definition write_some_bulk : nat -> nat -> option (outcome Z * nat) :=
  transfer_some "fs-writev-error".
End Transfer.

Section Allocate.
(** The return value of the [n]-th call of [::posix_fallocate] or
    [::posix_fadvise], which is zero or the number of the error. *)
Variable sys_posix : nat -> Z.

(** [file::posix_fallocate]. *)
Fixpoint posix_fallocate (fuel n : nat) : option (outcome unit * nat) :=
  match fuel with
  | O => None
  | S fuel' =>
      let rv := sys_posix n in
      if (rv =? 0)%Z then Some (Returned tt, S n)
      else if (rv =? EINTR)%Z then posix_fallocate fuel' (S n)
      else Some (Raised fallocate_error, S n)
  end.

(** [file::posix_fadvise]. *)
Definition posix_fadvise (n : nat) : outcome unit * nat :=
  let rv := sys_posix n in
  if negb (rv =? 0)%Z then (Raised fadvise_error, S n) else (Returned tt, S n).
End Allocate.

(** Two interrupted calls, then a transfer of 100 bytes. *)
Definition interrupted_twice (n : nat) : Z * Z :=
  if n <? 2 then ((-1)%Z, EINTR) else (100%Z, 0%Z).

(** Two interrupted calls, then success. *)
Definition interrupted_posix (n : nat) : Z :=
  if n <? 2 then EINTR else 0%Z.

(** *** Properties *)

(** X26. [read_some] and [write_some], in both forms, repeat the
    call as long as it is interrupted and report the first answer
    that is no interruption: the count of that one call, which may be
    less than what was asked for and is zero at the end of the file,
    or the error of the operation when the call has failed; the
    interrupted calls are not reported. *)
Theorem transfer_some_retries (sys_transfer : nat -> Z * Z) (tag : string)
    (k fuel n : nat) (rv errno : Z) :
  (forall i, i < k -> sys_transfer (n + i) = ((-1)%Z, EINTR)) ->
  sys_transfer (n + k) = (rv, errno) ->
  (rv = (-1)%Z -> errno <> EINTR) ->
  k < fuel ->
  transfer_some sys_transfer tag fuel n
  = Some (if (rv =? -1)%Z then Raised (runtime tag) else Returned (to_size rv),
          S (n + k))
  /\ ((0 <= rv < 2 ^ 63)%Z ->
      transfer_some sys_transfer tag fuel n = Some (Returned rv, S (n + k))).
Proof.
  intros Hint Hlast Hne Hfuel.
  assert (Hrun : transfer_some sys_transfer tag fuel n
                 = Some (if (rv =? -1)%Z then Raised (runtime tag)
                         else Returned (to_size rv), S (n + k))).
  { revert fuel n Hint Hlast Hfuel.
    induction k as [|k IH]; intros fuel n Hint Hlast Hfuel;
      (destruct fuel as [|fuel]; [lia|]); cbn [transfer_some].
    - rewrite Nat.add_0_r in *. rewrite Hlast.
      destruct (Z.eqb_spec rv (-1)) as [->|Hrv]; cbn [negb]; [|reflexivity].
      rewrite (proj2 (Z.eqb_neq errno EINTR)) by (apply Hne; reflexivity).
      reflexivity.
    - pose proof (Hint 0 ltac:(lia)) as H0. rewrite Nat.add_0_r in H0. rewrite H0.
      cbn [negb Z.eqb]. rewrite Z.eqb_refl.
      rewrite (IH fuel (S n)); [do 2 f_equal; lia| | |lia].
      + intros i Hi. replace (S n + i) with (n + S i) by lia. apply Hint. lia.
      + replace (S n + k) with (n + S k) by lia. exact Hlast. }
  split; [exact Hrun|]. intros Hrange. rewrite Hrun.
  rewrite (proj2 (Z.eqb_neq rv (-1))) by lia.
  unfold to_size. rewrite Z.mod_small by lia. reflexivity.
Qed.

Lemma transfer_some_retries_witness :
  read_some interrupted_twice 3 0 = Some (Returned 100%Z, 3).
Proof.
  apply (proj2 (transfer_some_retries interrupted_twice "fs-read-error" 2 3 0 100 0
                  ltac:(intros [|[|i]] Hi; [reflexivity|reflexivity|lia])
                  eq_refl ltac:(discriminate) ltac:(lia))).
  lia.
Defined.

(** X27. [posix_fallocate] repeats the call as long as it returns
    the interruption, returns when a call returns zero and raises on
    any other number; [posix_fadvise] makes one call, returns when
    it returns zero and raises on every other number, the
    interruption included, so that on the same answers it raises
    where [posix_fallocate] goes on. *)
Theorem posix_fallocate_retries (sys_posix : nat -> Z) (k fuel n : nat) (rv : Z) :
  (forall i, i < k -> sys_posix (n + i) = EINTR) ->
  sys_posix (n + k) = rv -> rv <> EINTR -> k < fuel ->
  posix_fallocate sys_posix fuel n
  = Some (if (rv =? 0)%Z then Returned tt else Raised fallocate_error, S (n + k))
  /\ (0 < k -> posix_fadvise sys_posix n = (Raised fadvise_error, S n))
  /\ (forall m, sys_posix m = 0%Z -> posix_fadvise sys_posix m = (Returned tt, S m))
  /\ (forall m, sys_posix m <> 0%Z ->
        posix_fadvise sys_posix m = (Raised fadvise_error, S m))
  /\ (k = 0 ->
      posix_fadvise sys_posix n
      = (if (rv =? 0)%Z then Returned tt else Raised fadvise_error, S n)).
Proof.
  intros Hint Hlast Hne Hfuel.
  assert (Hzero : forall m, sys_posix m = 0%Z ->
                            posix_fadvise sys_posix m = (Returned tt, S m)).
  { intros m Hm. unfold posix_fadvise. rewrite Hm. reflexivity. }
  assert (Hother : forall m, sys_posix m <> 0%Z ->
                             posix_fadvise sys_posix m = (Raised fadvise_error, S m)).
  { intros m Hm. unfold posix_fadvise. cbv zeta.
    rewrite (proj2 (Z.eqb_neq _ _) Hm). reflexivity. }
  split; [|split; [|split; [exact Hzero|split; [exact Hother|]]]].
  - revert fuel n Hint Hlast Hfuel.
    induction k as [|k IH]; intros fuel n Hint Hlast Hfuel;
      (destruct fuel as [|fuel]; [lia|]); cbn [posix_fallocate]; cbv zeta.
    + rewrite Nat.add_0_r in *. rewrite Hlast.
      destruct (Z.eqb_spec rv 0); [reflexivity|].
      rewrite (proj2 (Z.eqb_neq rv EINTR)) by exact Hne. reflexivity.
    + pose proof (Hint 0 ltac:(lia)) as H0. rewrite Nat.add_0_r in H0. rewrite H0.
      change (EINTR =? 0)%Z with false. rewrite Z.eqb_refl. cbv iota.
      rewrite (IH fuel (S n)); [do 2 f_equal; lia| | |lia].
      * intros i Hi. replace (S n + i) with (n + S i) by lia. apply Hint. lia.
      * replace (S n + k) with (n + S k) by lia. exact Hlast.
  - intros Hk. unfold posix_fadvise. pose proof (Hint 0 Hk) as H0.
    rewrite Nat.add_0_r in H0. rewrite H0. reflexivity.
  - intros ->. rewrite Nat.add_0_r in Hlast.
    destruct (Z.eqb_spec rv 0) as [He|He]; [apply Hzero|apply Hother]; congruence.
Qed.

Lemma posix_fallocate_retries_witness :
  posix_fallocate interrupted_posix 3 0 = Some (Returned tt, 3)
  /\ posix_fadvise interrupted_posix 0 = (Raised fadvise_error, 1).
Proof.
  destruct (posix_fallocate_retries interrupted_posix 2 3 0 0
              ltac:(intros [|[|i]] Hi; [reflexivity|reflexivity|lia])
              eq_refl ltac:(discriminate) ltac:(lia)) as (Hrun & Hadvise & _).
  split; [exact Hrun|apply Hadvise; lia].
Defined.

End Retry.

(** ** The symbolic-link flags of the operations of a path *)

Module Following.
Import Origin Path.

(** The flags of [<fcntl.h>] for the calls on a name in a
    directory. *)
Definition AT_SYMLINK_NOFOLLOW : Z := 0x100.
Definition AT_SYMLINK_FOLLOW : Z := 0x400.

(** [path::impl::flags_follow] and [path::impl::flags_nofollow]. *)
Definition flags_follow (p : path) (additional base : Z) : Z :=
  if _follow p then Z.lor base additional else base.

Definition flags_nofollow (p : path) (additional base : Z) : Z :=
  if _follow p then base else Z.lor base additional.

(** The flags that [stat], [chmod], [chown] and [link] pass to
    [::fstatat], [::fchmodat], [::fchownat] and [::linkat], and the
    flags with which [list] asks for a handle. *)
Definition stat_flags (p : path) : Z := flags_follow p AT_SYMLINK_FOLLOW 0.
Definition chmod_flags (p : path) : Z := flags_nofollow p AT_SYMLINK_NOFOLLOW 0.
Definition chown_flags (p : path) : Z := flags_nofollow p AT_SYMLINK_NOFOLLOW 0.
Definition link_flags (p : path) : Z := flags_follow p AT_SYMLINK_FOLLOW 0.
Definition list_flags (p : path) : Z :=
  flags_nofollow p O_NOFOLLOW (Z.lor O_RDONLY O_DIRECTORY).

(** [origin::impl::make_handle], up to the handle that is made of the
    descriptor. *)
Definition origin_make_handle (sys_openat : Z -> bytes -> Z -> Z + Z) (o : origin)
    (pathname : bytes) (flags : Z) : M Z :=
  openat sys_openat (origin_context o) (dir_fd o) pathname flags.

(** [path::impl::make_handle]. *)
Definition make_handle (sys_openat : Z -> bytes -> Z -> Z + Z) (p : path)
    (flags : Z) : M Z :=
  let flags := Z.lor flags (if _follow p then 0%Z else O_NOFOLLOW) in
  origin_make_handle sys_openat (_origin p) (_pathname p) flags.

(** *** Properties *)

Lemma land_lor_split a b c :
  Z.land a (Z.lor b c) = Z.lor b c -> Z.land a b = b /\ Z.land a c = c.
Proof.
  intros H. split; apply Z.bits_inj'; intros n Hn;
    apply (f_equal (fun z => Z.testbit z n)) in H; revert H;
    rewrite !Z.land_spec, Z.lor_spec;
    destruct (Z.testbit a n), (Z.testbit b n), (Z.testbit c n); simpl; congruence.
Qed.

Lemma openat_runs sys_openat ctx fd pathname flags :
  exists r ev evs,
    openat sys_openat ctx fd pathname flags [] = Some (r, ev :: evs).
Proof.
  unfold openat, bind, emit, ret, raise. cbn [app].
  repeat match goal with
         | |- context [if ?b then _ else _] => destruct b
         | |- context [match ?x with inl _ => _ | inr _ => _ end] => destruct x
         end; eexists _, _, _; reflexivity.
Qed.

(** X28. Every handle that a path makes is opened with [::openat]
    on the directory of its origin, or on the working directory when
    the origin has none, and on its pathname, with flags that contain
    the flags asked for, and the no-follow flag whenever the path
    does not follow symbolic links; at least one call is made. *)
Theorem make_handle_calls (sys_openat : Z -> bytes -> Z -> Z + Z) (p : path)
    (flags : Z) :
  exists r ev evs,
    make_handle sys_openat p flags [] = Some (r, ev :: evs)
    /\ Forall (fun ev => exists flags',
                 ev = EvOpenat (get_or (origin_handle (_origin p)) AT_FDCWD)
                        (_pathname p) flags'
                 /\ Z.land flags' flags = flags
                 /\ (_follow p = false -> Z.land flags' O_NOFOLLOW = O_NOFOLLOW))
         (ev :: evs).
Proof.
  unfold make_handle, origin_make_handle, dir_fd.
  destruct (openat_runs sys_openat (origin_context (_origin p))
              (get_or (origin_handle (_origin p)) AT_FDCWD) (_pathname p)
              (Z.lor flags (if _follow p then 0%Z else O_NOFOLLOW)))
    as (r & ev & evs & Hrun).
  exists r, ev, evs. split; [exact Hrun|].
  pose proof (Descriptors.openat_events _ _ _ _ _ _ _ Hrun) as Hall.
  eapply Forall_impl; [exact Hall|]. cbv beta.
  intros e (flags' & -> & Hflags). exists flags'. split; [reflexivity|].
  apply land_lor_split in Hflags as [H1 H2]. split; [exact H1|].
  intros Hf. rewrite Hf in H2. exact H2.
Qed.

(** X29. [stat] and [link] never pass the flag that keeps the call
    from following a symbolic link: they pass the follow flag when the
    path follows links and no flag when it does not. [chmod] and
    [chown] pass the no-follow flag exactly when the path does not
    follow links, and [list] asks for the no-follow flag of the open
    call exactly then. *)
Theorem path_follow_flags (p : path) :
  Z.land (stat_flags p) AT_SYMLINK_NOFOLLOW = 0%Z
  /\ Z.land (link_flags p) AT_SYMLINK_NOFOLLOW = 0%Z
  /\ stat_flags p = (if _follow p then AT_SYMLINK_FOLLOW else 0%Z)
  /\ link_flags p = stat_flags p
  /\ Z.land (chmod_flags p) AT_SYMLINK_NOFOLLOW
     = (if _follow p then 0%Z else AT_SYMLINK_NOFOLLOW)
  /\ chown_flags p = chmod_flags p
  /\ Z.land (list_flags p) O_NOFOLLOW = (if _follow p then 0%Z else O_NOFOLLOW)
  /\ Z.land (list_flags p) (Z.lor O_RDONLY O_DIRECTORY) = Z.lor O_RDONLY O_DIRECTORY.
Proof.
  unfold stat_flags, link_flags, chmod_flags, chown_flags, list_flags,
    flags_follow, flags_nofollow.
  destruct (_follow p); repeat split; reflexivity.
Qed.

End Following.
